(** * Evaluation script of the NT fetal-anomaly U-Net: a shallow embedding

    The development follows [NT_DATA/evalutate_unet.py] stage by stage:
    mask coercion and validation, threshold selection on the
    precision-recall sweep, binarisation, per-image post-processing, the
    Dice score and the confusion-matrix metrics, and puts the stages
    together in [evaluate].  The library functions the script calls (NumPy,
    scikit-learn, OpenCV) are modelled after their documentation.

    Conventions.
    - Arrays are nested lists; a batch is [N x H x W].  The trailing unit
      channel axis that the script adds with [expand_dims] carries no data and
      is not represented.  [squeeze] (line 49) removes that axis and every
      other axis of length 1 with it: it is modelled on images of at least
      2 x 2 pixels, where only the channel axis goes, and has no value on an
      image with a single row or column (see [squeeze]).
    - Finite float values are rationals.  Comparisons of floats are exact, so
      they are comparisons in [Q]; every arithmetic operation that rounds goes
      through the rounding operator [fl] of the class [Rounding].  Theorems
      hold for every rounding that obeys [RoundingLaws] (round-to-nearest on
      binary64 does, and so does exact arithmetic).
    - Integer arrays hold [Z]; fixed-width wrap-around is written out where
      the script computes in a fixed width.
    - A Python exception is the [Raise] branch of [result]. *)

From Stdlib Require Import String ZArith QArith Qabs List Bool Lia Lqa.
From Stdlib Require Import Permutation Sorted DecimalString.
Import ListNotations.

Set Implicit Arguments.

(* ================================================================== *)
(** * Outcomes of Python statements *)

Inductive exn : Type :=
| AssertionError (msg : string)
| ValueError
| IndexError.

Inductive result (A : Type) : Type :=
| Ok (a : A)
| Raise (e : exn).

Arguments Ok {A} a.
Arguments Raise {A} e.

Definition bind {A B : Type} (m : result A) (k : A -> result B) : result B :=
  match m with
  | Ok a => k a
  | Raise e => Raise e
  end.

Notation "x <- m ;; k" := (bind m (fun x => k))
  (at level 61, m at next level, right associativity).

Definition raises {A : Type} (m : result A) : bool :=
  match m with
  | Ok _ => false
  | Raise _ => true
  end.

(* ================================================================== *)
(** * Arrays *)

Definition image (A : Type) : Type := list (list A).
Definition batch (A : Type) : Type := list (image A).

Definition imap {A B : Type} (f : A -> B) (m : image A) : image B :=
  map (map f) m.

Definition bmap {A B : Type} (f : A -> B) (b : batch A) : batch B :=
  map (imap f) b.

(** [zip_with] is the elementwise binary operation of two arrays of one
    shape (the script never broadcasts). *)
Fixpoint zip_with {A B C : Type} (f : A -> B -> C) (xs : list A) (ys : list B)
  : list C :=
  match xs, ys with
  | x :: xs', y :: ys' => f x y :: zip_with f xs' ys'
  | _, _ => []
  end.

Definition imap2 {A B C : Type} (f : A -> B -> C) (a : image A) (b : image B)
  : image C :=
  zip_with (zip_with f) a b.

Definition bmap2 {A B C : Type} (f : A -> B -> C) (a : batch A) (b : batch B)
  : batch C :=
  zip_with (imap2 f) a b.

(** Pixel [(r, c)] of an image. *)
Definition pixel {A : Type} (img : image A) (r c : nat) : option A :=
  match nth_error img r with
  | Some row => nth_error row c
  | None => None
  end.

(** Entry [(n, r, c)] of a batch. *)
Definition bpixel {A : Type} (b : batch A) (n r c : nat) : option A :=
  match nth_error b n with
  | Some img => pixel img r c
  | None => None
  end.

(** [ndarray.flatten], row-major. *)
Definition iflatten {A : Type} (m : image A) : list A := concat m.
Definition flatten {A : Type} (b : batch A) : list A :=
  concat (map iflatten b).

(** Two arrays have the same shape. *)
Definition same_shape_img {A B : Type} (a : image A) (b : image B) : Prop :=
  Forall2 (fun r s => length r = length s) a b.
Definition same_shape {A B : Type} (a : batch A) (b : batch B) : Prop :=
  Forall2 same_shape_img a b.

(** Every entry of an integer array is 0 or 1. *)
Definition is_bit (v : Z) : Prop := v = 0%Z \/ v = 1%Z.
Definition binary (l : list Z) : Prop := Forall is_bit l.

(** [np.sum] of an integer list, before any width is applied. *)
Definition zsum (l : list Z) : Z := fold_right Z.add 0%Z l.

(* ================================================================== *)
(** * Floating point *)

(** Rounding of a real result to the float format. *)
Class Rounding : Type := { fl : Q -> Q }.

(** What the proofs need of a rounding: it is monotone, it leaves a value
    that is already rounded alone, integers of magnitude up to 2^53 are
    representable, and the literal [1e-6] does not round to zero. *)
Class RoundingLaws (R : Rounding) : Prop := {
  fl_mono : forall x y : Q, x <= y -> fl x <= fl y;
  fl_idem : forall x : Q, fl (fl x) == fl x;
  fl_int : forall n : Z, (Z.abs n <= 2 ^ 53)%Z -> fl (inject_Z n) == inject_Z n;
  fl_eps_pos : 0 < fl (1 # 1000000)
}.

(** Exact arithmetic, the rounding that rounds nothing. *)
Definition exact : Rounding := {| fl := fun x => x |}.

Section FloatOps.
Context {R : Rounding}.

Definition fadd (x y : Q) : Q := fl (x + y).
Definition fmul (x y : Q) : Q := fl (x * y).
Definition fdiv (x y : Q) : Q := fl (x / y).

(** Conversion of an integer to float. *)
Definition of_int (n : Z) : Q := fl (inject_Z n).

(** The literal [1e-6]. *)
Definition eps : Q := fl (1 # 1000000).
End FloatOps.

(** A float64 value, with the special values that NumPy division can
    produce. *)
Inductive float64 : Type :=
| Finite (q : Q)
| PosInf
| NegInf
| NaN.

(** [x > c] for a float [x] and a finite constant [c]; every comparison with
    NaN is false. *)
Definition Qgtb (p t : Q) : bool :=
  match p ?= t with
  | Gt => true
  | _ => false
  end.

Definition float_gtb (x : float64) (c : Q) : bool :=
  match x with
  | Finite q => Qgtb q c
  | PosInf => true
  | NegInf => false
  | NaN => false
  end.

(** [.astype(np.uint8)] of a boolean. *)
Definition astype_uint8 (b : bool) : Z := if b then 1%Z else 0%Z.

(** The text Python writes for a float in an f-string field, [{x}]. *)
Class FloatFormat : Type := { str_float : Q -> string }.

(** A rendering to run the examples with: sign, integer part, point and
    the digits of the fraction, at least one and at most 17.  It is what
    Python writes for the values of the examples, such as [0.25] and
    [1.5], whose decimal expansion is short and exact. *)
Fixpoint fraction_digits (fuel : nat) (r d : Z) : string :=
  match fuel with
  | O => EmptyString
  | S fuel' =>
      if (r =? 0)%Z then EmptyString
      else (NilZero.string_of_int (Z.to_int (r * 10 / d))
            ++ fraction_digits fuel' ((r * 10) mod d) d)%string
  end.

Definition decimal_text (q : Q) : string :=
  let a := Z.abs (Qnum q) in
  let d := Zpos (Qden q) in
  let fraction := fraction_digits 17 (a mod d) d in
  ((if (Qnum q <? 0)%Z then "-" else "")
   ++ NilZero.string_of_int (Z.to_int (a / d)) ++ "."
   ++ (if (a mod d =? 0)%Z then "0" else fraction))%string.

Definition decimal : FloatFormat := {| str_float := decimal_text |}.

(* ================================================================== *)
(** * Binarisation (line 42)

    [preds = (raw_preds > optimal_threshold).astype(np.uint8)] *)

Definition threshold_pixel (optimal_threshold p : Q) : Z :=
  astype_uint8 (Qgtb p optimal_threshold).

Definition preds (raw_preds : batch Q) (optimal_threshold : Q) : batch Z :=
  bmap (threshold_pixel optimal_threshold) raw_preds.

(** Number of positive predictions of a binarised batch. *)
Definition count_positive (b : batch Z) : Z := zsum (flatten b).

(* ================================================================== *)
(** * Mask coercion and validation (lines 17-23) *)

Inductive dtype : Type := Dbool | Duint8 | Dint64 | Dfloat32 | Dfloat64.

Definition dtype_eqb (a b : dtype) : bool :=
  match a, b with
  | Dbool, Dbool | Duint8, Duint8 | Dint64, Dint64
  | Dfloat32, Dfloat32 | Dfloat64, Dfloat64 => true
  | _, _ => false
  end.

(** An integer array together with its element type. *)
Record ndarray : Type := { arr_dtype : dtype; arr_data : batch Z }.

(** [Y_test = (Y_test > 0.5).astype(np.uint8)], on whatever numeric array
    [np.load] returned. *)
Definition coerce_masks (loaded : batch float64) : ndarray :=
  {| arr_dtype := Duint8;
     arr_data := bmap (fun x => astype_uint8 (float_gtb x (1 # 2))) loaded |}.

(** [ndarray.max] and [ndarray.min]: a zero-size array has no maximum, NumPy
    raises [ValueError]. *)
Definition np_max (l : list Z) : result Z :=
  match l with
  | [] => Raise ValueError
  | x :: xs => Ok (fold_left Z.max xs x)
  end.

Definition np_min (l : list Z) : result Z :=
  match l with
  | [] => Raise ValueError
  | x :: xs => Ok (fold_left Z.min xs x)
  end.

(** The two [assert] statements.  [and] evaluates its right operand only
    when the left one holds. *)
Definition validate_masks (Y_test : ndarray) : result unit :=
  mx <- np_max (flatten (arr_data Y_test)) ;;
  in_range <- (if (mx <=? 1)%Z
               then mn <- np_min (flatten (arr_data Y_test)) ;; Ok (0 <=? mn)%Z
               else Ok false) ;;
  if negb in_range then Raise (AssertionError "Masks must be binary (0-1)")
  else if negb (dtype_eqb (arr_dtype Y_test) Duint8)
       then Raise (AssertionError "Masks should be uint8 type")
       else Ok tt.

(** An outcome is a failed assertion. *)
Definition is_assertion_error {A : Type} (m : result A) : bool :=
  match m with
  | Raise (AssertionError _) => true
  | _ => false
  end.

(* ================================================================== *)
(** * Dice score (lines 70-72) *)

(** Product of two [uint8] entries. *)
Definition uint8_mul (a b : Z) : Z := ((a * b) mod 256)%Z.

(** [np.sum] of a [uint8] array: the accumulator is [uint64]. *)
Definition np_sum (l : list Z) : Z := (zsum l mod 2 ^ 64)%Z.

(** Sum of two [uint64] scalars. *)
Definition uint64_add (a b : Z) : Z := ((a + b) mod 2 ^ 64)%Z.

Section Dice.
Context {R : Rounding}.

Definition dice_score (y_true y_pred : batch Z) : Q :=
  let intersection := np_sum (flatten (bmap2 uint8_mul y_true y_pred)) in
  fdiv (fmul 2 (of_int intersection))
       (fadd (of_int (uint64_add (np_sum (flatten y_true))
                                 (np_sum (flatten y_pred))))
             eps).
End Dice.

(** The same quantity as the formula reads, without rounding or widths. *)
Definition dice_formula (y_true y_pred : list Z) : Q :=
  (2 * inject_Z (zsum (zip_with Z.mul y_true y_pred)))
  / (inject_Z (zsum y_true) + inject_Z (zsum y_pred) + (1 # 1000000)).

(* ================================================================== *)
(** * Confusion matrix and clinical metrics (lines 86-94) *)

(** ** [sklearn.metrics.confusion_matrix]

    With no [labels] argument the rows and columns are the values that occur
    at least once in [y_true] or [y_pred], in sorted order; entry [(i, j)]
    counts the samples of true label [i] predicted as label [j]. *)

Fixpoint insert_label (x : Z) (l : list Z) : list Z :=
  match l with
  | [] => [x]
  | y :: ys =>
      if (x <? y)%Z then x :: l
      else if (x =? y)%Z then l
      else y :: insert_label x ys
  end.

Definition unique_labels (y_true y_pred : list Z) : list Z :=
  fold_right insert_label [] (y_true ++ y_pred).

(** Label [v] occurs in [l]. *)
Definition has_label (v : Z) (l : list Z) : bool := existsb (Z.eqb v) l.

(** The sorted labels of a 0/1 array, from which of the two occur. *)
Definition labels_of_flags (has0 has1 : bool) : list Z :=
  (if has0 then [0%Z] else []) ++ (if has1 then [1%Z] else []).

Definition count_pairs (t p : Z) (y_true y_pred : list Z) : Z :=
  zsum (zip_with (fun a b => if ((a =? t) && (b =? p))%Z then 1 else 0)%Z
                 y_true y_pred).

Definition confusion_matrix (y_true y_pred : list Z) : list (list Z) :=
  let labels := unique_labels y_true y_pred in
  map (fun t => map (fun p => count_pairs t p y_true y_pred) labels) labels.

(** [ndarray.ravel] of a matrix. *)
Definition ravel (m : list (list Z)) : list Z := concat m.

(** [tn, fp, fn, tp = ...]: unpacking needs exactly four values. *)
Definition unpack4 (l : list Z) : result (Z * Z * Z * Z) :=
  match l with
  | [a; b; c; d] => Ok (a, b, c, d)
  | _ => Raise ValueError
  end.

(** Sum of two [int64] scalars. *)
Definition int64_add (a b : Z) : Z :=
  ((a + b + 2 ^ 63) mod 2 ^ 64 - 2 ^ 63)%Z.

Section Clinical.
Context {R : Rounding}.

(** [a / b] on NumPy integer scalars: true division in float64.  A zero
    divisor gives NaN or an infinity and a [RuntimeWarning]; NumPy's
    default error state does not raise. *)
Definition true_divide (a b : Z) : float64 :=
  if (b =? 0)%Z then
    if (a =? 0)%Z then NaN else if (0 <? a)%Z then PosInf else NegInf
  else Finite (fdiv (of_int a) (of_int b)).

Definition confusion_counts (Y_test postprocessed_preds : batch Z)
  : result (Z * Z * Z * Z) :=
  let y_true := flatten Y_test in
  let y_pred := flatten postprocessed_preds in
  unpack4 (ravel (confusion_matrix y_true y_pred)).

Definition clinical_metrics (Y_test postprocessed_preds : batch Z)
  : result (float64 * float64 * float64) :=
  counts <- confusion_counts Y_test postprocessed_preds ;;
  let '(tn, fp, fn, tp) := counts in
  let sensitivity := true_divide tp (int64_add tp fn) in
  let specificity := true_divide tn (int64_add tn fp) in
  let precision := true_divide tp (int64_add tp fp) in
  Ok (sensitivity, specificity, precision).
End Clinical.

(* ================================================================== *)
(** * Threshold selection (lines 33-39) *)

(** ** [sklearn.metrics.precision_recall_curve]

    The samples are ordered by decreasing score.  Each distinct score is a
    threshold; at a threshold, [tps] counts the positives with a score at
    least that high and [fps] the negatives.  Precision is [tps/(tps+fps)]
    (0 where nothing is predicted positive), recall is [tps/tps[-1]] (1
    throughout when there is no positive).  The three arrays are returned in
    increasing threshold order, with a final precision 1 and recall 0 that
    have no threshold.  The input is not empty. *)

Fixpoint insert_desc (x : Q * Z) (l : list (Q * Z)) : list (Q * Z) :=
  match l with
  | [] => [x]
  | y :: ys =>
      if Qle_bool (fst y) (fst x) then x :: l else y :: insert_desc x ys
  end.

Definition sort_desc (l : list (Q * Z)) : list (Q * Z) :=
  fold_right insert_desc [] l.

(** [(fps, tps, threshold)] at the last sample of each run of equal scores;
    [tps] and [n] are the positives and the samples seen so far. *)
Fixpoint clf_curve_from (tps n : Z) (l : list (Q * Z)) : list (Z * Z * Q) :=
  match l with
  | [] => []
  | (s, y) :: rest =>
      let tps' := (tps + (if y =? 1 then 1 else 0))%Z in
      let n' := (n + 1)%Z in
      let tail := clf_curve_from tps' n' rest in
      match rest with
      | [] => [((n' - tps')%Z, tps', s)]
      | (s', _) :: _ =>
          if Qeq_bool s s' then tail else ((n' - tps')%Z, tps', s) :: tail
      end
  end.

Definition binary_clf_curve (y_true : list Z) (y_score : list Q)
  : list (Z * Z * Q) :=
  clf_curve_from 0 0 (sort_desc (combine y_score y_true)).

(** A point of the sweep: non-negative counts, at least one sample at or
    above the threshold, and a threshold that is one of the scores. *)
Definition point_ok (scores : list Q) (pt : Z * Z * Q) : Prop :=
  let '(fps, tps, s) := pt in
  (0 <= tps)%Z /\ (0 <= fps)%Z /\ (1 <= tps + fps)%Z /\ In s scores.

Section Threshold.
Context {R : Rounding}.

Definition curve_precision (pt : Z * Z * Q) : Q :=
  let '(fps, tps, _) := pt in
  let ps := (tps + fps)%Z in
  if (ps =? 0)%Z then 0 else fdiv (of_int tps) (of_int ps).

Definition curve_recall (total : Z) (pt : Z * Z * Q) : Q :=
  let '(_, tps, _) := pt in
  if (total =? 0)%Z then 1 else fdiv (of_int tps) (of_int total).

Definition precision_recall_curve (y_true : list Z) (y_score : list Q)
  : list Q * list Q * list Q :=
  let curve := binary_clf_curve y_true y_score in
  let total := last (map (fun pt => snd (fst pt)) curve) 0%Z in
  (rev (map curve_precision curve) ++ [1],
   rev (map (curve_recall total) curve) ++ [0],
   rev (map snd curve)).

(** [2 * (precisions * recalls) / (precisions + recalls + 1e-6)],
    elementwise. *)
Definition f1_point (p r : Q) : Q :=
  fdiv (fmul 2 (fmul p r)) (fadd (fadd p r) eps).

Definition f1_curve (precisions recalls : list Q) : list Q :=
  zip_with f1_point precisions recalls.

(** [np.argmax]: the index of the first occurrence of the maximum;
    [ValueError] on an empty array. *)
Fixpoint argmax_from (best : Q) (best_idx i : nat) (l : list Q) : nat :=
  match l with
  | [] => best_idx
  | x :: xs =>
      if Qgtb x best then argmax_from x i (S i) xs
      else argmax_from best best_idx (S i) xs
  end.

Definition argmax (l : list Q) : result nat :=
  match l with
  | [] => Raise ValueError
  | x :: xs => Ok (argmax_from x 0%nat 1%nat xs)
  end.

(** Indexing an array with a non-negative index. *)
Definition getitem {A : Type} (l : list A) (i : nat) : result A :=
  match nth_error l i with
  | Some x => Ok x
  | None => Raise IndexError
  end.

Definition optimal_idx (Y_test : batch Z) (raw_preds : batch Q)
  : result nat :=
  let '(precisions, recalls, _) :=
    precision_recall_curve (flatten Y_test) (flatten raw_preds) in
  argmax (f1_curve precisions recalls).

Definition optimal_threshold (Y_test : batch Z) (raw_preds : batch Q)
  : result Q :=
  let '(precisions, recalls, thresholds) :=
    precision_recall_curve (flatten Y_test) (flatten raw_preds) in
  idx <- argmax (f1_curve precisions recalls) ;;
  getitem thresholds idx.

(** The thresholds of the sweep and the F1 value at each point of it. *)
Definition sweep_thresholds (Y_test : batch Z) (raw_preds : batch Q)
  : list Q :=
  snd (precision_recall_curve (flatten Y_test) (flatten raw_preds)).

Definition sweep_f1 (Y_test : batch Z) (raw_preds : batch Q) : list Q :=
  let '(precisions, recalls, _) :=
    precision_recall_curve (flatten Y_test) (flatten raw_preds) in
  f1_curve precisions recalls.
End Threshold.

(** A small batch for the examples: one 2 x 2 image. *)
Definition example_masks : batch Z := [[[0; 1]; [1; 0]]]%Z.
Definition example_probs : batch Q := [[[1 # 10; 8 # 10]; [4 # 10; 4 # 10]]].

(** A batch on which two thresholds tie for the largest F1. *)
Definition tie_masks : batch Z := [[[1; 1]; [0; 0]]]%Z.
Definition tie_probs : batch Q := [[[9 # 10; 2 # 10]; [2 # 10; 2 # 10]]].

(* ================================================================== *)
(** * Post-processing (lines 44-66) *)

Inductive morph_op : Type := MORPH_ERODE | MORPH_DILATE | MORPH_OPEN | MORPH_CLOSE.

(** The two OpenCV entry points of the script.
    [connectedComponentsWithStats] returns the number of labels (background
    included), the label image and the statistics matrix, one row
    [left; top; width; height; area] per label; the centroids, which the
    script discards, are left out. *)
Class Cv2 : Type := {
  morphologyEx : image Z -> morph_op -> image Z -> image Z;
  connectedComponentsWithStats : image Z -> Z * image Z * list (list Z)
}.

(** [kernel = np.ones((3, 3), np.uint8)] *)
Definition kernel : image Z := repeat (repeat 1%Z 3) 3.

(** [np.zeros_like] *)
Definition zeros_like (m : image Z) : image Z := imap (fun _ => 0%Z) m.

(** [processed[labels == l] = 1] *)
Definition assign_where (labels : image Z) (l : Z) (processed : image Z)
  : image Z :=
  imap2 (fun lab v => if (lab =? l)%Z then 1%Z else v) labels processed.

(** [stats[1:, -1]] *)
Definition area_column (stats : list (list Z)) : list Z :=
  map (fun row => last row 0%Z) (tl stats).

(** One iteration of the loop over [range(n_labels-1)]. *)
Definition filter_step (sizes : list Z) (labels : image Z)
  (acc : result (image Z)) (i : nat) : result (image Z) :=
  processed <- acc ;;
  size <- getitem sizes i ;;
  if (100 <=? size)%Z
  then Ok (assign_where labels (Z.of_nat i + 1) processed)
  else Ok processed.

Section Postprocess.
Context {cv : Cv2}.

(** The body of the loop over the predicted masks. *)
Definition postprocess (mask_squeezed : image Z) : result (image Z) :=
  let processed := morphologyEx mask_squeezed MORPH_CLOSE kernel in
  let '(n_labels, labels, stats) := connectedComponentsWithStats processed in
  if (1 <? n_labels)%Z then
    let sizes := area_column stats in
    fold_left (filter_step sizes labels)
              (seq 0 (Z.to_nat (n_labels - 1)))
              (Ok (zeros_like processed))
  else Ok processed.

Fixpoint postprocessed_preds (preds : batch Z) : result (batch Z) :=
  match preds with
  | [] => Ok []
  | mask :: rest =>
      processed <- postprocess mask ;;
      others <- postprocessed_preds rest ;;
      Ok (processed :: others)
  end.
End Postprocess.

(** ** What OpenCV promises of a labelling

    The label image has the shape of the input; a pixel has label 0 exactly
    when it is background; labels are below [n_labels], which counts the
    background; row [l] of the statistics has five columns, the last one
    the number of pixels labelled [l]. *)

Definition count_label (l : Z) (labels : image Z) : Z :=
  zsum (map (fun v => if (v =? l)%Z then 1%Z else 0%Z) (iflatten labels)).

Fixpoint forallb2 {A B : Type} (f : A -> B -> bool) (xs : list A) (ys : list B)
  : bool :=
  match xs, ys with
  | [], [] => true
  | x :: xs', y :: ys' => f x y && forallb2 f xs' ys'
  | _, _ => false
  end.

Definition pixel_ok (n_labels v lab : Z) : bool :=
  Bool.eqb (v =? 0)%Z (lab =? 0)%Z && (0 <=? lab)%Z && (lab <? n_labels)%Z.

Definition stats_row_ok (labels : image Z) (entry : nat * list Z) : bool :=
  let '(l, row) := entry in
  (length row =? 5)%nat && (last row 0 =? count_label (Z.of_nat l) labels)%Z.

Definition cc_contract (img : image Z) (res : Z * image Z * list (list Z))
  : bool :=
  let '(n_labels, labels, stats) := res in
  (1 <=? n_labels)%Z
  && forallb2 (forallb2 (pixel_ok n_labels)) img labels
  && (Z.of_nat (length stats) =? n_labels)%Z
  && forallb (stats_row_ok labels) (combine (seq 0 (length stats)) stats).

(** The closed mask and its labelling, as [postprocess] obtains them. *)
Definition closed_mask {cv : Cv2} (mask : image Z) : image Z :=
  morphologyEx mask MORPH_CLOSE kernel.

Definition labelling {cv : Cv2} (mask : image Z) : Z * image Z * list (list Z) :=
  connectedComponentsWithStats (closed_mask mask).

Definition n_labels_of {cv : Cv2} (mask : image Z) : Z :=
  fst (fst (labelling mask)).

Definition labels_of {cv : Cv2} (mask : image Z) : image Z :=
  snd (fst (labelling mask)).

Definition binary_img (img : image Z) : Prop := binary (iflatten img).

(** What [cc_contract] says of one pixel and its label. *)
Definition label_ok (n : Z) (v lab : Z) : Prop :=
  (v = 0 <-> lab = 0)%Z /\ (0 <= lab < n)%Z.

(** The post-processed value of a pixel labelled [lab]. *)
Definition retained (labels : image Z) (lab : Z) : Z :=
  if ((1 <=? lab) && (100 <=? count_label lab labels))%Z then 1%Z else 0%Z.

(** The value the loop has written at a pixel labelled [lab] once it has
    run over [range(k)]. *)
Definition written (sizes : list Z) (k : nat) (lab : Z) : Z :=
  if existsb (fun i => (lab =? Z.of_nat i + 1)%Z
                       && (100 <=? nth i sizes 0)%Z) (seq 0 k)
  then 1%Z else 0%Z.

(* ================================================================== *)
(** * A reference OpenCV

    An executable rendering of the two OpenCV operations after their
    documentation, used to run the post-processing on concrete masks.
    Dilation takes the maximum and erosion the minimum over the pixels under
    the non-zero kernel entries, the kernel anchored at its centre; pixels
    outside the image do not take part (OpenCV's default border).  Labelling
    is 8-connected; the numbering of the components, which OpenCV leaves
    open, follows the first pixel of each in row-major order. *)

Module RefCv2.

Definition at_ (img : image Z) (r c : Z) : option Z :=
  if ((r <? 0) || (c <? 0))%Z then None
  else pixel img (Z.to_nat r) (Z.to_nat c).

Definition imapi {A B : Type} (f : Z -> Z -> A -> B) (img : image A)
  : image B :=
  map (fun rr : nat * list A =>
         map (fun cv : nat * A =>
                f (Z.of_nat (fst rr)) (Z.of_nat (fst cv)) (snd cv))
             (combine (seq 0 (length (snd rr))) (snd rr)))
      (combine (seq 0 (length img)) img).

(** Offsets, relative to the anchor, of the non-zero kernel entries. *)
Definition kernel_offsets (k : image Z) : list (Z * Z) :=
  let ar := (Z.of_nat (length k) / 2)%Z in
  let ac := (Z.of_nat (length (hd [] k)) / 2)%Z in
  iflatten
    (iflatten
       (imapi (fun i j v =>
                 if (v =? 0)%Z then [] else [((i - ar)%Z, (j - ac)%Z)])
              k)).

Definition under (img : image Z) (offs : list (Z * Z)) (r c : Z) : list Z :=
  concat (map (fun o : Z * Z =>
                 match at_ img (r + fst o) (c + snd o) with
                 | Some v => [v]
                 | None => []
                 end) offs).

Definition dilate (img k : image Z) : image Z :=
  let offs := kernel_offsets k in
  imapi (fun r c _ => fold_right Z.max 0%Z (under img offs r c)) img.

Definition erode (img k : image Z) : image Z :=
  let offs := kernel_offsets k in
  imapi (fun r c _ => fold_right Z.min 255%Z (under img offs r c)) img.

Definition morphologyEx (src : image Z) (op : morph_op) (k : image Z)
  : image Z :=
  match op with
  | MORPH_ERODE => erode src k
  | MORPH_DILATE => dilate src k
  | MORPH_OPEN => dilate (erode src k) k
  | MORPH_CLOSE => erode (dilate src k) k
  end.

(** *** Labelling by propagation of the least pixel number *)

Definition neighbours8 : list (Z * Z) :=
  [(-1, -1); (-1, 0); (-1, 1); (0, -1); (0, 0); (0, 1); (1, -1); (1, 0); (1, 1)]%Z.

Definition seed (img : image Z) : image Z :=
  let w := Z.of_nat (length (hd [] img)) in
  imapi (fun r c v => if (v =? 0)%Z then 0 else r * w + c + 1)%Z img.

Definition relax (lab : image Z) : image Z :=
  imapi (fun r c v =>
           if (v =? 0)%Z then 0%Z
           else fold_right Z.min v
                  (filter (fun x => negb (x =? 0)%Z) (under lab neighbours8 r c)))
        lab.

Definition image_eqb (a b : image Z) : bool :=
  forallb2 (forallb2 Z.eqb) a b.

Fixpoint propagate (fuel : nat) (lab : image Z) : image Z :=
  match fuel with
  | O => lab
  | S fuel' =>
      let lab' := relax lab in
      if image_eqb lab lab' then lab else propagate fuel' lab'
  end.

(** The distinct non-zero values of a list, in order of first occurrence. *)
Fixpoint distinct (seen : list Z) (l : list Z) : list Z :=
  match l with
  | [] => rev seen
  | x :: xs =>
      if ((x =? 0) || existsb (Z.eqb x) seen)%Z then distinct seen xs
      else distinct (x :: seen) xs
  end.

Fixpoint index_of (x : Z) (l : list Z) (i : Z) : Z :=
  match l with
  | [] => 0%Z
  | y :: ys => if (x =? y)%Z then i else index_of x ys (i + 1)%Z
  end.

Definition positions (l : Z) (labels : image Z) : list (Z * Z) :=
  iflatten
    (iflatten (imapi (fun r c v => if (v =? l)%Z then [(r, c)] else []) labels)).

Definition stats_row (labels : image Z) (l : Z) : list Z :=
  let ps := positions l labels in
  let rows := map fst ps in
  let cols := map snd ps in
  let left := fold_right Z.min (hd 0%Z cols) cols in
  let top := fold_right Z.min (hd 0%Z rows) rows in
  let right := fold_right Z.max (hd 0%Z cols) cols in
  let bottom := fold_right Z.max (hd 0%Z rows) rows in
  match ps with
  | [] => [0; 0; 0; 0; 0]%Z
  | _ => [left; top; right - left + 1; bottom - top + 1; Z.of_nat (length ps)]%Z
  end.

Definition connectedComponentsWithStats (img : image Z)
  : Z * image Z * list (list Z) :=
  let raw := propagate (length (iflatten img)) (seed img) in
  let roots := distinct [] (iflatten raw) in
  let labels := imap (fun v => if (v =? 0)%Z then 0%Z else index_of v roots 1) raw in
  let n_labels := (Z.of_nat (length roots) + 1)%Z in
  (n_labels, labels,
   map (fun l => stats_row labels (Z.of_nat l)) (seq 0 (Z.to_nat n_labels))).

End RefCv2.

Definition ref_cv2 : Cv2 :=
  {| morphologyEx := RefCv2.morphologyEx;
     connectedComponentsWithStats := RefCv2.connectedComponentsWithStats |}.

(** A label image in the making: same shape as the input, zero exactly on
    the background, never negative. *)
Definition seeded (v x : Z) : Prop := (v = 0 <-> x = 0)%Z /\ (0 <= x)%Z.

(** ** Test masks *)

(** An [h x w] image that is 1 on the [rh x rw] rectangle with top-left
    corner [(top, left)] and 0 elsewhere. *)
Definition rect_mask (h w top left rh rw : nat) : image Z :=
  map (fun r =>
         map (fun c =>
                if ((top <=? r) && (r <? top + rh)
                    && (left <=? c) && (c <? left + rw))%nat
                then 1%Z else 0%Z)
             (seq 0 w))
      (seq 0 h).

(** [img] with pixel [(r, c)] set to [v]. *)
Definition set_pixel (img : image Z) (r c : nat) (v : Z) : image Z :=
  RefCv2.imapi (fun i j x => if ((i =? Z.of_nat r) && (j =? Z.of_nat c))%Z
                             then v else x) img.

(** A 9 x 11 rectangle (99 pixels), a 10 x 10 square (100 pixels) and the
    same square with one interior pixel missing (99 pixels), each two
    pixels away from the image border. *)
Definition strip99 : image Z := rect_mask 13 15 2 2 9 11.
Definition square100 : image Z := rect_mask 14 14 2 2 10 10.
Definition holed99 : image Z := set_pixel square100 6 6 0%Z.

(** A boolean test of [binary]. *)
Definition binaryb (l : list Z) : bool :=
  forallb (fun v => (v =? 0)%Z || (v =? 1)%Z) l.

(* ================================================================== *)
(** * The run, from the loaded arrays to the clinical metrics

    The stages in the order of the script.  The model's prediction
    [raw_preds] is an input; the curves and plots that follow the clinical
    metrics feed nothing back and are left out. *)

(** [raw_preds.max()] and [raw_preds.min()]. *)
Definition Qmax (a b : Q) : Q := if Qle_bool a b then b else a.
Definition Qmin (a b : Q) : Q := if Qle_bool a b then a else b.

Definition np_qmax (l : list Q) : result Q :=
  match l with
  | [] => Raise ValueError
  | x :: xs => Ok (fold_left Qmax xs x)
  end.

Definition np_qmin (l : list Q) : result Q :=
  match l with
  | [] => Raise ValueError
  | x :: xs => Ok (fold_left Qmin xs x)
  end.

(** The message of the assertion on the model output,
    [f"Model outputs out of [0,1] range: {raw_preds.min()}-{raw_preds.max()}"]. *)
Definition out_of_range_message {F : FloatFormat} (lo hi : Q) : string :=
  ("Model outputs out of [0,1] range: " ++ str_float lo ++ "-" ++ str_float hi)
  %string.

(** [assert raw_preds.max() <= 1.0 and raw_preds.min() >= 0.0, f"..."].
    The message is evaluated only when the condition fails; it takes the
    minimum and the maximum again. *)
Definition validate_outputs {F : FloatFormat} (raw_preds : batch Q)
  : result unit :=
  mx <- np_qmax (flatten raw_preds) ;;
  in_range <- (if Qle_bool mx 1
               then mn <- np_qmin (flatten raw_preds) ;; Ok (Qle_bool 0 mn)
               else Ok false) ;;
  if in_range then Ok tt
  else lo <- np_qmin (flatten raw_preds) ;;
       hi <- np_qmax (flatten raw_preds) ;;
       Raise (AssertionError (out_of_range_message lo hi)).

(** [mask.squeeze()] (line 49).  A mask of the loop is [H x W x 1];
    [squeeze] removes the channel axis and every other axis of length 1.
    With at least two rows and two columns only the channel axis goes and
    the result is the [H x W] image.  With a single row or a single column
    the result has one dimension or none; what OpenCV returns for such an
    array, and how the metrics then broadcast it against the ground truth,
    is not part of this development, and [squeeze] has no value there. *)
Definition squeeze {A : Type} (mask : image A) : option (image A) :=
  if ((2 <=? length mask)%nat
      && forallb (fun row => (2 <=? length row)%nat) mask)
  then Some mask else None.

(** The squeezed masks of the loop, when every one of them has a value. *)
Fixpoint squeeze_each {A : Type} (preds : batch A) : option (batch A) :=
  match preds with
  | [] => Some []
  | mask :: rest =>
      match squeeze mask, squeeze_each rest with
      | Some mask_squeezed, Some others => Some (mask_squeezed :: others)
      | _, _ => None
      end
  end.

Section Run.
Context {R : Rounding} {cv : Cv2} {F : FloatFormat}.

(** [jaccard_score(..., average='binary', zero_division=0)]: intersection
    over union of the positive class, 0 when the union is empty. *)
Definition jaccard_score (y_true y_pred : list Z) : Q :=
  let tp := count_pairs 1 1 y_true y_pred in
  let fp := count_pairs 0 1 y_true y_pred in
  let fn := count_pairs 1 0 y_true y_pred in
  if (tp + fp + fn =? 0)%Z then 0
  else fdiv (of_int tp) (of_int (tp + fp + fn)).

Definition calculate_metrics (y_true y_pred : batch Z) : Q * Q :=
  let dice := dice_score y_true y_pred in
  let iou := jaccard_score (flatten y_true) (flatten y_pred) in
  (dice, iou).

Record report : Type := {
  rep_threshold : Q;
  rep_original : Q * Q;
  rep_processed : Q * Q;
  rep_clinical : float64 * float64 * float64
}.

(** Lines 17-42: coercion, the three assertions, the threshold and the
    binarised prediction. *)
Definition binarise (loaded_masks : batch float64) (raw_preds : batch Q)
  : result (batch Z * Q * batch Z) :=
  let Y_test := coerce_masks loaded_masks in
  checked <- validate_masks Y_test ;;
  in_range <- validate_outputs raw_preds ;;
  threshold <- optimal_threshold (arr_data Y_test) raw_preds ;;
  Ok (arr_data Y_test, threshold, preds raw_preds threshold).

(** Lines 44-94, from the squeezed masks on. *)
Definition score (Y_test : batch Z) (threshold : Q)
  (binarised squeezed : batch Z) : result report :=
  postprocessed <- postprocessed_preds squeezed ;;
  let original := calculate_metrics Y_test binarised in
  let processed := calculate_metrics Y_test postprocessed in
  clinical <- clinical_metrics Y_test postprocessed ;;
  Ok {| rep_threshold := threshold;
        rep_original := original;
        rep_processed := processed;
        rep_clinical := clinical |}.

(** The run.  It has an outcome, a report or an exception, when it ends
    before the loop or when every mask of the loop has a squeezed value;
    it has none ([None]) when the loop is reached with images of a single
    row or column. *)
Definition evaluate (loaded_masks : batch float64) (raw_preds : batch Q)
  : option (result report) :=
  match binarise loaded_masks raw_preds with
  | Raise e => Some (Raise e)
  | Ok (Y_test, threshold, binarised) =>
      match squeeze_each binarised with
      | Some squeezed => Some (score Y_test threshold binarised squeezed)
      | None => None
      end
  end.
End Run.

(** Two test runs on one 14 x 14 image without any positive ground truth:
    a model that answers 0.5 everywhere, and a model that answers 0.9 on the
    10 x 10 square and 0.1 elsewhere. *)
Definition background_masks : batch float64 :=
  [repeat (repeat (Finite 0) 14) 14].
Definition uniform_half : batch Q := [repeat (repeat (1 # 2) 14) 14].
Definition square_probs : batch Q :=
  [imap (fun v => if (v =? 1)%Z then 9 # 10 else 1 # 10) square100].

(* ================================================================== *)
(** * Further notions for the properties of the stages *)

(** A probability. *)
Definition in_unit (p : Q) : Prop := 0 <= p <= 1.

(** Boolean tests of the two assertions' conditions. *)
Definition mask_in_range (v : Z) : bool := ((0 <=? v) && (v <=? 1))%Z.
Definition prob_in_range (p : Q) : bool := Qle_bool 0 p && Qle_bool p 1.

(** A [uint8] array read as numbers again, as when a stored 0/1 mask is
    loaded. *)
Definition of_uint8 (v : Z) : float64 := Finite (inject_Z v).
Definition reload (a : ndarray) : batch float64 := bmap of_uint8 (arr_data a).

(** Order of the samples in the sweep: by decreasing score. *)
Definition ge_score (a b : Q * Z) : Prop := fst b <= fst a.

(** A metric that is either undefined or a proportion. *)
Definition unit_or_nan (x : float64) : Prop :=
  x = NaN \/ exists q : Q, x = Finite q /\ 0 <= q <= 1.

(** The morphological operations return an image of the shape of their
    input. *)
Definition keeps_shape (cv : Cv2) : Prop :=
  forall (img : image Z) (op : morph_op) (k : image Z),
    same_shape_img img (@morphologyEx cv img op k).

(** Every image of a batch has at least two rows and two columns. *)
Definition at_least_2x2 {A : Type} (b : batch A) : Prop :=
  Forall (fun img : image A =>
            (2 <= length img)%nat
            /\ Forall (fun row => (2 <= length row)%nat) img) b.

(** [x] is the least, or the greatest, entry of [l]. *)
Definition least_of (x : Q) (l : list Q) : Prop :=
  In x l /\ Forall (fun p => x <= p) l.
Definition greatest_of (x : Q) (l : list Q) : Prop :=
  In x l /\ Forall (fun p => p <= x) l.

(** Both labels occur among ground truth and prediction. *)
Definition both_labels (y_true y_pred : list Z) : bool :=
  has_label 0 (y_true ++ y_pred) && has_label 1 (y_true ++ y_pred).

(** The mask that [postprocess] returns when OpenCV keeps its contract. *)
Definition postprocessed_image {cv : Cv2} (mask : image Z) : image Z :=
  imap (retained (labels_of mask)) (labels_of mask).

(** Number of entries of a list that pass a test. *)
Definition count_where {A : Type} (f : A -> bool) (l : list A) : Z :=
  zsum (map (fun x => if f x then 1%Z else 0%Z) l).

(* ================================================================== *)
(** * Theorems *)

Local Open Scope Q_scope.

Lemma Qgtb_true (p t : Q) : Qgtb p t = true <-> t < p.
Proof.
  unfold Qgtb. rewrite Qgt_alt.
  destruct (p ?= t); split; intro H; congruence.
Qed.

Lemma Qgtb_false (p t : Q) : Qgtb p t = false <-> p <= t.
Proof.
  unfold Qgtb. rewrite Qle_alt.
  destruct (p ?= t); split; intro H; congruence.
Qed.

(* ------------------------------------------------------------------ *)
(** ** Lists and sums *)

Lemma flatten_bmap {A B : Type} (f : A -> B) (b : batch A) :
  flatten (bmap f b) = map f (flatten b).
Proof.
  unfold flatten, bmap, iflatten, imap.
  rewrite concat_map, map_map, map_map.
  f_equal. apply map_ext. intro img. now rewrite concat_map.
Qed.

Lemma zsum_app (l1 l2 : list Z) : zsum (l1 ++ l2) = (zsum l1 + zsum l2)%Z.
Proof.
  induction l1 as [|x l1 IH]; simpl; [reflexivity|]. rewrite IH. lia.
Qed.

Lemma zsum_map_le {A : Type} (f g : A -> Z) (l : list A) :
  (forall x, In x l -> (f x <= g x)%Z) ->
  (zsum (map f l) <= zsum (map g l))%Z.
Proof.
  induction l as [|x l IH]; simpl; intro H; [lia|].
  specialize (H x (or_introl eq_refl)) as Hx.
  assert (zsum (map f l) <= zsum (map g l))%Z by (apply IH; intros; apply H; now right).
  lia.
Qed.

Lemma zsum_binary_bounds (l : list Z) :
  binary l -> (0 <= zsum l <= Z.of_nat (length l))%Z.
Proof.
  induction 1 as [|x l Hx _ IH]; simpl; [lia|].
  destruct Hx; subst; lia.
Qed.

Lemma astype_uint8_bit (b : bool) : is_bit (astype_uint8 b).
Proof. destruct b; [right | left]; reflexivity. Qed.

(* ------------------------------------------------------------------ *)
(** ** Binarisation *)

Lemma pixel_imap {A B : Type} (f : A -> B) (img : image A) (r c : nat) :
  pixel (imap f img) r c = option_map f (pixel img r c).
Proof.
  unfold pixel, imap. rewrite nth_error_map.
  destruct (nth_error img r) as [row|]; simpl; [|reflexivity].
  apply nth_error_map.
Qed.

Lemma bpixel_bmap {A B : Type} (f : A -> B) (b : batch A) (n r c : nat) :
  bpixel (bmap f b) n r c = option_map f (bpixel b n r c).
Proof.
  unfold bpixel, bmap. rewrite nth_error_map.
  destruct (nth_error b n) as [img|]; simpl; [|reflexivity].
  apply pixel_imap.
Qed.

Lemma threshold_pixel_spec (t p : Q) :
  threshold_pixel t p = if Qlt_le_dec t p then 1%Z else 0%Z.
Proof.
  unfold threshold_pixel.
  destruct (Qlt_le_dec t p) as [Hlt | Hle].
  - apply Qgtb_true in Hlt. now rewrite Hlt.
  - apply Qgtb_false in Hle. now rewrite Hle.
Qed.

(** C4.  Binarisation is elementwise with a strict comparison: entry
    [(n, r, c)] of the prediction is 1 when the probability at [(n, r, c)]
    exceeds the threshold and 0 otherwise, and a batch that is 0.5 everywhere
    is predicted all zero under the threshold 0.5. *)
Theorem binarization_strict :
  (forall (raw_preds : batch Q) (t : Q) (n r c : nat),
      bpixel (preds raw_preds t) n r c
      = option_map (fun p => if Qlt_le_dec t p then 1%Z else 0%Z)
                   (bpixel raw_preds n r c))
  /\ (forall n h w : nat,
         preds (repeat (repeat (repeat (1 # 2) w) h) n) (1 # 2)
         = repeat (repeat (repeat 0%Z w) h) n).
Proof.
  split.
  - intros raw t n r c. unfold preds. rewrite bpixel_bmap.
    destruct (bpixel raw n r c) as [p|]; simpl; [|reflexivity].
    f_equal. apply threshold_pixel_spec.
  - intros n h w. unfold preds, bmap, imap.
    now rewrite !map_repeat.
Qed.

(** C5.  Raising the threshold never increases the number of positive
    predictions. *)
Theorem binarization_monotone (raw_preds : batch Q) (t1 t2 : Q) :
  t1 <= t2 ->
  (count_positive (preds raw_preds t2) <= count_positive (preds raw_preds t1))%Z.
Proof.
  intro Hle. unfold count_positive, preds. rewrite !flatten_bmap.
  apply zsum_map_le. intros p _.
  rewrite !threshold_pixel_spec.
  destruct (Qlt_le_dec t2 p) as [H2|H2], (Qlt_le_dec t1 p) as [H1|H1]; try lia.
  exfalso. apply (Qlt_irrefl p).
  apply Qle_lt_trans with t1; [exact H1|].
  apply Qle_lt_trans with t2; assumption.
Qed.

Lemma binarization_monotone_witness :
  (1 # 4) <= (1 # 2)
  /\ (count_positive (preds [[[1 # 10; 3 # 10]; [1 # 2; 9 # 10]]] (1 # 2))
      <= count_positive (preds [[[1 # 10; 3 # 10]; [1 # 2; 9 # 10]]] (1 # 4)))%Z.
Proof.
  split.
  - unfold Qle; simpl; lia.
  - apply (@binarization_monotone [[[1 # 10; 3 # 10]; [1 # 2; 9 # 10]]]
             (1 # 4) (1 # 2)).
    unfold Qle; simpl; lia.
Defined.

(* ------------------------------------------------------------------ *)
(** ** Mask validation *)

Lemma fold_left_max_le (xs : list Z) (a b : Z) :
  (a <= b)%Z -> Forall (fun x => (x <= b)%Z) xs ->
  (fold_left Z.max xs a <= b)%Z.
Proof.
  revert a. induction xs as [|x xs IH]; simpl; intros a Ha Hxs; [exact Ha|].
  inversion Hxs; subst. apply IH; [lia | assumption].
Qed.

Lemma fold_left_min_ge (xs : list Z) (a b : Z) :
  (b <= a)%Z -> Forall (fun x => (b <= x)%Z) xs ->
  (b <= fold_left Z.min xs a)%Z.
Proof.
  revert a. induction xs as [|x xs IH]; simpl; intros a Ha Hxs; [exact Ha|].
  inversion Hxs; subst. apply IH; [lia | assumption].
Qed.

Lemma coerce_masks_binary (loaded : batch float64) :
  binary (flatten (arr_data (coerce_masks loaded))).
Proof.
  unfold coerce_masks; simpl. rewrite flatten_bmap.
  apply Forall_forall. intros v Hv. apply in_map_iff in Hv.
  destruct Hv as [x [<- _]]. apply astype_uint8_bit.
Qed.

Lemma validate_binary_uint8 (Y : ndarray) :
  binary (flatten (arr_data Y)) -> arr_dtype Y = Duint8 ->
  validate_masks Y
  = match flatten (arr_data Y) with [] => Raise ValueError | _ => Ok tt end.
Proof.
  intros Hbin Hdt. unfold validate_masks. rewrite Hdt.
  destruct (flatten (arr_data Y)) as [|x xs]; simpl; [reflexivity|].
  inversion Hbin as [|? ? Hx Hxs]; subst.
  assert (Hmax : (fold_left Z.max xs x <= 1)%Z).
  { apply fold_left_max_le; [destruct Hx; lia|].
    eapply Forall_impl; [|exact Hxs]. intros a [Ha|Ha]; lia. }
  assert (Hmin : (0 <= fold_left Z.min xs x)%Z).
  { apply fold_left_min_ge; [destruct Hx; lia|].
    eapply Forall_impl; [|exact Hxs]. intros a [Ha|Ha]; lia. }
  apply Z.leb_le in Hmax. rewrite Hmax. simpl.
  apply Z.leb_le in Hmin. rewrite Hmin. reflexivity.
Qed.

(** C9.  After the coercion [(Y_test > 0.5).astype(np.uint8)] the array is
    [uint8] with every entry 0 or 1, whatever was loaded (NaN and infinities
    included), so neither assertion can fail: the validation never ends in
    an [AssertionError], and on a non-empty array it passes. *)
Theorem mask_assertions_unreachable :
  forall loaded : batch float64,
    arr_dtype (coerce_masks loaded) = Duint8
    /\ binary (flatten (arr_data (coerce_masks loaded)))
    /\ is_assertion_error (validate_masks (coerce_masks loaded)) = false
    /\ (flatten loaded = [] \/ validate_masks (coerce_masks loaded) = Ok tt).
Proof.
  intro loaded.
  pose proof (coerce_masks_binary loaded) as Hbin.
  pose proof (validate_binary_uint8 (coerce_masks loaded) Hbin eq_refl) as Hv.
  repeat split; try assumption.
  - rewrite Hv. now destruct (flatten (arr_data (coerce_masks loaded))).
  - rewrite Hv. unfold coerce_masks at 1. simpl. rewrite flatten_bmap.
    destruct (flatten loaded); [now left | now right].
Qed.

(* ------------------------------------------------------------------ *)
(** ** Rounded arithmetic *)

Lemma exact_laws : RoundingLaws exact.
Proof.
  split; simpl.
  - intros x y H; exact H.
  - intro x; reflexivity.
  - intros n _; reflexivity.
  - reflexivity.
Qed.

Section RoundingFacts.
Context {R : Rounding} (L : RoundingLaws R).

Lemma fl_eq (x y : Q) : x == y -> fl x == fl y.
Proof.
  intro H. apply Qle_antisym; apply fl_mono; rewrite H; apply Qle_refl.
Qed.

Lemma fl_0 : fl 0 == 0.
Proof. apply (fl_int 0). vm_compute. discriminate. Qed.

Lemma fl_1 : fl 1 == 1.
Proof. apply (fl_int 1). vm_compute. discriminate. Qed.

Lemma fl_nonneg (x : Q) : 0 <= x -> 0 <= fl x.
Proof. intro H. rewrite <- fl_0. now apply fl_mono. Qed.

Lemma fl_le_1 (x : Q) : x <= 1 -> fl x <= 1.
Proof. intro H. rewrite <- fl_1. now apply fl_mono. Qed.

Lemma eps_pos : 0 < eps.
Proof. unfold eps. apply fl_eps_pos. Qed.

Lemma of_int_exact (n : Z) : (Z.abs n <= 2 ^ 53)%Z -> of_int n == inject_Z n.
Proof. apply fl_int. Qed.

(** Adding [eps] to a non-negative float leaves a positive float. *)
Lemma fadd_eps_pos (x : Q) : 0 <= x -> 0 < fadd x eps.
Proof.
  intro Hx. unfold fadd.
  apply Qlt_le_trans with (fl eps).
  - unfold eps. rewrite fl_idem. apply fl_eps_pos.
  - apply fl_mono. lra.
Qed.

Lemma fdiv_unit (a b : Q) : 0 <= a -> a <= b -> 0 < b -> 0 <= fdiv a b <= 1.
Proof.
  intros Ha Hab Hb. unfold fdiv. split.
  - apply fl_nonneg. apply Qle_shift_div_l; [exact Hb | lra].
  - apply fl_le_1. apply Qle_shift_div_r; [exact Hb | lra].
Qed.

Lemma fdiv_nonneg (a b : Q) : 0 <= a -> 0 < b -> 0 <= fdiv a b.
Proof.
  intros Ha Hb. unfold fdiv. apply fl_nonneg.
  apply Qle_shift_div_l; [exact Hb | lra].
Qed.
End RoundingFacts.

(* ------------------------------------------------------------------ *)
(** ** Dice score *)

Lemma zip_with_app {A B C : Type} (f : A -> B -> C) (l1 l2 : list A)
  (m1 m2 : list B) :
  length l1 = length m1 ->
  zip_with f (l1 ++ l2) (m1 ++ m2) = zip_with f l1 m1 ++ zip_with f l2 m2.
Proof.
  revert m1. induction l1 as [|x l1 IH]; intros [|y m1] Hlen;
    simpl in *; try discriminate; [reflexivity|].
  f_equal. apply IH. congruence.
Qed.

Lemma iflatten_imap2 {A B C : Type} (f : A -> B -> C) (a : image A)
  (b : image B) :
  same_shape_img a b ->
  iflatten (imap2 f a b) = zip_with f (iflatten a) (iflatten b)
  /\ length (iflatten a) = length (iflatten b).
Proof.
  unfold same_shape_img, iflatten, imap2.
  induction 1 as [|r s a b Hrs _ [IH1 IH2]]; simpl; [now split|].
  split.
  - rewrite zip_with_app by exact Hrs. now rewrite IH1.
  - rewrite !length_app. congruence.
Qed.

Lemma flatten_bmap2 {A B C : Type} (f : A -> B -> C) (a : batch A)
  (b : batch B) :
  same_shape a b ->
  flatten (bmap2 f a b) = zip_with f (flatten a) (flatten b)
  /\ length (flatten a) = length (flatten b).
Proof.
  unfold same_shape, flatten, bmap2.
  induction 1 as [|x y a b Hxy _ [IH1 IH2]]; simpl; [now split|].
  destruct (iflatten_imap2 f Hxy) as [E1 E2].
  split.
  - rewrite zip_with_app by exact E2. now rewrite E1, IH1.
  - rewrite !length_app. congruence.
Qed.

Lemma zsum_cons (x : Z) (l : list Z) : zsum (x :: l) = (x + zsum l)%Z.
Proof. reflexivity. Qed.

(** For 0/1 arrays the [uint8] product is the product, and the intersection
    is at most either sum. *)
Lemma intersection_bounds (yt yp : list Z) :
  binary yt -> binary yp ->
  zip_with uint8_mul yt yp = zip_with Z.mul yt yp
  /\ (0 <= zsum (zip_with Z.mul yt yp) <= zsum yt)%Z
  /\ (zsum (zip_with Z.mul yt yp) <= zsum yp)%Z.
Proof.
  intro Ht. revert yp. induction Ht as [|a yt Ha Ht IH]; intros yp Hp.
  - simpl. repeat split; try lia.
    destruct (zsum_binary_bounds Hp). assumption.
  - destruct Hp as [|b yp Hb Hp]; cbn [zip_with]; rewrite ?zsum_cons.
    + pose proof (zsum_binary_bounds Ht). change (zsum []) with 0%Z.
      repeat split; try lia. destruct Ha; subst; lia.
    + destruct (IH yp Hp) as [E [B1 B2]].
      rewrite E.
      assert (Hm : uint8_mul a b = (a * b)%Z)
        by (destruct Ha, Hb; subst; reflexivity).
      rewrite Hm. repeat split; destruct Ha, Hb; subst; lia.
Qed.

(** On 0/1 arrays of one shape no width is exceeded: the score is computed
    from the true intersection and the true sums. *)
Lemma dice_score_counts {R : Rounding} (y_true y_pred : batch Z) :
  same_shape y_true y_pred ->
  binary (flatten y_true) -> binary (flatten y_pred) ->
  (Z.of_nat (length (flatten y_true)) <= 2 ^ 52)%Z ->
  dice_score y_true y_pred
  = fdiv (fmul 2 (of_int (zsum (zip_with Z.mul (flatten y_true)
                                               (flatten y_pred)))))
         (fadd (of_int (zsum (flatten y_true) + zsum (flatten y_pred))) eps).
Proof.
  intros Hshape Ht Hp Hlen.
  destruct (flatten_bmap2 uint8_mul Hshape) as [Eflat Elen].
  destruct (intersection_bounds Ht Hp) as [Emul [[I0 I1] I2]].
  pose proof (zsum_binary_bounds Ht) as Bt.
  pose proof (zsum_binary_bounds Hp) as Bp.
  rewrite <- Elen in Bp.
  assert (P52 : (2 ^ 52 = 4503599627370496)%Z) by reflexivity.
  assert (P64 : (2 ^ 64 = 18446744073709551616)%Z) by reflexivity.
  unfold dice_score, np_sum, uint64_add.
  rewrite Eflat, Emul.
  set (I := zsum (zip_with Z.mul (flatten y_true) (flatten y_pred))) in *.
  set (St := zsum (flatten y_true)) in *.
  set (Sp := zsum (flatten y_pred)) in *.
  rewrite (Z.mod_small I), (Z.mod_small St), (Z.mod_small Sp) by lia.
  rewrite (Z.mod_small (St + Sp)) by lia. reflexivity.
Qed.

Section DiceFacts.
Context {R : Rounding} (L : RoundingLaws R).

(** C6.  On 0/1 arrays of one shape the script's Dice score is
    [2 * intersection / (sum(y_true) + sum(y_pred) + 1e-6)], the counts
    taken over the whole flattened batch and free of any wrap-around, and
    the value lies in [0, 1].  The bound on the size (2^52 entries, beyond
    any array that fits in memory) keeps every count an exact float64
    integer. *)
Theorem dice_score_unit_interval (y_true y_pred : batch Z) :
  same_shape y_true y_pred ->
  binary (flatten y_true) -> binary (flatten y_pred) ->
  (Z.of_nat (length (flatten y_true)) <= 2 ^ 52)%Z ->
  dice_score y_true y_pred
  = fdiv (fmul 2 (of_int (zsum (zip_with Z.mul (flatten y_true)
                                               (flatten y_pred)))))
         (fadd (of_int (zsum (flatten y_true) + zsum (flatten y_pred))) eps)
  /\ 0 <= dice_score y_true y_pred <= 1.
Proof.
  intros Hshape Ht Hp Hlen.
  pose proof (dice_score_counts Hshape Ht Hp Hlen) as E.
  split; [exact E|]. rewrite E.
  destruct (flatten_bmap2 uint8_mul Hshape) as [_ Elen].
  destruct (intersection_bounds Ht Hp) as [_ [[I0 I1] I2]].
  pose proof (zsum_binary_bounds Ht) as Bt.
  pose proof (zsum_binary_bounds Hp) as Bp.
  rewrite <- Elen in Bp.
  set (I := zsum (zip_with Z.mul (flatten y_true) (flatten y_pred))) in *.
  set (St := zsum (flatten y_true)) in *.
  set (Sp := zsum (flatten y_pred)) in *.
  assert (P52 : (2 ^ 52 = 4503599627370496)%Z) by reflexivity.
  assert (P53 : (2 ^ 53 = 9007199254740992)%Z) by reflexivity.
  assert (HI : of_int I == inject_Z I) by (apply of_int_exact; [exact L | lia]).
  assert (HS : of_int (St + Sp) == inject_Z (St + Sp))
    by (apply of_int_exact; [exact L | lia]).
  assert (Hnum : fmul 2 (of_int I) == inject_Z (2 * I)).
  { unfold fmul. rewrite <- (fl_int (2 * I)) by lia.
    apply fl_eq; [exact L|]. rewrite HI, inject_Z_mult. reflexivity. }
  assert (Hden : inject_Z (St + Sp) <= fadd (of_int (St + Sp)) eps).
  { unfold fadd. rewrite <- (fl_int (St + Sp)) at 1 by lia.
    apply fl_mono. rewrite HS. pose proof (eps_pos L). lra. }
  assert (Hpos : 0 < fadd (of_int (St + Sp)) eps).
  { apply fadd_eps_pos; [exact L|]. rewrite HS.
    change 0 with (inject_Z 0). rewrite <- Zle_Qle. lia. }
  apply fdiv_unit; [exact L | | | exact Hpos].
  - rewrite Hnum. change 0 with (inject_Z 0). rewrite <- Zle_Qle. lia.
  - rewrite Hnum. apply Qle_trans with (inject_Z (St + Sp)); [|exact Hden].
    rewrite <- Zle_Qle. lia.
Qed.
End DiceFacts.

Lemma dice_score_unit_interval_witness :
  0 <= @dice_score exact [[[0; 1]; [1; 1]]]%Z [[[1; 1]; [0; 1]]]%Z <= 1.
Proof.
  destruct (@dice_score_unit_interval exact exact_laws
              [[[0; 1]; [1; 1]]]%Z [[[1; 1]; [0; 1]]]%Z) as [_ H].
  - repeat constructor.
  - repeat constructor; (now left) || (now right).
  - repeat constructor; (now left) || (now right).
  - vm_compute. discriminate.
  - exact H.
Defined.

(** In exact arithmetic the score is the formula as it reads. *)
Lemma dice_score_exact_formula (y_true y_pred : batch Z) :
  same_shape y_true y_pred ->
  binary (flatten y_true) -> binary (flatten y_pred) ->
  (Z.of_nat (length (flatten y_true)) <= 2 ^ 52)%Z ->
  @dice_score exact y_true y_pred
  == dice_formula (flatten y_true) (flatten y_pred).
Proof.
  intros Hs Ht Hp Hlen.
  rewrite (dice_score_counts Hs Ht Hp Hlen).
  unfold dice_formula, fdiv, fmul, fadd, of_int, eps. simpl fl.
  rewrite inject_Z_plus. reflexivity.
Qed.

(* ------------------------------------------------------------------ *)
(** ** Confusion matrix *)

Lemma unique_labels_binary (y_true y_pred : list Z) :
  binary y_true -> binary y_pred ->
  unique_labels y_true y_pred
  = labels_of_flags (has_label 0 (y_true ++ y_pred))
                    (has_label 1 (y_true ++ y_pred)).
Proof.
  intros Ht Hp. unfold unique_labels.
  assert (Hb : binary (y_true ++ y_pred)) by (apply Forall_app; now split).
  induction Hb as [|x l Hx _ IH]; [reflexivity|].
  simpl. rewrite IH.
  destruct Hx; subst; simpl;
    destruct (has_label 0 l), (has_label 1 l); reflexivity.
Qed.

Lemma count_pairs_cons (t p a b : Z) (yt yp : list Z) :
  count_pairs t p (a :: yt) (b :: yp)
  = ((if ((a =? t) && (b =? p))%Z then 1 else 0) + count_pairs t p yt yp)%Z.
Proof. reflexivity. Qed.

Lemma count_pairs_bounds (t p : Z) (yt yp : list Z) :
  (0 <= count_pairs t p yt yp <= Z.of_nat (length yt))%Z.
Proof.
  revert yp. induction yt as [|a yt IH]; intros [|b yp];
    try (unfold count_pairs; simpl; lia).
  rewrite count_pairs_cons. specialize (IH yp).
  change (length (a :: yt)) with (S (length yt)).
  destruct ((a =? t) && (b =? p))%Z; lia.
Qed.

Lemma count_pairs_total (yt yp : list Z) :
  binary yt -> binary yp -> length yt = length yp ->
  (count_pairs 0 0 yt yp + count_pairs 0 1 yt yp
   + count_pairs 1 0 yt yp + count_pairs 1 1 yt yp
   = Z.of_nat (length yt))%Z.
Proof.
  intro Ht. revert yp.
  induction Ht as [|a yt Ha _ IH]; intros yp Hp Hlen.
  - reflexivity.
  - destruct Hp as [|b yp Hb Hp]; [discriminate|].
    rewrite !count_pairs_cons. injection Hlen as Hlen.
    specialize (IH yp Hp Hlen).
    change (length (a :: yt)) with (S (length yt)).
    rewrite Nat2Z.inj_succ.
    destruct Ha, Hb; subst; cbn -[Z.of_nat Z.add count_pairs]; lia.
Qed.

Lemma confusion_matrix_entries (yt yp : list Z) (x : Z) :
  In x (ravel (confusion_matrix yt yp)) ->
  (0 <= x <= Z.of_nat (length yt))%Z.
Proof.
  unfold ravel, confusion_matrix. intro H.
  apply in_concat in H. destruct H as [row [Hrow Hx]].
  apply in_map_iff in Hrow. destruct Hrow as [t [<- _]].
  apply in_map_iff in Hx. destruct Hx as [p [<- _]].
  apply count_pairs_bounds.
Qed.

(** When both labels occur the matrix is 2 x 2, the unpacking succeeds and
    the four counts add up to the number of pixels. *)
Lemma confusion_counts_two_labels (Y_test postprocessed : batch Z) :
  same_shape Y_test postprocessed ->
  binary (flatten Y_test) -> binary (flatten postprocessed) ->
  has_label 0 (flatten Y_test ++ flatten postprocessed) = true ->
  has_label 1 (flatten Y_test ++ flatten postprocessed) = true ->
  exists tn fp fn tp : Z,
    confusion_counts Y_test postprocessed = Ok (tn, fp, fn, tp)
    /\ (tp + fp + fn + tn = Z.of_nat (length (flatten Y_test)))%Z.
Proof.
  intros Hs Ht Hp H0 H1.
  destruct (flatten_bmap2 Z.mul Hs) as [_ Hlen].
  unfold confusion_counts, confusion_matrix.
  rewrite (unique_labels_binary Ht Hp), H0, H1.
  cbn [labels_of_flags app map ravel concat unpack4].
  do 4 eexists. split; [reflexivity|].
  pose proof (count_pairs_total Ht Hp Hlen). lia.
Qed.

(** When a single label occurs in truth and prediction together the matrix
    is 1 x 1 and the four-way unpacking raises. *)
Lemma confusion_counts_single_label (Y_test postprocessed : batch Z) (v : Z) :
  Forall (eq v) (flatten Y_test ++ flatten postprocessed) ->
  confusion_counts Y_test postprocessed = Raise ValueError.
Proof.
  intro H. unfold confusion_counts, confusion_matrix, unique_labels.
  set (l := flatten Y_test ++ flatten postprocessed) in *.
  assert (E : fold_right insert_label [] l = [] \/ fold_right insert_label [] l = [v]).
  { induction H as [|x l Hx _ IH]; [now left|]. subst x. simpl.
    destruct IH as [-> | ->]; simpl; [now right|].
    rewrite Z.ltb_irrefl, Z.eqb_refl. now right. }
  destruct E as [-> | ->]; reflexivity.
Qed.

(** C7.  The four counts add up to the number of pixels whenever they are
    obtained ([confusion_counts_two_labels]), but not every run obtains
    them: on a batch whose ground truth and post-processed prediction are
    both all zero the matrix has a single entry and the unpacking into
    [tn, fp, fn, tp] raises [ValueError]. *)
Theorem confusion_counts_all_zero_batch :
  forall n h w : nat,
    confusion_counts (repeat (repeat (repeat 0%Z w) h) n)
                     (repeat (repeat (repeat 0%Z w) h) n)
    = Raise ValueError.
Proof.
  intros n h w. apply confusion_counts_single_label with (v := 0%Z).
  assert (H : Forall (eq 0%Z) (flatten (repeat (repeat (repeat 0%Z w) h) n))).
  { unfold flatten, iflatten. apply Forall_concat.
    apply Forall_map. apply Forall_forall. intros img Himg.
    apply repeat_spec in Himg. subst img.
    apply Forall_concat. apply Forall_forall. intros row Hrow.
    apply repeat_spec in Hrow. subst row.
    apply Forall_forall. intros x Hx. apply repeat_spec in Hx. now subst. }
  apply Forall_app. now split.
Qed.

(* ------------------------------------------------------------------ *)
(** ** Clinical metrics *)

Lemma unpack4_in (l : list Z) (a b c d : Z) :
  unpack4 l = Ok (a, b, c, d) -> l = [a; b; c; d].
Proof.
  destruct l as [|x1 [|x2 [|x3 [|x4 [|x5 l]]]]]; simpl; try discriminate.
  intro H. now injection H as -> -> -> ->.
Qed.

Lemma int64_add_small (a b : Z) :
  (0 <= a <= 2 ^ 52)%Z -> (0 <= b <= 2 ^ 52)%Z -> int64_add a b = (a + b)%Z.
Proof.
  intros Ha Hb. unfold int64_add.
  assert (P52 : (2 ^ 52 = 4503599627370496)%Z) by reflexivity.
  assert (P63 : (2 ^ 63 = 9223372036854775808)%Z) by reflexivity.
  assert (P64 : (2 ^ 64 = 18446744073709551616)%Z) by reflexivity.
  rewrite Z.mod_small by lia. lia.
Qed.

Section ClinicalFacts.
Context {R : Rounding}.

Lemma true_divide_zero_sum (a b : Z) :
  (0 <= a)%Z -> (0 <= b)%Z -> (a + b = 0)%Z -> true_divide a (a + b) = NaN.
Proof.
  intros Ha Hb Hab. unfold true_divide.
  assert (a = 0)%Z by lia. subst a. rewrite Hab. reflexivity.
Qed.

(** C2, as the script behaves.  None of the three formulas has an epsilon
    or a zero guard, and none of them raises: once the four counts are
    obtained the metrics are computed, and a zero denominator comes with a
    zero numerator, for which the division yields NaN (sensitivity when
    TP + FN = 0, specificity when TN + FP = 0, precision when
    TP + FP = 0).  The bound on the size keeps the [int64] sums from
    wrapping. *)
Theorem clinical_metrics_zero_denominator
  (Y_test postprocessed : batch Z) (tn fp fn tp : Z) :
  confusion_counts Y_test postprocessed = Ok (tn, fp, fn, tp) ->
  (Z.of_nat (length (flatten Y_test)) <= 2 ^ 52)%Z ->
  clinical_metrics Y_test postprocessed
  = Ok (true_divide tp (tp + fn), true_divide tn (tn + fp),
        true_divide tp (tp + fp))
  /\ ((tp + fn = 0)%Z -> true_divide tp (tp + fn) = NaN)
  /\ ((tn + fp = 0)%Z -> true_divide tn (tn + fp) = NaN)
  /\ ((tp + fp = 0)%Z -> true_divide tp (tp + fp) = NaN).
Proof.
  intros Hc Hlen.
  assert (Hin : forall x, In x [tn; fp; fn; tp] ->
                          (0 <= x <= 2 ^ 52)%Z).
  { intros x Hx. unfold confusion_counts in Hc.
    apply unpack4_in in Hc. rewrite <- Hc in Hx.
    apply confusion_matrix_entries in Hx. lia. }
  assert (Htn := Hin tn (or_introl eq_refl)).
  assert (Hfp := Hin fp (or_intror (or_introl eq_refl))).
  assert (Hfn := Hin fn (or_intror (or_intror (or_introl eq_refl)))).
  assert (Htp := Hin tp (or_intror (or_intror (or_intror (or_introl eq_refl))))).
  repeat split.
  - unfold clinical_metrics. rewrite Hc. simpl.
    now rewrite !int64_add_small by assumption.
  - apply true_divide_zero_sum; lia.
  - apply true_divide_zero_sum; lia.
  - apply true_divide_zero_sum; lia.
Qed.
End ClinicalFacts.

Lemma clinical_metrics_zero_denominator_witness :
  @clinical_metrics exact [[[0; 0]]]%Z [[[0; 1]]]%Z
  = Ok (NaN, Finite (1 # 2), Finite 0).
Proof.
  destruct (@clinical_metrics_zero_denominator exact
              [[[0; 0]]]%Z [[[0; 1]]]%Z 1%Z 1%Z 0%Z 0%Z) as [E _].
  - reflexivity.
  - vm_compute. discriminate.
  - rewrite E. reflexivity.
Defined.

(* ------------------------------------------------------------------ *)
(** ** Threshold selection *)

Lemma in_insert_desc (x a : Q * Z) (l : list (Q * Z)) :
  In x (insert_desc a l) <-> x = a \/ In x l.
Proof.
  induction l as [|y ys IH]; simpl.
  - intuition.
  - destruct (Qle_bool (fst y) (fst a)); simpl; [intuition|].
    rewrite IH. intuition.
Qed.

Lemma in_sort_desc (x : Q * Z) (l : list (Q * Z)) :
  In x (sort_desc l) <-> In x l.
Proof.
  unfold sort_desc. induction l as [|a l IH]; simpl; [reflexivity|].
  rewrite in_insert_desc, IH. intuition.
Qed.

Lemma clf_curve_from_ok (l : list (Q * Z)) (tps n : Z) :
  (0 <= tps <= n)%Z ->
  Forall (point_ok (map fst l)) (clf_curve_from tps n l).
Proof.
  revert tps n. induction l as [|[s y] rest IH]; intros tps n Hn.
  - constructor.
  - set (tps' := (tps + (if (y =? 1)%Z then 1 else 0))%Z).
    assert (Hn' : (0 <= tps' <= n + 1)%Z)
      by (unfold tps'; destruct (y =? 1)%Z; lia).
    assert (Htail : Forall (point_ok (map fst ((s, y) :: rest)))
                           (clf_curve_from tps' (n + 1) rest)).
    { eapply Forall_impl; [|apply IH; exact Hn'].
      intros [[f t] s0] (H1 & H2 & H3 & H4). simpl. intuition. }
    assert (Hpt : point_ok (map fst ((s, y) :: rest))
                           ((n + 1 - tps')%Z, tps', s)).
    { simpl. repeat split; try lia. now left. }
    change (clf_curve_from tps n ((s, y) :: rest))
      with (match rest with
            | [] => [((n + 1 - tps')%Z, tps', s)]
            | (s', _) :: _ =>
                if Qeq_bool s s' then clf_curve_from tps' (n + 1) rest
                else ((n + 1 - tps')%Z, tps', s)
                       :: clf_curve_from tps' (n + 1) rest
            end).
    destruct rest as [|[s' y'] rest'].
    + constructor; [exact Hpt | constructor].
    + destruct (Qeq_bool s s'); [exact Htail|].
      constructor; assumption.
Qed.

Lemma clf_curve_from_nonempty (l : list (Q * Z)) (tps n : Z) :
  l <> [] -> clf_curve_from tps n l <> [].
Proof.
  revert tps n. induction l as [|[s y] rest IH]; intros tps n Hl.
  - congruence.
  - destruct rest as [|[s' y'] rest'].
    + simpl. discriminate.
    + change (clf_curve_from tps n ((s, y) :: (s', y') :: rest'))
        with (if Qeq_bool s s'
              then clf_curve_from (tps + (if (y =? 1)%Z then 1 else 0))%Z
                                  (n + 1)%Z ((s', y') :: rest')
              else ((n + 1 - (tps + (if (y =? 1)%Z then 1 else 0)))%Z,
                    (tps + (if (y =? 1)%Z then 1 else 0))%Z, s)
                     :: clf_curve_from (tps + (if (y =? 1)%Z then 1 else 0))%Z
                                  (n + 1)%Z ((s', y') :: rest')).
      destruct (Qeq_bool s s'); [|discriminate].
      apply IH. discriminate.
Qed.

Lemma binary_clf_curve_ok (y_true : list Z) (y_score : list Q) :
  Forall (point_ok y_score) (binary_clf_curve y_true y_score).
Proof.
  unfold binary_clf_curve.
  eapply Forall_impl; [|apply clf_curve_from_ok; lia].
  intros [[f t] s] (H1 & H2 & H3 & H4). repeat split; try assumption.
  apply in_map_iff in H4. destruct H4 as [[s0 y0] [E Hin]]. simpl in E. subst s0.
  apply (proj1 (in_sort_desc _ _)) in Hin. now apply in_combine_l in Hin.
Qed.

Lemma binary_clf_curve_nonempty (y_true : list Z) (y_score : list Q) :
  length y_true = length y_score -> y_score <> [] ->
  binary_clf_curve y_true y_score <> [].
Proof.
  intros Hlen Hne. unfold binary_clf_curve. apply clf_curve_from_nonempty.
  destruct y_score as [|s ss]; [congruence|].
  destruct y_true as [|y ys]; [discriminate|].
  intro H. assert (Hin : In (s, y) (sort_desc (combine (s :: ss) (y :: ys))))
    by (apply in_sort_desc; now left).
  rewrite H in Hin. exact Hin.
Qed.

Lemma last_Forall {A : Type} (P : A -> Prop) (l : list A) (d : A) :
  P d -> Forall P l -> P (last l d).
Proof.
  intros Hd Hl. induction Hl as [|x l Hx Hl IH]; [exact Hd|].
  destruct l as [|y l']; [exact Hx | exact IH].
Qed.

Lemma zip_with_length {A B C : Type} (f : A -> B -> C) (xs : list A)
  (ys : list B) :
  length xs = length ys -> length (zip_with f xs ys) = length xs.
Proof.
  revert ys. induction xs as [|x xs IH]; intros [|y ys] H;
    simpl in *; try discriminate; [reflexivity|].
  f_equal. apply IH. congruence.
Qed.

Lemma zip_with_Forall {A B C : Type} (f : A -> B -> C) (P : A -> Prop)
  (Q : B -> Prop) (S : C -> Prop) (xs : list A) (ys : list B) :
  (forall x y, P x -> Q y -> S (f x y)) ->
  Forall P xs -> Forall Q ys -> Forall S (zip_with f xs ys).
Proof.
  intros Hf Hxs. revert ys.
  induction Hxs as [|x xs Hx _ IH]; intros ys Hys; [constructor|].
  destruct Hys as [|y ys Hy Hys]; simpl; constructor; auto.
Qed.

(** [np.argmax] returns the first position of the maximum. *)
Lemma argmax_from_first_max (l pre : list Q) (best : Q) (bi : nat) :
  nth_error pre bi = Some best ->
  (forall j y, nth_error pre j = Some y -> y <= best) ->
  (forall j y, (j < bi)%nat -> nth_error pre j = Some y -> y < best) ->
  exists b,
    nth_error (pre ++ l) (argmax_from best bi (length pre) l) = Some b
    /\ (forall j y, nth_error (pre ++ l) j = Some y -> y <= b)
    /\ (forall j y, (j < argmax_from best bi (length pre) l)%nat ->
                    nth_error (pre ++ l) j = Some y -> y < b).
Proof.
  revert pre best bi.
  induction l as [|x xs IH]; intros pre best bi Hbi Hmax Hfirst.
  - simpl. rewrite app_nil_r. exists best. auto.
  - assert (Hlen : length (pre ++ [x]) = S (length pre))
      by (rewrite length_app; simpl; lia).
    assert (Hx : nth_error (pre ++ [x]) (length pre) = Some x)
      by (rewrite nth_error_app2, Nat.sub_diag by lia; reflexivity).
    assert (Hsplit : forall j y, nth_error (pre ++ [x]) j = Some y ->
                                 nth_error pre j = Some y
                                 \/ (j = length pre /\ y = x)).
    { intros j y Hj. destruct (Nat.lt_ge_cases j (length pre)) as [Hlt|Hge].
      - left. now rewrite nth_error_app1 in Hj.
      - right. rewrite nth_error_app2 in Hj by exact Hge.
        destruct (j - length pre)%nat as [|k] eqn:Ek; simpl in Hj.
        + split; [lia | congruence].
        + now destruct k. }
    simpl. replace (pre ++ x :: xs) with ((pre ++ [x]) ++ xs)
      by (rewrite <- app_assoc; reflexivity).
    rewrite <- Hlen.
    destruct (Qgtb x best) eqn:Hgt.
    + apply Qgtb_true in Hgt.
      apply IH.
      * exact Hx.
      * intros j y Hj. destruct (Hsplit j y Hj) as [Hp | [_ ->]].
        -- apply Qle_trans with best; [eapply Hmax; eauto|].
           now apply Qlt_le_weak.
        -- apply Qle_refl.
      * intros j y Hlt Hj. destruct (Hsplit j y Hj) as [Hp | [-> _]]; [|lia].
        apply Qle_lt_trans with best; [eapply Hmax; eauto | exact Hgt].
    + apply Qgtb_false in Hgt.
      apply IH.
      * rewrite nth_error_app1; [exact Hbi|].
        apply nth_error_Some. congruence.
      * intros j y Hj. destruct (Hsplit j y Hj) as [Hp | [_ ->]].
        -- eapply Hmax; eauto.
        -- exact Hgt.
      * intros j y Hlt Hj. destruct (Hsplit j y Hj) as [Hp | [-> _]].
        -- eapply Hfirst; eauto.
        -- exfalso. assert (bi < length pre)%nat
             by (apply nth_error_Some; congruence). lia.
Qed.

Lemma argmax_first_max (l : list Q) :
  l <> [] ->
  exists idx b,
    argmax l = Ok idx
    /\ nth_error l idx = Some b
    /\ (forall j y, nth_error l j = Some y -> y <= b)
    /\ (forall j y, (j < idx)%nat -> nth_error l j = Some y -> y < b).
Proof.
  destruct l as [|x xs]; [congruence|]. intros _.
  destruct (@argmax_from_first_max xs [x] x 0%nat) as [b Hb].
  - reflexivity.
  - intros [|[|j]] y Hj; simpl in Hj; try discriminate.
    injection Hj as <-. apply Qle_refl.
  - intros j y Hlt. lia.
  - exists (argmax_from x 0%nat 1%nat xs), b. split; [reflexivity|].
    exact Hb.
Qed.

Section ThresholdFacts.
Context {R : Rounding} (L : RoundingLaws R).

Lemma of_int_ge_1 (n : Z) : (1 <= n)%Z -> 1 <= of_int n.
Proof.
  intro H. unfold of_int. rewrite <- (fl_1 L).
  apply fl_mono. change 1 with (inject_Z 1). now rewrite <- Zle_Qle.
Qed.

Lemma of_int_nonneg (n : Z) : (0 <= n)%Z -> 0 <= of_int n.
Proof.
  intro H. unfold of_int. apply (fl_nonneg L).
  change 0 with (inject_Z 0). now rewrite <- Zle_Qle.
Qed.

Lemma curve_precision_nonneg (scores : list Q) (pt : Z * Z * Q) :
  point_ok scores pt -> 0 <= curve_precision pt.
Proof.
  destruct pt as [[fps tps] s]. intros (Ht & Hf & Hps & _).
  unfold curve_precision.
  destruct (tps + fps =? 0)%Z; [apply Qle_refl|].
  apply (fdiv_nonneg L); [now apply of_int_nonneg|].
  apply Qlt_le_trans with 1; [reflexivity | now apply of_int_ge_1].
Qed.

Lemma curve_recall_nonneg (scores : list Q) (total : Z) (pt : Z * Z * Q) :
  (0 <= total)%Z -> point_ok scores pt -> 0 <= curve_recall total pt.
Proof.
  destruct pt as [[fps tps] s]. intros Htot (Ht & _).
  unfold curve_recall.
  destruct (total =? 0)%Z eqn:E; [discriminate|].
  apply Z.eqb_neq in E.
  apply (fdiv_nonneg L); [now apply of_int_nonneg|].
  apply Qlt_le_trans with 1; [reflexivity | apply of_int_ge_1; lia].
Qed.

Lemma f1_point_nonneg (p r : Q) : 0 <= p -> 0 <= r -> 0 <= f1_point p r.
Proof.
  intros Hp Hr. unfold f1_point. apply (fdiv_nonneg L).
  - unfold fmul. apply (fl_nonneg L).
    apply Qmult_le_0_compat; [discriminate|].
    apply (fl_nonneg L). now apply Qmult_le_0_compat.
  - apply (fadd_eps_pos L). unfold fadd. apply (fl_nonneg L). lra.
Qed.

Lemma fl_eq_0 (x : Q) : x == 0 -> fl x == 0.
Proof.
  intro H. apply Qeq_trans with (fl 0); [now apply (fl_eq L) | apply (fl_0 L)].
Qed.

(** The closing point of the sweep, precision 1 and recall 0, has F1 0. *)
Lemma f1_point_last : f1_point 1 0 == 0.
Proof.
  unfold f1_point, fdiv, fmul.
  apply fl_eq_0.
  assert (E1 : fl (1 * 0) == 0) by (apply fl_eq_0; reflexivity).
  assert (E2 : fl (2 * fl (1 * 0)) == 0).
  { apply fl_eq_0. rewrite E1. reflexivity. }
  rewrite E2. unfold Qdiv. apply Qmult_0_l.
Qed.
End ThresholdFacts.

Lemma nth_error_zip_with {A B C : Type} (f : A -> B -> C) (xs : list A)
  (ys : list B) (j : nat) :
  nth_error (zip_with f xs ys) j
  = match nth_error xs j, nth_error ys j with
    | Some x, Some y => Some (f x y)
    | _, _ => None
    end.
Proof.
  revert ys j. induction xs as [|x xs IH]; intros [|y ys] [|j]; simpl;
    try reflexivity.
  - now destruct (nth_error xs j).
  - apply IH.
Qed.

Section ThresholdTheorem.
Context {R : Rounding} (L : RoundingLaws R).

(** C1.  On a non-empty batch with probabilities in [0, 1] the threshold
    selection returns a value.  With [precisions], [recalls] and
    [thresholds] the three arrays of the precision-recall sweep, it is
    [thresholds[idx]] for the index [idx] that the selection computes; it is
    one of the predicted probabilities and lies in [0, 1].  The index is
    that of the first maximum of F1 = 2 * (P * R) / (P + R + 1e-6), computed
    in floating point on the precision and recall of the sweep: no point has
    a larger F1 than the point [idx], and every earlier point has a
    strictly smaller one. *)
Theorem optimal_threshold_first_max (Y_test : batch Z) (raw_preds : batch Q) :
  same_shape Y_test raw_preds ->
  flatten raw_preds <> [] ->
  Forall (fun p => 0 <= p <= 1) (flatten raw_preds) ->
  let F1 := fun p r : Q =>
              fl (fl (2 * fl (p * r)) / fl (fl (p + r) + fl (1 # 1000000))) in
  exists (precisions recalls thresholds : list Q) (idx : nat) (t p r : Q),
    precision_recall_curve (flatten Y_test) (flatten raw_preds)
    = (precisions, recalls, thresholds)
    /\ optimal_idx Y_test raw_preds = Ok idx
    /\ optimal_threshold Y_test raw_preds = Ok t
    /\ nth_error thresholds idx = Some t
    /\ In t (flatten raw_preds)
    /\ 0 <= t <= 1
    /\ nth_error precisions idx = Some p
    /\ nth_error recalls idx = Some r
    /\ (forall j pj rj,
           nth_error precisions j = Some pj ->
           nth_error recalls j = Some rj ->
           F1 pj rj <= F1 p r)
    /\ (forall j pj rj,
           (j < idx)%nat ->
           nth_error precisions j = Some pj ->
           nth_error recalls j = Some rj ->
           F1 pj rj < F1 p r).
Proof.
  intros Hshape Hne Hrange F1.
  assert (HF1 : forall p r, f1_point p r = F1 p r) by reflexivity.
  destruct (flatten_bmap2 (fun (_ : Z) (_ : Q) => tt) Hshape) as [_ Hlen].
  unfold optimal_idx, optimal_threshold, precision_recall_curve.
  pose proof (binary_clf_curve_ok (flatten Y_test) (flatten raw_preds)) as Hok.
  pose proof (@binary_clf_curve_nonempty _ _ Hlen Hne) as Hcne.
  set (curve := binary_clf_curve (flatten Y_test) (flatten raw_preds)) in *.
  set (total := last (map (fun pt => snd (fst pt)) curve) 0%Z).
  cbv zeta beta iota.
  set (P := rev (map curve_precision curve)).
  set (Rc := rev (map (curve_recall total) curve)).
  set (T := rev (map snd curve)).
  assert (HlP : length P = length curve)
    by (unfold P; now rewrite length_rev, length_map).
  assert (HlR : length Rc = length curve)
    by (unfold Rc; now rewrite length_rev, length_map).
  assert (HlT : length T = length curve)
    by (unfold T; now rewrite length_rev, length_map).
  assert (Htot : (0 <= total)%Z).
  { unfold total. apply last_Forall with (P := fun z => (0 <= z)%Z); [lia|].
    apply Forall_map. eapply Forall_impl; [|exact Hok].
    intros [[f tp] s] (H1 & _). exact H1. }
  assert (HP : Forall (fun q => 0 <= q) P).
  { unfold P. apply Forall_rev, Forall_map.
    eapply Forall_impl; [|exact Hok]. intros pt. apply (curve_precision_nonneg L). }
  assert (HR : Forall (fun q => 0 <= q) Rc).
  { unfold Rc. apply Forall_rev, Forall_map.
    eapply Forall_impl; [|exact Hok]. intros pt.
    now apply (curve_recall_nonneg L). }
  assert (HF : f1_curve (P ++ [1]) (Rc ++ [0])
               = zip_with f1_point P Rc ++ [f1_point 1 0]).
  { unfold f1_curve. rewrite zip_with_app by congruence. reflexivity. }
  assert (Hcpos : (0 < length curve)%nat).
  { destruct curve; [congruence | simpl; lia]. }
  destruct (@argmax_first_max (f1_curve (P ++ [1]) (Rc ++ [0])))
    as (idx & b & Hidx & Hb & Hmax & Hfirst).
  { rewrite HF. destruct (zip_with f1_point P Rc); discriminate. }
  assert (HA : Forall (fun q => 0 <= q) (zip_with f1_point P Rc)).
  { eapply zip_with_Forall; [|exact HP|exact HR].
    intros x y Hx Hy. now apply (f1_point_nonneg L). }
  assert (HlA : length (zip_with f1_point P Rc) = length curve).
  { rewrite zip_with_length; congruence. }
  assert (Hlt : (idx < length curve)%nat).
  { assert (Hbound : (idx < length (f1_curve (P ++ [1%Q]) (Rc ++ [0%Q])))%nat)
      by (apply nth_error_Some; congruence).
    rewrite HF, length_app, HlA in Hbound. simpl in Hbound.
    destruct (Nat.eq_dec idx (length curve)) as [E|E]; [|lia].
    exfalso. rewrite HF in Hb, Hfirst.
    assert (Hz : b = f1_point 1 0).
    { rewrite nth_error_app2 in Hb by lia.
      rewrite E, HlA, Nat.sub_diag in Hb. simpl in Hb. congruence. }
    destruct (zip_with f1_point P Rc) as [|a0 A']; [simpl in HlA; lia|].
    assert (Ha0 : a0 < b) by (apply (Hfirst 0%nat); [lia | reflexivity]).
    inversion HA; subst.
    rewrite (f1_point_last L) in Ha0.
    apply (Qlt_irrefl 0). eapply Qle_lt_trans; eassumption. }
  destruct (nth_error T idx) as [t|] eqn:Ht;
    [|apply nth_error_None in Ht; lia].
  assert (Hin : In t (flatten raw_preds)).
  { apply nth_error_In in Ht. unfold T in Ht.
    apply in_rev in Ht. apply in_map_iff in Ht.
    destruct Ht as [[[f tp] s] [E Hpt]]. simpl in E. subst s.
    rewrite Forall_forall in Hok. apply Hok in Hpt.
    now destruct Hpt as (_ & _ & _ & Hs). }
  unfold f1_curve in Hb, Hmax, Hfirst.
  rewrite nth_error_zip_with in Hb.
  destruct (nth_error (P ++ [1]) idx) as [p|] eqn:Hp; [|discriminate].
  destruct (nth_error (Rc ++ [0]) idx) as [r|] eqn:Hr; [|discriminate].
  injection Hb as <-.
  exists (P ++ [1]), (Rc ++ [0]), T, idx, t, p, r.
  rewrite Hidx. cbn [bind]. unfold getitem. rewrite Ht.
  split; [reflexivity|]. split; [reflexivity|]. split; [reflexivity|].
  split; [reflexivity|]. split; [exact Hin|].
  split; [rewrite Forall_forall in Hrange; now apply Hrange|].
  split; [exact Hp|]. split; [exact Hr|].
  split.
  - intros j pj rj Hpj Hrj. rewrite <- !HF1. apply (Hmax j).
    now rewrite nth_error_zip_with, Hpj, Hrj.
  - intros j pj rj Hj Hpj Hrj. rewrite <- !HF1. apply (Hfirst j); [exact Hj|].
    now rewrite nth_error_zip_with, Hpj, Hrj.
Qed.
End ThresholdTheorem.

Lemma optimal_threshold_first_max_witness :
  let F1 := fun p r : Q => 2 * (p * r) / (p + r + (1 # 1000000)) in
  exists (precisions recalls thresholds : list Q) (idx : nat) (t p r : Q),
    @precision_recall_curve exact (flatten example_masks)
       (flatten example_probs)
    = (precisions, recalls, thresholds)
    /\ @optimal_idx exact example_masks example_probs = Ok idx
    /\ @optimal_threshold exact example_masks example_probs = Ok t
    /\ nth_error thresholds idx = Some t
    /\ In t (flatten example_probs)
    /\ 0 <= t <= 1
    /\ nth_error precisions idx = Some p
    /\ nth_error recalls idx = Some r
    /\ (forall j pj rj,
           nth_error precisions j = Some pj ->
           nth_error recalls j = Some rj ->
           F1 pj rj <= F1 p r)
    /\ (forall j pj rj,
           (j < idx)%nat ->
           nth_error precisions j = Some pj ->
           nth_error recalls j = Some rj ->
           F1 pj rj < F1 p r).
Proof.
  apply (@optimal_threshold_first_max exact exact_laws
           example_masks example_probs).
  - repeat constructor.
  - discriminate.
  - repeat constructor; unfold Qle; simpl; lia.
Defined.

(** On the example batch the sweep has thresholds 0.1, 0.4, 0.8 and F1 is
    largest at 0.4. *)
Example optimal_threshold_example :
  @sweep_thresholds exact example_masks example_probs = [1 # 10; 4 # 10; 8 # 10]
  /\ @optimal_threshold exact example_masks example_probs = Ok (4 # 10).
Proof. split; reflexivity. Qed.

(** A tie: thresholds 0.2 (precision 1/2, recall 1) and 0.9 (precision 1,
    recall 1/2) have the same F1, and the first, 0.2, is returned. *)
Example optimal_threshold_tie :
  @sweep_thresholds exact tie_masks tie_probs = [2 # 10; 9 # 10]
  /\ (exists f1 f2 f3, @sweep_f1 exact tie_masks tie_probs = [f1; f2; f3]
                        /\ f1 == f2 /\ f3 < f1)
  /\ @optimal_threshold exact tie_masks tie_probs = Ok (2 # 10).
Proof.
  split; [reflexivity|]. split; [|reflexivity].
  do 3 eexists. split; [vm_compute; reflexivity|].
  split; reflexivity.
Qed.

(* ------------------------------------------------------------------ *)
(** ** Post-processing *)

Lemma zip_with_map_r {A B C : Type} (f : A -> B -> C) (g : A -> B)
  (l : list A) :
  zip_with f l (map g l) = map (fun x => f x (g x)) l.
Proof. induction l as [|x l IH]; simpl; [reflexivity | now rewrite IH]. Qed.

Lemma imap2_imap_r {A B C : Type} (f : A -> B -> C) (g : A -> B)
  (m : image A) :
  imap2 f m (imap g m) = imap (fun x => f x (g x)) m.
Proof.
  unfold imap2, imap. induction m as [|row m IH]; simpl; [reflexivity|].
  now rewrite zip_with_map_r, IH.
Qed.

Lemma imap_ext_in {A B : Type} (f g : A -> B) (m : image A) :
  (forall x, In x (iflatten m) -> f x = g x) -> imap f m = imap g m.
Proof.
  unfold imap, iflatten. intro H. apply map_ext_in. intros row Hrow.
  apply map_ext_in. intros x Hx. apply H. apply in_concat. eauto.
Qed.

Lemma forallb2_Forall2 {A B : Type} (f : A -> B -> bool) (xs : list A)
  (ys : list B) :
  forallb2 f xs ys = true -> Forall2 (fun x y => f x y = true) xs ys.
Proof.
  revert ys. induction xs as [|x xs IH]; intros [|y ys] H;
    simpl in H; try discriminate; constructor.
  - now apply andb_prop in H.
  - apply IH. now apply andb_prop in H.
Qed.

Lemma imap_const_shape {A B C : Type} (P : A -> B -> Prop) (c : C)
  (a : image A) (b : image B) :
  Forall2 (Forall2 P) a b -> imap (fun _ => c) a = imap (fun _ => c) b.
Proof.
  unfold imap. induction 1 as [|r s a b Hrs _ IH]; simpl; [reflexivity|].
  f_equal; [|exact IH].
  induction Hrs as [|x y r s _ _ IHr]; simpl; [reflexivity | now rewrite IHr].
Qed.

(** Loop invariant of the size filter. *)
Lemma filter_loop (sizes : list Z) (labels : image Z) (k : nat) :
  (k <= length sizes)%nat ->
  fold_left (filter_step sizes labels) (seq 0 k) (Ok (zeros_like labels))
  = Ok (imap (written sizes k) labels).
Proof.
  induction k as [|k IH]; intro Hk.
  - reflexivity.
  - rewrite seq_S, fold_left_app, IH by lia. simpl.
    unfold getitem.
    destruct (nth_error sizes k) as [size|] eqn:Es;
      [|apply nth_error_None in Es; lia].
    simpl.
    assert (Hsize : nth k sizes 0%Z = size)
      by (now apply nth_error_nth).
    destruct (100 <=? size)%Z eqn:Hbig; f_equal.
    + unfold assign_where. rewrite imap2_imap_r.
      apply imap_ext_in. intros lab _.
      unfold written. rewrite seq_S, existsb_app. simpl.
      rewrite Hsize, Hbig, orb_false_r, andb_true_r.
      destruct (lab =? Z.of_nat k + 1)%Z; [now rewrite orb_true_r|].
      now rewrite orb_false_r.
    + apply imap_ext_in. intros lab _.
      unfold written. rewrite seq_S, existsb_app. simpl.
      now rewrite Hsize, Hbig, andb_false_r, !orb_false_r.
Qed.

Lemma pixel_ok_label_ok (n v lab : Z) :
  pixel_ok n v lab = true -> label_ok n v lab.
Proof.
  unfold pixel_ok, label_ok. intro H.
  apply andb_prop in H. destruct H as [H H3].
  apply andb_prop in H. destruct H as [H1 H2].
  apply Bool.eqb_prop in H1. apply Z.leb_le in H2. apply Z.ltb_lt in H3.
  split; [|lia]. rewrite <- !Z.eqb_eq. now rewrite H1.
Qed.

Lemma in_combine_seq {A : Type} (l : list A) (start i : nat) (x : A) :
  nth_error l i = Some x ->
  In ((start + i)%nat, x) (combine (seq start (length l)) l).
Proof.
  revert start i. induction l as [|y l IH]; intros start [|i] H;
    simpl in H; try discriminate.
  - injection H as ->. rewrite Nat.add_0_r. now left.
  - right. replace (start + S i)%nat with (S start + i)%nat by lia.
    now apply IH.
Qed.

Lemma cc_contract_view (img : image Z) (n : Z) (labels : image Z)
  (stats : list (list Z)) :
  cc_contract img (n, labels, stats) = true ->
  (1 <= n)%Z
  /\ Forall2 (Forall2 (label_ok n)) img labels
  /\ Z.of_nat (length stats) = n
  /\ (forall l row, nth_error stats l = Some row ->
                    last row 0%Z = count_label (Z.of_nat l) labels).
Proof.
  unfold cc_contract. intro H.
  apply andb_prop in H. destruct H as [H H4].
  apply andb_prop in H. destruct H as [H H3].
  apply andb_prop in H. destruct H as [H1 H2].
  apply Z.leb_le in H1. apply Z.eqb_eq in H3.
  repeat split; try assumption.
  - apply forallb2_Forall2 in H2.
    eapply Forall2_impl; [|exact H2]. intros r s Hrs.
    apply forallb2_Forall2 in Hrs.
    eapply Forall2_impl; [|exact Hrs]. intros v lab. apply pixel_ok_label_ok.
  - intros l row Hl.
    rewrite forallb_forall in H4.
    specialize (H4 _ (in_combine_seq stats 0 l Hl)). simpl in H4.
    apply andb_prop in H4. destruct H4 as [_ H4]. now apply Z.eqb_eq in H4.
Qed.

Lemma labels_in_range (n : Z) (img labels : image Z) (lab : Z) :
  Forall2 (Forall2 (label_ok n)) img labels ->
  In lab (iflatten labels) -> (0 <= lab < n)%Z.
Proof.
  unfold iflatten. intros H Hin.
  apply in_concat in Hin. destruct Hin as [row [Hrow Hlab]].
  induction H as [|r s img' labels' Hrs _ IH]; [contradiction|].
  destruct Hrow as [<- | Hrow]; [|now apply IH].
  clear IH. induction Hrs as [|v l r' s' Hvl _ IH]; [contradiction|].
  destruct Hlab as [<- | Hlab]; [apply Hvl | now apply IH].
Qed.

Lemma background_only (img labels : image Z) :
  Forall2 (Forall2 (label_ok 1)) img labels ->
  img = imap (fun _ => 0%Z) labels.
Proof.
  unfold imap. induction 1 as [|r s img' labels' Hrs _ IH]; [reflexivity|].
  simpl. f_equal; [|exact IH].
  induction Hrs as [|v l r' s' [Hz Hr] _ IHr]; [reflexivity|].
  simpl. f_equal; [|exact IHr]. apply Hz. lia.
Qed.

Lemma area_column_nth (stats : list (list Z)) (labels : image Z) (i : nat) :
  (forall l row, nth_error stats l = Some row ->
                 last row 0%Z = count_label (Z.of_nat l) labels) ->
  (S i < length stats)%nat ->
  nth i (area_column stats) 0%Z = count_label (Z.of_nat i + 1) labels.
Proof.
  intros Hstats Hi. unfold area_column.
  destruct (nth_error stats (S i)) as [row|] eqn:E;
    [|apply nth_error_None in E; lia].
  assert (E' : nth_error (map (fun row => last row 0%Z) (tl stats)) i
               = Some (last row 0%Z)).
  { rewrite nth_error_map. destruct stats as [|r0 stats']; [discriminate|].
    simpl in *. now rewrite E. }
  rewrite (nth_error_nth _ _ 0%Z E'). rewrite (Hstats _ _ E).
  f_equal. lia.
Qed.

Lemma area_column_length (stats : list (list Z)) :
  length (area_column stats) = (length stats - 1)%nat.
Proof.
  unfold area_column. rewrite length_map. destruct stats; simpl; lia.
Qed.

(** After the whole loop a pixel is 1 exactly when its component is a
    foreground component of at least 100 pixels. *)
Lemma written_retained (n : Z) (labels : image Z) (stats : list (list Z))
  (lab : Z) :
  Z.of_nat (length stats) = n ->
  (forall l row, nth_error stats l = Some row ->
                 last row 0%Z = count_label (Z.of_nat l) labels) ->
  (0 <= lab < n)%Z ->
  written (area_column stats) (Z.to_nat (n - 1)) lab = retained labels lab.
Proof.
  intros Hn Hstats Hlab. unfold written, retained.
  set (f := fun i : nat =>
              ((lab =? Z.of_nat i + 1) && (100 <=? nth i (area_column stats) 0))%Z).
  destruct (existsb f (seq 0 (Z.to_nat (n - 1)))) eqn:Ex.
  - apply existsb_exists in Ex. destruct Ex as [i [Hi Hf]].
    apply in_seq in Hi. unfold f in Hf.
    apply andb_prop in Hf. destruct Hf as [Hl Hs].
    apply Z.eqb_eq in Hl.
    rewrite (@area_column_nth stats labels i Hstats) in Hs by lia.
    rewrite <- Hl in Hs. rewrite Hs.
    assert (H1 : (1 <=? lab)%Z = true) by (apply Z.leb_le; lia).
    now rewrite H1.
  - destruct ((1 <=? lab) && (100 <=? count_label lab labels))%Z eqn:Hk;
      [|reflexivity].
    exfalso. apply andb_prop in Hk. destruct Hk as [H1 H2].
    apply Z.leb_le in H1.
    assert (Hex : existsb f (seq 0 (Z.to_nat (n - 1))) = true).
    { apply existsb_exists. exists (Z.to_nat (lab - 1)). split.
      - apply in_seq. lia.
      - unfold f.
        rewrite (@area_column_nth stats labels (Z.to_nat (lab - 1)) Hstats) by lia.
        replace (Z.of_nat (Z.to_nat (lab - 1)) + 1)%Z with lab by lia.
        now rewrite Z.eqb_refl, H2. }
    congruence.
Qed.

Section PostprocessFacts.
Context {cv : Cv2}.

(** The post-processed mask, pixel by pixel. *)
Lemma postprocess_spec (mask : image Z) :
  cc_contract (closed_mask mask) (labelling mask) = true ->
  postprocess mask
  = Ok (imap (retained (labels_of mask)) (labels_of mask)).
Proof.
  unfold postprocess, labels_of, labelling, closed_mask.
  set (processed := morphologyEx mask MORPH_CLOSE kernel).
  destruct (connectedComponentsWithStats processed) as [[n labels] stats].
  intro Hc. apply cc_contract_view in Hc.
  destruct Hc as (Hn & Hlab & Hlen & Hstats). simpl.
  destruct (1 <? n)%Z eqn:Hgt.
  - apply Z.ltb_lt in Hgt.
    unfold zeros_like. rewrite (imap_const_shape 0%Z Hlab).
    fold (zeros_like labels). rewrite filter_loop
      by (rewrite area_column_length; lia).
    f_equal. apply imap_ext_in. intros lab Hin.
    apply written_retained; try assumption.
    eapply labels_in_range; eassumption.
  - apply Z.ltb_ge in Hgt. assert (E1 : n = 1%Z) by lia.
    rewrite E1 in Hlab.
    f_equal. rewrite (background_only Hlab).
    apply imap_ext_in. intros lab Hin.
    assert (0 <= lab < 1)%Z by (eapply labels_in_range; eassumption).
    assert (lab = 0%Z) by lia. subst lab. reflexivity.
Qed.
End PostprocessFacts.

Lemma binary_foreground (n : Z) (img labels : image Z) :
  Forall2 (Forall2 (label_ok n)) img labels ->
  binary_img img ->
  img = imap (fun lab => if (lab =? 0)%Z then 0%Z else 1%Z) labels.
Proof.
  unfold binary_img, binary, iflatten, imap.
  induction 1 as [|r s img' labels' Hrs _ IH]; [reflexivity|].
  simpl. intro Hb. apply Forall_app in Hb. destruct Hb as [Hr Himg].
  f_equal; [|now apply IH].
  clear IH Himg. induction Hrs as [|v l r' s' [Hz _] _ IHr]; [reflexivity|].
  inversion Hr as [|? ? Hv Hr']; subst. simpl. f_equal; [|now apply IHr].
  destruct (l =? 0)%Z eqn:El.
  - apply Z.eqb_eq in El. now apply Hz.
  - apply Z.eqb_neq in El. destruct Hv as [Hv|Hv]; [|exact Hv].
    exfalso. apply El. now apply Hz.
Qed.

Lemma pixel_in {A : Type} (img : image A) (r c : nat) (v : A) :
  pixel img r c = Some v -> In v (iflatten img).
Proof.
  unfold pixel, iflatten. destruct (nth_error img r) as [row|] eqn:E;
    [|discriminate].
  intro H. apply in_concat. exists row. split; eapply nth_error_In; eassumption.
Qed.

(** The filtered mask has the shape of the image that was labelled. *)
Lemma retained_shape {A : Type} (P : A -> Z -> Prop) (f : Z -> Z)
  (img : image A) (labels : image Z) :
  Forall2 (Forall2 P) img labels -> same_shape_img img (imap f labels).
Proof.
  unfold same_shape_img, imap.
  induction 1 as [|r s img' labels' Hrs _ IH]; simpl; constructor;
    [|exact IH].
  rewrite length_map. clear IH.
  induction Hrs as [|? ? ? ? _ _ IHr]; simpl; [reflexivity | now f_equal].
Qed.

Lemma iflatten_imap {A B : Type} (f : A -> B) (m : image A) :
  iflatten (imap f m) = map f (iflatten m).
Proof.
  unfold iflatten, imap. induction m as [|r m IH]; simpl; [reflexivity|].
  now rewrite map_app, IH.
Qed.

(** When no foreground label has 100 pixels, every pixel is filtered out. *)
Lemma retained_all_zero (n : Z) (img labels : image Z) :
  Forall2 (Forall2 (label_ok n)) img labels ->
  (forall lab, (1 <= lab < n)%Z -> (count_label lab labels < 100)%Z) ->
  Forall (fun v => v = 0%Z) (iflatten (imap (retained labels) labels)).
Proof.
  intros Hlab Hsmall. rewrite iflatten_imap. apply Forall_map.
  apply Forall_forall. intros lab Hin.
  assert (0 <= lab < n)%Z by (eapply labels_in_range; eassumption).
  unfold retained.
  destruct (1 <=? lab)%Z eqn:E1; [|reflexivity].
  apply Z.leb_le in E1.
  assert (Hs : (count_label lab labels < 100)%Z) by (apply Hsmall; lia).
  apply Z.leb_gt in Hs. now rewrite Hs.
Qed.

Section PostprocessClaims.
Context {cv : Cv2}.

(** C3.  Under OpenCV's labelling contract the post-processing returns a
    mask of the shape of the closed mask in which a pixel of a foreground
    component of the closed mask is 1 when the component has at least 100
    pixels and 0 when it has fewer, and a pixel that is 1 belongs to a
    foreground component of at least 100 pixels.  In particular, when the
    closed mask has a single foreground component, 99 pixels give a mask
    whose every pixel is 0 and 100 pixels give the closed mask back.  The
    components and their pixel counts are those of the closed mask, which
    is what the script labels. *)
Theorem postprocess_size_filter (mask : image Z) :
  cc_contract (closed_mask mask) (labelling mask) = true ->
  exists out : image Z,
    postprocess mask = Ok out
    /\ same_shape_img (closed_mask mask) out
    /\ (forall r c lab,
           pixel (labels_of mask) r c = Some lab -> (1 <= lab)%Z ->
           (100 <= count_label lab (labels_of mask))%Z ->
           pixel out r c = Some 1%Z)
    /\ (forall r c lab,
           pixel (labels_of mask) r c = Some lab -> (1 <= lab)%Z ->
           (count_label lab (labels_of mask) < 100)%Z ->
           pixel out r c = Some 0%Z)
    /\ (forall r c lab,
           pixel (labels_of mask) r c = Some lab ->
           pixel out r c = Some 1%Z ->
           (1 <= lab)%Z /\ (100 <= count_label lab (labels_of mask))%Z)
    /\ (n_labels_of mask = 2%Z ->
        count_label 1 (labels_of mask) = 99%Z ->
        Forall (fun v => v = 0%Z) (iflatten out))
    /\ (n_labels_of mask = 2%Z ->
        count_label 1 (labels_of mask) = 100%Z ->
        binary_img (closed_mask mask) ->
        out = closed_mask mask).
Proof.
  intro Hc. exists (imap (retained (labels_of mask)) (labels_of mask)).
  split; [now apply postprocess_spec|].
  unfold n_labels_of, labels_of in *.
  destruct (labelling mask) as [[n labels] stats]. simpl.
  apply cc_contract_view in Hc. destruct Hc as (Hn & Hlab & _ & _).
  split; [|split; [|split; [|split; [|split]]]].
  - now apply (retained_shape _ Hlab).
  - intros r c lab Hp H1 H100. rewrite pixel_imap, Hp. simpl.
    unfold retained. apply Z.leb_le in H1, H100. now rewrite H1, H100.
  - intros r c lab Hp H1 H100. rewrite pixel_imap, Hp. simpl.
    unfold retained. apply Z.leb_gt in H100. now rewrite H100, andb_false_r.
  - intros r c lab Hp Hout. rewrite pixel_imap, Hp in Hout.
    simpl in Hout. unfold retained in Hout.
    destruct (1 <=? lab)%Z eqn:E1; [|discriminate].
    destruct (100 <=? count_label lab labels)%Z eqn:E2; [|discriminate].
    split; now apply Z.leb_le.
  - intros H2 H99. apply (retained_all_zero Hlab).
    intros lab Hl. assert (lab = 1%Z) by lia. subst lab. lia.
  - intros H2 H100 Hbin.
    etransitivity; [|symmetry; apply (binary_foreground Hlab Hbin)].
    apply imap_ext_in. intros lab Hin.
    assert (0 <= lab < n)%Z by (eapply labels_in_range; eassumption).
    unfold retained.
    destruct (Z.eq_dec lab 1) as [-> | Hne]; [now rewrite H100|].
    assert (lab = 0%Z) by lia. now subst lab.
Qed.

(** C10.  When the closed mask has foreground components and every one of
    them has fewer than 100 pixels, the post-processing returns a mask of
    the shape of the closed mask whose every pixel is 0: no pixel of the
    closed mask survives. *)
Theorem postprocess_all_small (mask : image Z) :
  cc_contract (closed_mask mask) (labelling mask) = true ->
  (1 < n_labels_of mask)%Z ->
  (forall lab, (1 <= lab < n_labels_of mask)%Z ->
               (count_label lab (labels_of mask) < 100)%Z) ->
  exists out : image Z,
    postprocess mask = Ok out
    /\ same_shape_img (closed_mask mask) out
    /\ Forall (fun v => v = 0%Z) (iflatten out)
    /\ (forall r c v, pixel out r c = Some v -> v = 0%Z).
Proof.
  intros Hc Hfg Hsmall.
  exists (imap (retained (labels_of mask)) (labels_of mask)).
  split; [now apply postprocess_spec|].
  unfold n_labels_of, labels_of in *.
  destruct (labelling mask) as [[n labels] stats]. simpl in *.
  apply cc_contract_view in Hc. destruct Hc as (Hn & Hlab & _ & _).
  pose proof (retained_all_zero Hlab Hsmall) as Hzero.
  split; [now apply (retained_shape _ Hlab)|].
  split; [exact Hzero|].
  intros r c v Hp. rewrite Forall_forall in Hzero. apply Hzero.
  eapply pixel_in. exact Hp.
Qed.

(** C8.  A 0/1 mask that closing leaves unchanged and whose components
    all have at least 100 pixels is returned as it is, so post-processing
    it twice gives what post-processing it once gives. *)
Theorem postprocess_idempotent (mask : image Z) :
  binary_img mask ->
  closed_mask mask = mask ->
  cc_contract (closed_mask mask) (labelling mask) = true ->
  (forall lab, (1 <= lab < n_labels_of mask)%Z ->
               (100 <= count_label lab (labels_of mask))%Z) ->
  postprocess mask = Ok mask
  /\ (once <- postprocess mask ;; postprocess once) = postprocess mask.
Proof.
  intros Hbin Hclosed Hc Hbig.
  assert (E : postprocess mask = Ok mask).
  { rewrite (postprocess_spec mask Hc). f_equal.
    unfold n_labels_of, labels_of in *.
    destruct (labelling mask) as [[n labels] stats]. simpl in *.
    apply cc_contract_view in Hc. destruct Hc as (Hn & Hlab & _ & _).
    rewrite Hclosed in Hlab.
    etransitivity; [|symmetry; apply (binary_foreground Hlab Hbin)].
    apply imap_ext_in. intros lab Hin.
    assert (0 <= lab < n)%Z by (eapply labels_in_range; eassumption).
    unfold retained.
    destruct (lab =? 0)%Z eqn:E0.
    - apply Z.eqb_eq in E0. now subst lab.
    - apply Z.eqb_neq in E0.
      assert (H1 : (1 <=? lab)%Z = true) by (apply Z.leb_le; lia).
      assert (H2 : (100 <=? count_label lab labels)%Z = true)
        by (apply Z.leb_le, Hbig; lia).
      now rewrite H1, H2. }
  split; [exact E|]. rewrite E. simpl. exact E.
Qed.
End PostprocessClaims.

(* ------------------------------------------------------------------ *)
(** ** The post-processing on the reference OpenCV *)

Lemma binaryb_binary (l : list Z) : binaryb l = true -> binary l.
Proof.
  unfold binaryb, binary. rewrite forallb_forall, Forall_forall.
  intros H x Hx. specialize (H x Hx). apply orb_prop in H.
  destruct H as [H|H]; apply Z.eqb_eq in H; [now left | now right].
Qed.

Lemma postprocess_size_filter_witness :
  @postprocess ref_cv2 square100 = Ok square100.
Proof.
  destruct (@postprocess_size_filter ref_cv2 square100)
    as (out & E & _ & _ & _ & _ & _ & H100).
  - vm_compute. reflexivity.
  - rewrite E. f_equal. rewrite H100.
    + vm_compute. reflexivity.
    + vm_compute. reflexivity.
    + vm_compute. reflexivity.
    + apply binaryb_binary. vm_compute. reflexivity.
Defined.

Lemma postprocess_all_small_witness :
  exists out : image Z,
    @postprocess ref_cv2 strip99 = Ok out
    /\ same_shape_img (@closed_mask ref_cv2 strip99) out
    /\ Forall (fun v => v = 0%Z) (iflatten out)
    /\ (forall r c v, pixel out r c = Some v -> v = 0%Z).
Proof.
  apply (@postprocess_all_small ref_cv2 strip99).
  - vm_compute. reflexivity.
  - vm_compute. reflexivity.
  - intros lab Hlab.
    assert (En : @n_labels_of ref_cv2 strip99 = 2%Z) by (vm_compute; reflexivity).
    rewrite En in Hlab. assert (lab = 1%Z) by lia. subst lab.
    vm_compute. reflexivity.
Defined.

Lemma postprocess_idempotent_witness :
  @postprocess ref_cv2 square100 = Ok square100
  /\ (once <- @postprocess ref_cv2 square100 ;; @postprocess ref_cv2 once)
     = @postprocess ref_cv2 square100.
Proof.
  apply (@postprocess_idempotent ref_cv2 square100).
  - apply binaryb_binary. vm_compute. reflexivity.
  - vm_compute. reflexivity.
  - vm_compute. reflexivity.
  - intros lab Hlab.
    assert (En : @n_labels_of ref_cv2 square100 = 2%Z) by (vm_compute; reflexivity).
    rewrite En in Hlab. assert (lab = 1%Z) by lia. subst lab.
    vm_compute. discriminate.
Defined.

(** A rectangle of 99 pixels is removed and a square of 100 pixels is kept. *)
Example strip99_removed :
  zsum (iflatten strip99) = 99%Z
  /\ @closed_mask ref_cv2 strip99 = strip99
  /\ @n_labels_of ref_cv2 strip99 = 2%Z
  /\ @postprocess ref_cv2 strip99 = Ok (repeat (repeat 0%Z 15) 13).
Proof. repeat split; vm_compute; reflexivity. Qed.

Example square100_kept :
  zsum (iflatten square100) = 100%Z
  /\ @closed_mask ref_cv2 square100 = square100
  /\ @n_labels_of ref_cv2 square100 = 2%Z
  /\ @postprocess ref_cv2 square100 = Ok square100.
Proof. repeat split; vm_compute; reflexivity. Qed.

Lemma zsum_all_zero (l : list Z) : Forall (fun v => v = 0%Z) l -> zsum l = 0%Z.
Proof.
  induction 1 as [|x l Hx _ IH]; [reflexivity|].
  rewrite zsum_cons, Hx, IH. reflexivity.
Qed.

Lemma ok_not_all_zero (res : result (image Z)) (m : image Z) :
  res = Ok m -> zsum (iflatten m) <> 0%Z ->
  ~ (exists out : image Z,
        res = Ok out /\ Forall (fun v => v = 0%Z) (iflatten out)).
Proof.
  intros E Hm (out & E' & Hzero). apply Hm.
  assert (m = out) by congruence. subst out.
  now apply zsum_all_zero.
Qed.

(** C3, as stated, fails on a mask whose single foreground component has
    exactly 99 pixels.  The 10 x 10 square with one interior pixel missing
    is a 0/1 mask with 99 foreground pixels in one component.  Closing
    fills the hole: the mask that is labelled is the full square, its
    component has 100 pixels, and the post-processing returns the square,
    100 pixels, instead of the all-zero mask. *)
Lemma single_component_99_kept :
  binary_img holed99
  /\ zsum (iflatten holed99) = 99%Z
  /\ fst (fst (RefCv2.connectedComponentsWithStats holed99)) = 2%Z
  /\ count_label 1 (snd (fst (RefCv2.connectedComponentsWithStats holed99)))
     = 99%Z
  /\ cc_contract (@closed_mask ref_cv2 holed99) (@labelling ref_cv2 holed99)
     = true
  /\ @closed_mask ref_cv2 holed99 = square100
  /\ count_label 1 (@labels_of ref_cv2 holed99) = 100%Z
  /\ @postprocess ref_cv2 holed99 = Ok square100
  /\ zsum (iflatten square100) = 100%Z
  /\ ~ (exists out : image Z,
          @postprocess ref_cv2 holed99 = Ok out
          /\ Forall (fun v => v = 0%Z) (iflatten out)).
Proof.
  split; [apply binaryb_binary; vm_compute; reflexivity|].
  repeat (split; [vm_compute; reflexivity|]).
  apply ok_not_all_zero with (m := square100).
  - vm_compute. reflexivity.
  - vm_compute. discriminate.
Qed.

(* ------------------------------------------------------------------ *)
(** ** The reference OpenCV keeps the labelling contract *)

Lemma map_indexed_Forall2 {A B C : Type} (P0 : A -> B -> Prop)
  (P : A -> C -> Prop) (g : nat -> B -> C) (xs : list A) (ys : list B)
  (s : nat) :
  Forall2 P0 xs ys ->
  (forall i x y, P0 x y -> P x (g i y)) ->
  Forall2 P xs (map (fun iy : nat * B => g (fst iy) (snd iy))
                    (combine (seq s (length ys)) ys)).
Proof.
  intros H Hg. revert s.
  induction H as [|x y xs ys Hxy _ IH]; intro s; simpl; constructor.
  - now apply Hg.
  - apply IH.
Qed.

Lemma imapi_Forall2 {A B C : Type} (P0 : A -> B -> Prop) (P : A -> C -> Prop)
  (f : Z -> Z -> B -> C) (a : image A) (b : image B) :
  Forall2 (Forall2 P0) a b ->
  (forall (i j : nat) x y, P0 x y -> P x (f (Z.of_nat i) (Z.of_nat j) y)) ->
  Forall2 (Forall2 P) a (RefCv2.imapi f b).
Proof.
  intros H Hf. unfold RefCv2.imapi.
  apply (@map_indexed_Forall2 _ _ _ (Forall2 P0) (Forall2 P)
           (fun i row => map (fun cv : nat * B =>
                                f (Z.of_nat i) (Z.of_nat (fst cv)) (snd cv))
                             (combine (seq 0 (length row)) row))
           a b 0%nat H).
  intros i r s Hrs.
  apply (@map_indexed_Forall2 _ _ _ P0 P
           (fun j y => f (Z.of_nat i) (Z.of_nat j) y) r s 0%nat Hrs).
  intros j x y Hxy. now apply Hf.
Qed.

Lemma Forall2_image_refl {A : Type} (img : image A) :
  Forall2 (Forall2 eq) img img.
Proof.
  induction img as [|row img IH]; constructor; [|exact IH].
  induction row; constructor; auto.
Qed.

Lemma Forall2_image_in {A B : Type} (P : A -> B -> Prop) (a : image A)
  (b : image B) (y : B) :
  Forall2 (Forall2 P) a b -> In y (iflatten b) -> exists x, P x y.
Proof.
  unfold iflatten. intros H Hin.
  apply in_concat in Hin. destruct Hin as [row [Hrow Hy]].
  induction H as [|r s a' b' Hrs _ IH]; [contradiction|].
  destruct Hrow as [<- | Hrow]; [|now apply IH].
  clear IH. induction Hrs as [|x0 y0 r' s' Hxy _ IH]; [contradiction|].
  destruct Hy as [<- | Hy]; [now exists x0 | now apply IH].
Qed.

Lemma under_in (img : image Z) (offs : list (Z * Z)) (r c v : Z) :
  In v (RefCv2.under img offs r c) -> In v (iflatten img).
Proof.
  unfold RefCv2.under. intro H.
  apply in_concat in H. destruct H as [l [Hl Hv]].
  apply in_map_iff in Hl. destruct Hl as [o [<- _]].
  unfold RefCv2.at_ in Hv.
  destruct ((r + fst o <? 0) || (c + snd o <? 0))%Z; [contradiction|].
  destruct (pixel img (Z.to_nat (r + fst o)) (Z.to_nat (c + snd o))) eqn:E;
    [|contradiction].
  destruct Hv as [<- | []]. eapply pixel_in; eassumption.
Qed.

Lemma fold_min_pos (l : list Z) (v : Z) :
  (0 < v)%Z -> Forall (fun x => (0 < x)%Z) l ->
  (0 < fold_right Z.min v l)%Z.
Proof.
  intros Hv. induction 1 as [|x l Hx _ IH]; simpl; [exact Hv | lia].
Qed.

Lemma seed_seeded (img : image Z) :
  Forall2 (Forall2 seeded) img (RefCv2.seed img).
Proof.
  unfold RefCv2.seed.
  eapply imapi_Forall2; [apply Forall2_image_refl|].
  intros i j x y ->. unfold seeded.
  destruct (y =? 0)%Z eqn:E.
  - apply Z.eqb_eq in E. subst. split; [tauto | lia].
  - apply Z.eqb_neq in E.
    assert (0 < Z.of_nat i * Z.of_nat (length (hd [] img)) + Z.of_nat j + 1)%Z
      by nia.
    split; [|lia]. split; intro; [contradiction | lia].
Qed.

Lemma relax_seeded (img lab : image Z) :
  Forall2 (Forall2 seeded) img lab ->
  Forall2 (Forall2 seeded) img (RefCv2.relax lab).
Proof.
  intro H. unfold RefCv2.relax.
  eapply imapi_Forall2; [exact H|].
  intros i j v x [Hz Hx]. unfold seeded.
  destruct (x =? 0)%Z eqn:E.
  - apply Z.eqb_eq in E. subst. split; [tauto | lia].
  - apply Z.eqb_neq in E.
    assert (Hpos : (0 < fold_right Z.min x
                          (filter (fun y => negb (y =? 0)%Z)
                                  (RefCv2.under lab RefCv2.neighbours8
                                                (Z.of_nat i) (Z.of_nat j))))%Z).
    { apply fold_min_pos; [lia|].
      apply Forall_forall. intros y Hy. apply filter_In in Hy.
      destruct Hy as [Hy Hnz]. apply under_in in Hy.
      destruct (@Forall2_image_in _ _ _ _ _ y H Hy) as [v0 [_ Hy0]].
      apply negb_true_iff, Z.eqb_neq in Hnz. lia. }
    split; [|lia]. split; intro; [tauto | lia].
Qed.

Lemma propagate_seeded (fuel : nat) (img lab : image Z) :
  Forall2 (Forall2 seeded) img lab ->
  Forall2 (Forall2 seeded) img (RefCv2.propagate fuel lab).
Proof.
  revert lab. induction fuel as [|fuel IH]; intros lab H; simpl; [exact H|].
  destruct (RefCv2.image_eqb lab (RefCv2.relax lab)); [exact H|].
  apply IH. now apply relax_seeded.
Qed.

Lemma distinct_in (l seen : list Z) (x : Z) :
  x <> 0%Z -> In x seen \/ In x l -> In x (RefCv2.distinct seen l).
Proof.
  intro Hx. revert seen.
  induction l as [|y l IH]; intros seen H; simpl.
  - apply in_rev. rewrite rev_involutive. destruct H as [H | []]. exact H.
  - destruct ((y =? 0) || existsb (Z.eqb y) seen)%Z eqn:E.
    + apply IH. destruct H as [H | [H | H]]; [now left | | now right].
      subst y. left. apply orb_prop in E. destruct E as [E | E].
      * apply Z.eqb_eq in E. contradiction.
      * apply existsb_exists in E. destruct E as [z [Hz Ez]].
        apply Z.eqb_eq in Ez. now subst z.
    + apply IH. destruct H as [H | [H | H]].
      * left. now right.
      * left. now left.
      * now right.
Qed.

Lemma index_of_range (l : list Z) (x i : Z) :
  In x l -> (i <= RefCv2.index_of x l i < i + Z.of_nat (length l))%Z.
Proof.
  revert i. induction l as [|y l IH]; intros i H; [contradiction|].
  simpl RefCv2.index_of. change (length (y :: l)) with (S (length l)).
  destruct (x =? y)%Z eqn:E; [lia|].
  apply Z.eqb_neq in E. destruct H as [H | H]; [congruence|].
  specialize (IH (i + 1)%Z H). lia.
Qed.

Lemma imap_Forall2 {A B C : Type} (P0 : A -> B -> Prop) (P : A -> C -> Prop)
  (g : B -> C) (a : image A) (b : image B) :
  Forall2 (Forall2 P0) a b ->
  (forall x y, In y (iflatten b) -> P0 x y -> P x (g y)) ->
  Forall2 (Forall2 P) a (imap g b).
Proof.
  unfold imap, iflatten. intros H.
  induction H as [|r s a' b' Hrs _ IH]; intro Hg; simpl; constructor.
  - assert (Hg' : forall x y, In y s -> P0 x y -> P x (g y))
      by (intros x y Hy; apply Hg; simpl; apply in_or_app; now left).
    clear Hg IH. induction Hrs as [|x y r' s' Hxy _ IHr]; simpl; constructor.
    + apply Hg'; [now left | exact Hxy].
    + apply IHr. intros x' y' Hy'. apply Hg'. now right.
  - apply IH. intros x y Hy. apply Hg. simpl. apply in_or_app. now right.
Qed.

Lemma Forall2_forallb2 {A B : Type} (f : A -> B -> bool) (xs : list A)
  (ys : list B) :
  Forall2 (fun x y => f x y = true) xs ys -> forallb2 f xs ys = true.
Proof.
  induction 1 as [|x y xs ys Hxy _ IH]; simpl; [reflexivity|].
  now rewrite Hxy, IH.
Qed.

Lemma label_ok_pixel_ok (n v lab : Z) :
  label_ok n v lab -> pixel_ok n v lab = true.
Proof.
  unfold pixel_ok, label_ok. intros [Hz Hr].
  apply andb_true_intro. split; [apply andb_true_intro; split|].
  - apply Bool.eqb_true_iff.
    destruct (v =? 0)%Z eqn:Ev, (lab =? 0)%Z eqn:El; try reflexivity.
    + apply Z.eqb_eq in Ev. apply Z.eqb_neq in El. tauto.
    + apply Z.eqb_neq in Ev. apply Z.eqb_eq in El. tauto.
  - apply Z.leb_le. lia.
  - apply Z.ltb_lt. lia.
Qed.

Lemma row_positions_count (h : Z -> Z -> Z -> list (Z * Z)) (l i : Z)
  (row : list Z) (s : nat) :
  (forall c v, length (h i c v) = if (v =? l)%Z then 1%nat else 0%nat) ->
  Z.of_nat (length (concat (map (fun cv : nat * Z =>
                                   h i (Z.of_nat (fst cv)) (snd cv))
                                (combine (seq s (length row)) row))))
  = zsum (map (fun v => if (v =? l)%Z then 1%Z else 0%Z) row).
Proof.
  intro Hh. revert s. induction row as [|v row IH]; intro s; [reflexivity|].
  simpl. rewrite length_app, Nat2Z.inj_add, IH, Hh.
  destruct (v =? l)%Z; reflexivity.
Qed.

Lemma positions_count_from (l : Z) (labels : image Z) (s : nat) :
  Z.of_nat
    (length
       (concat
          (concat
             (map (fun rr : nat * list Z =>
                     map (fun cv : nat * Z =>
                            if (snd cv =? l)%Z
                            then [(Z.of_nat (fst rr), Z.of_nat (fst cv))]
                            else [])
                         (combine (seq 0 (length (snd rr))) (snd rr)))
                  (combine (seq s (length labels)) labels)))))
  = zsum (map (fun v => if (v =? l)%Z then 1%Z else 0%Z) (concat labels)).
Proof.
  revert s. induction labels as [|row labels IH]; intro s; [reflexivity|].
  simpl. rewrite concat_app, length_app, Nat2Z.inj_add, map_app, zsum_app.
  rewrite IH. f_equal.
  apply (@row_positions_count
           (fun r c v => if (v =? l)%Z then [(r, c)] else [])
           l (Z.of_nat s) row 0%nat).
  intros c v. now destruct (v =? l)%Z.
Qed.

Lemma positions_count (l : Z) (labels : image Z) :
  Z.of_nat (length (RefCv2.positions l labels)) = count_label l labels.
Proof. apply positions_count_from. Qed.

Lemma stats_row_ok_holds (labels : image Z) (l : nat) :
  stats_row_ok labels (l, RefCv2.stats_row labels (Z.of_nat l)) = true.
Proof.
  unfold stats_row_ok, RefCv2.stats_row.
  rewrite <- positions_count.
  destruct (RefCv2.positions (Z.of_nat l) labels) as [|p ps]; simpl.
  - reflexivity.
  - apply Pos.eqb_refl.
Qed.

Lemma combine_seq_map {B : Type} (F : nat -> B) (k s : nat) (p : nat * B) :
  In p (combine (seq s k) (map F (seq s k))) -> snd p = F (fst p).
Proof.
  revert s. induction k as [|k IH]; intros s H; [contradiction|].
  simpl in H. destruct H as [<- | H]; [reflexivity | now apply (IH (S s))].
Qed.

(** The reference labelling satisfies [cc_contract] on every image. *)
Lemma ref_cv2_contract (img : image Z) :
  cc_contract img (RefCv2.connectedComponentsWithStats img) = true.
Proof.
  unfold RefCv2.connectedComponentsWithStats, cc_contract.
  set (raw := RefCv2.propagate (length (iflatten img)) (RefCv2.seed img)).
  set (roots := RefCv2.distinct [] (iflatten raw)).
  set (n := (Z.of_nat (length roots) + 1)%Z).
  set (labels := imap (fun v => if (v =? 0)%Z then 0%Z
                                else RefCv2.index_of v roots 1) raw).
  assert (Hraw : Forall2 (Forall2 seeded) img raw)
    by (apply propagate_seeded, seed_seeded).
  repeat (apply andb_true_intro; split).
  - apply Z.leb_le. unfold n. lia.
  - apply Forall2_forallb2.
    eapply Forall2_impl; [intros r s Hrs; apply Forall2_forallb2; exact Hrs|].
    eapply Forall2_impl; [intros r s Hrs; eapply Forall2_impl;
                          [intros v lab; apply label_ok_pixel_ok | exact Hrs]|].
    unfold labels. eapply imap_Forall2; [exact Hraw|].
    intros v x Hin [Hz Hx]. unfold label_ok.
    destruct (x =? 0)%Z eqn:E.
    + apply Z.eqb_eq in E. split; [tauto | unfold n; lia].
    + apply Z.eqb_neq in E.
      assert (Hr : In x roots) by (apply distinct_in; [exact E | now right]).
      pose proof (@index_of_range roots x 1%Z Hr) as Hi. unfold n.
      split; [|lia]. split; intro; [tauto | lia].
  - apply Z.eqb_eq. rewrite length_map, length_seq. unfold n. lia.
  - apply forallb_forall. intros [l row] Hin.
    rewrite length_map, length_seq in Hin.
    apply combine_seq_map in Hin. simpl in Hin. subst row.
    apply stats_row_ok_holds.
Qed.

(** On the reference OpenCV the post-processing of any mask returns, and the
    result is 1 exactly on the components of at least 100 pixels. *)
Corollary ref_postprocess_total (mask : image Z) :
  @postprocess ref_cv2 mask
  = Ok (imap (retained (@labels_of ref_cv2 mask)) (@labels_of ref_cv2 mask)).
Proof. apply postprocess_spec. apply ref_cv2_contract. Qed.

(* ------------------------------------------------------------------ *)
(** ** Two runs without positive ground truth *)

(** C2, as stated, fails.  Ground truth [[0, 0]] and prediction [[0, 1]]
    give TN = 1, FP = 1, FN = 0, TP = 0: TP + FN = 0, nothing raises, and
    the sensitivity is NaN.  So it is on a whole run: when the model answers
    0.9 on a 10 x 10 square and 0.1 elsewhere, the threshold is 0.1, the
    square survives the post-processing, the counts are TN = 96, FP = 100,
    FN = 0, TP = 0, and the run completes with a NaN sensitivity. *)
Lemma zero_denominator_does_not_raise :
  (confusion_counts [[[0; 0]]]%Z [[[0; 1]]]%Z = Ok (1, 1, 0, 0)%Z
   /\ @clinical_metrics exact [[[0; 0]]]%Z [[[0; 1]]]%Z
      = Ok (NaN, Finite (1 # 2), Finite 0)
   /\ raises (@clinical_metrics exact [[[0; 0]]]%Z [[[0; 1]]]%Z) = false)
  /\ (@optimal_threshold exact (arr_data (coerce_masks background_masks))
         square_probs = Ok (1 # 10)
      /\ @postprocessed_preds ref_cv2 (preds square_probs (1 # 10))
         = Ok [square100]
      /\ confusion_counts (arr_data (coerce_masks background_masks))
                          [square100]
         = Ok (96, 100, 0, 0)%Z
      /\ option_map raises
           (@evaluate exact ref_cv2 decimal background_masks square_probs)
         = Some false
      /\ exists rep : report,
           @evaluate exact ref_cv2 decimal background_masks square_probs
           = Some (Ok rep)
           /\ rep_clinical rep = (NaN, Finite (96 # 196), Finite (0 # 100))).
Proof.
  split.
  - repeat split.
  - split; [vm_compute; reflexivity|].
    split; [vm_compute; reflexivity|].
    split; [vm_compute; reflexivity|].
    split; [vm_compute; reflexivity|].
    eexists. split; vm_compute; reflexivity.
Qed.

(** The model answers 0.5 everywhere: the threshold is 0.5, the strict
    comparison predicts nothing, ground truth and prediction hold the single
    label 0, and the run ends in the [ValueError] of the unpacking. *)
Example run_all_background_raises :
  @optimal_threshold exact (arr_data (coerce_masks background_masks))
     uniform_half = Ok (1 # 2)
  /\ @postprocessed_preds ref_cv2 (preds uniform_half (1 # 2))
     = Ok [repeat (repeat 0%Z 14) 14]
  /\ confusion_counts (arr_data (coerce_masks background_masks))
                      [repeat (repeat 0%Z 14) 14]
     = Raise ValueError
  /\ @evaluate exact ref_cv2 decimal background_masks uniform_half
     = Some (Raise ValueError).
Proof. repeat split; vm_compute; reflexivity. Qed.

(* ================================================================== *)
(** * Further properties of the stages *)

(* ------------------------------------------------------------------ *)
(** ** The assertions (lines 21-31) *)

Lemma max_leb (a x b : Z) :
  (Z.max a x <=? b)%Z = ((a <=? b) && (x <=? b))%Z.
Proof.
  destruct (a <=? b)%Z eqn:Ea, (x <=? b)%Z eqn:Ex; simpl;
    rewrite ?Z.leb_le, ?Z.leb_gt in *; lia.
Qed.

Lemma min_geb (a x b : Z) :
  (b <=? Z.min a x)%Z = ((b <=? a) && (b <=? x))%Z.
Proof.
  destruct (b <=? a)%Z eqn:Ea, (b <=? x)%Z eqn:Ex; simpl;
    rewrite ?Z.leb_le, ?Z.leb_gt in *; lia.
Qed.

Lemma fold_left_max_leb (xs : list Z) (a b : Z) :
  (fold_left Z.max xs a <=? b)%Z
  = ((a <=? b)%Z && forallb (fun v => (v <=? b)%Z) xs).
Proof.
  revert a. induction xs as [|x xs IH]; intro a; simpl.
  - now rewrite andb_true_r.
  - now rewrite IH, max_leb, andb_assoc.
Qed.

Lemma fold_left_min_geb (xs : list Z) (a b : Z) :
  (b <=? fold_left Z.min xs a)%Z
  = ((b <=? a)%Z && forallb (fun v => (b <=? v)%Z) xs).
Proof.
  revert a. induction xs as [|x xs IH]; intro a; simpl.
  - now rewrite andb_true_r.
  - now rewrite IH, min_geb, andb_assoc.
Qed.

Lemma forallb_andb {A : Type} (f g : A -> bool) (l : list A) :
  forallb (fun x => f x && g x) l = forallb f l && forallb g l.
Proof.
  induction l as [|x l IH]; simpl; [reflexivity|].
  rewrite IH. destruct (f x), (g x), (forallb f l); reflexivity.
Qed.

(** X1.  The two mask assertions accept exactly the non-empty [uint8]
    arrays whose entries are all 0 or 1.  The range is checked first: an
    entry outside fails with the first message whatever the dtype, a wrong
    dtype with entries in range fails with the second, and a zero-size
    array raises [ValueError] in [max]. *)
Theorem validate_masks_decision (Y_test : ndarray) :
  validate_masks Y_test
  = match flatten (arr_data Y_test) with
    | [] => Raise ValueError
    | _ :: _ =>
        if forallb mask_in_range (flatten (arr_data Y_test))
        then if dtype_eqb (arr_dtype Y_test) Duint8
             then Ok tt
             else Raise (AssertionError "Masks should be uint8 type")
        else Raise (AssertionError "Masks must be binary (0-1)")
    end.
Proof.
  unfold validate_masks.
  destruct (flatten (arr_data Y_test)) as [|x xs]; [reflexivity|].
  unfold mask_in_range. rewrite forallb_andb.
  cbn [np_max np_min bind forallb].
  rewrite fold_left_max_leb.
  destruct ((x <=? 1)%Z && forallb (fun v => (v <=? 1)%Z) xs) eqn:Emax.
  - cbn [bind]. rewrite fold_left_min_geb.
    rewrite andb_true_r.
    destruct ((0 <=? x)%Z && forallb (fun v => (0 <=? v)%Z) xs); simpl.
    + now destruct (dtype_eqb (arr_dtype Y_test) Duint8).
    + reflexivity.
  - cbn [bind negb]. now rewrite andb_false_r.
Qed.

Lemma Qle_bool_false (x y : Q) : Qle_bool x y = false -> y < x.
Proof.
  intro H. apply Qnot_le_lt. intro Hle.
  apply Qle_bool_iff in Hle. congruence.
Qed.

Ltac qbool :=
  repeat match goal with
         | H : Qle_bool _ _ = true |- _ => apply Qle_bool_iff in H
         | H : Qle_bool _ _ = false |- _ => apply Qle_bool_false in H
         | |- Qle_bool _ _ = true => apply Qle_bool_iff
         end.

Lemma Qmax_leb (a x b : Q) :
  Qle_bool (Qmax a x) b = Qle_bool a b && Qle_bool x b.
Proof.
  unfold Qmax.
  destruct (Qle_bool a x) eqn:E, (Qle_bool a b) eqn:Ea,
    (Qle_bool x b) eqn:Ex; simpl; try reflexivity; try assumption;
    try (rewrite <- Ea; reflexivity); exfalso; qbool; lra.
Qed.

Lemma Qmin_geb (a x b : Q) :
  Qle_bool b (Qmin a x) = Qle_bool b a && Qle_bool b x.
Proof.
  unfold Qmin.
  destruct (Qle_bool a x) eqn:E, (Qle_bool b a) eqn:Ea,
    (Qle_bool b x) eqn:Ex; simpl; try reflexivity; try assumption;
    try (rewrite <- Ex; reflexivity); exfalso; qbool; lra.
Qed.

Lemma fold_left_Qmax_leb (xs : list Q) (a b : Q) :
  Qle_bool (fold_left Qmax xs a) b
  = Qle_bool a b && forallb (fun p => Qle_bool p b) xs.
Proof.
  revert a. induction xs as [|x xs IH]; intro a; simpl.
  - now rewrite andb_true_r.
  - now rewrite IH, Qmax_leb, andb_assoc.
Qed.

Lemma fold_left_Qmin_geb (xs : list Q) (a b : Q) :
  Qle_bool b (fold_left Qmin xs a)
  = Qle_bool b a && forallb (fun p => Qle_bool b p) xs.
Proof.
  revert a. induction xs as [|x xs IH]; intro a; simpl.
  - now rewrite andb_true_r.
  - now rewrite IH, Qmin_geb, andb_assoc.
Qed.

Lemma forallb_prob_in_range (l : list Q) :
  forallb prob_in_range l = true <-> Forall in_unit l.
Proof.
  rewrite forallb_forall, Forall_forall. unfold prob_in_range, in_unit.
  split; intros H p Hp; specialize (H p Hp).
  - apply andb_prop in H. destruct H as [H0 H1]. qbool. now split.
  - destruct H as [H0 H1]. apply andb_true_intro. split; now qbool.
Qed.

(** [min] and [max] return an entry of the array, the least and the
    greatest. *)
Lemma fold_left_Qmin_least (xs : list Q) (a : Q) :
  (fold_left Qmin xs a = a \/ In (fold_left Qmin xs a) xs)
  /\ fold_left Qmin xs a <= a
  /\ Forall (fun p => fold_left Qmin xs a <= p) xs.
Proof.
  revert a. induction xs as [|x xs IH]; intro a; simpl.
  - split; [now left|]. split; [apply Qle_refl | constructor].
  - destruct (IH (Qmin a x)) as (Hin & Hle & Hall).
    assert (Hm : (Qmin a x = a \/ Qmin a x = x) /\ Qmin a x <= a /\ Qmin a x <= x).
    { unfold Qmin. destruct (Qle_bool a x) eqn:E; qbool.
      - split; [now left|]. split; [apply Qle_refl | exact E].
      - split; [now right|]. split; [now apply Qlt_le_weak | apply Qle_refl]. }
    destruct Hm as (Hc & Ha & Hx).
    split; [|split].
    + destruct Hin as [Hin|Hin]; [|now right; right].
      rewrite Hin. destruct Hc as [-> | ->]; [now left | now right; left].
    + now apply Qle_trans with (Qmin a x).
    + constructor; [now apply Qle_trans with (Qmin a x) | exact Hall].
Qed.

Lemma fold_left_Qmax_greatest (xs : list Q) (a : Q) :
  (fold_left Qmax xs a = a \/ In (fold_left Qmax xs a) xs)
  /\ a <= fold_left Qmax xs a
  /\ Forall (fun p => p <= fold_left Qmax xs a) xs.
Proof.
  revert a. induction xs as [|x xs IH]; intro a; simpl.
  - split; [now left|]. split; [apply Qle_refl | constructor].
  - destruct (IH (Qmax a x)) as (Hin & Hle & Hall).
    assert (Hm : (Qmax a x = a \/ Qmax a x = x) /\ a <= Qmax a x /\ x <= Qmax a x).
    { unfold Qmax. destruct (Qle_bool a x) eqn:E; qbool.
      - split; [now right|]. split; [exact E | apply Qle_refl].
      - split; [now left|]. split; [apply Qle_refl | now apply Qlt_le_weak]. }
    destruct Hm as (Hc & Ha & Hx).
    split; [|split].
    + destruct Hin as [Hin|Hin]; [|now right; right].
      rewrite Hin. destruct Hc as [-> | ->]; [now left | now right; left].
    + now apply Qle_trans with (Qmax a x).
    + constructor; [now apply Qle_trans with (Qmax a x) | exact Hall].
Qed.

Lemma np_qmin_least (x : Q) (xs : list Q) :
  least_of (fold_left Qmin xs x) (x :: xs).
Proof.
  destruct (fold_left_Qmin_least xs x) as (Hin & Hle & Hall).
  split; [|now constructor].
  destruct Hin as [-> | Hin]; [now left | now right].
Qed.

Lemma np_qmax_greatest (x : Q) (xs : list Q) :
  greatest_of (fold_left Qmax xs x) (x :: xs).
Proof.
  destruct (fold_left_Qmax_greatest xs x) as (Hin & Hle & Hall).
  split; [|now constructor].
  destruct Hin as [-> | Hin]; [now left | now right].
Qed.

Section OutputAssertion.
Context {F : FloatFormat}.

Lemma validate_outputs_in_unit (raw_preds : batch Q) :
  flatten raw_preds <> [] -> Forall in_unit (flatten raw_preds) ->
  validate_outputs raw_preds = Ok tt.
Proof.
  intros Hne Hu. unfold validate_outputs.
  destruct (flatten raw_preds) as [|x xs]; [congruence|].
  apply forallb_prob_in_range in Hu. unfold prob_in_range in Hu.
  rewrite forallb_andb in Hu. apply andb_prop in Hu. destruct Hu as [H0 H1].
  cbn [forallb] in H0, H1.
  assert (H0' : Qle_bool 0 x && forallb (fun p => Qle_bool 0 p) xs = true)
    by exact H0.
  assert (H1' : Qle_bool x 1 && forallb (fun p => Qle_bool p 1) xs = true)
    by exact H1.
  cbn [np_qmax np_qmin bind].
  rewrite fold_left_Qmax_leb, H1'. cbn [bind].
  rewrite fold_left_Qmin_geb, H0'. reflexivity.
Qed.

Lemma validate_outputs_out_of_range (raw_preds : batch Q) :
  flatten raw_preds <> [] ->
  ~ Forall in_unit (flatten raw_preds) ->
  exists lo hi : Q,
    least_of lo (flatten raw_preds)
    /\ greatest_of hi (flatten raw_preds)
    /\ validate_outputs raw_preds
       = Raise (AssertionError
                  ("Model outputs out of [0,1] range: "
                   ++ str_float lo ++ "-" ++ str_float hi)%string).
Proof.
  intros Hne Hu. unfold validate_outputs.
  destruct (flatten raw_preds) as [|x xs]; [congruence|].
  exists (fold_left Qmin xs x), (fold_left Qmax xs x).
  split; [apply np_qmin_least|]. split; [apply np_qmax_greatest|].
  assert (Hf : forallb prob_in_range (x :: xs) = false).
  { destruct (forallb prob_in_range (x :: xs)) eqn:E; [|reflexivity].
    apply forallb_prob_in_range in E. contradiction. }
  unfold prob_in_range in Hf. rewrite forallb_andb in Hf.
  cbn [forallb] in Hf.
  assert (Hf' : (Qle_bool 0 x && forallb (fun p => Qle_bool 0 p) xs)
                && (Qle_bool x 1 && forallb (fun p => Qle_bool p 1) xs)
                = false) by exact Hf.
  cbn [np_qmax np_qmin bind].
  rewrite fold_left_Qmax_leb.
  destruct (Qle_bool x 1 && forallb (fun p => Qle_bool p 1) xs).
  - cbn [bind]. rewrite fold_left_Qmin_geb.
    rewrite andb_true_r in Hf'. now rewrite Hf'.
  - reflexivity.
Qed.

(** X2.  The assertion on the model output passes exactly on a non-empty
    batch whose values all lie in [0, 1].  On a zero-size batch [max]
    raises [ValueError].  As soon as one value lies outside, the assertion
    fails, and its message is the fixed text followed by the least and the
    greatest value of the batch, separated by a hyphen, each as Python
    writes a float. *)
Theorem validate_outputs_decision (raw_preds : batch Q) :
  (flatten raw_preds = [] -> validate_outputs raw_preds = Raise ValueError)
  /\ (flatten raw_preds <> [] ->
      Forall in_unit (flatten raw_preds) ->
      validate_outputs raw_preds = Ok tt)
  /\ (flatten raw_preds <> [] ->
      ~ Forall in_unit (flatten raw_preds) ->
      exists lo hi : Q,
        least_of lo (flatten raw_preds)
        /\ greatest_of hi (flatten raw_preds)
        /\ validate_outputs raw_preds
           = Raise (AssertionError
                      ("Model outputs out of [0,1] range: "
                       ++ str_float lo ++ "-" ++ str_float hi)%string)).
Proof.
  split; [|split].
  - intro E. unfold validate_outputs. now rewrite E.
  - apply validate_outputs_in_unit.
  - apply validate_outputs_out_of_range.
Qed.
End OutputAssertion.

(** The least entry of a list written out. *)
Lemma least_of_eq (lo m : Q) (l : list Q) :
  least_of lo l -> In m l ->
  (forall p, In p l -> p <= m -> p = m) -> lo = m.
Proof.
  intros [Hin Hall] Hm Huniq. apply Huniq; [exact Hin|].
  rewrite Forall_forall in Hall. now apply Hall.
Qed.

Lemma greatest_of_eq (hi m : Q) (l : list Q) :
  greatest_of hi l -> In m l ->
  (forall p, In p l -> m <= p -> p = m) -> hi = m.
Proof.
  intros [Hin Hall] Hm Huniq. apply Huniq; [exact Hin|].
  rewrite Forall_forall in Hall. now apply Hall.
Qed.

Ltac decide_entry :=
  let p := fresh "p" in
  let Hp := fresh "Hp" in
  let Hle := fresh "Hle" in
  intros p Hp Hle; cbv in Hp;
  repeat (destruct Hp as [<- | Hp]; [first [reflexivity | exfalso; cbv in Hle; now apply Hle]|]);
  contradiction.

Lemma validate_outputs_decision_witness :
  @validate_outputs decimal [[[1 # 2; 3 # 2]; [1 # 4; 1]]]
  = Raise (AssertionError "Model outputs out of [0,1] range: 0.25-1.5").
Proof.
  destruct (@validate_outputs_decision decimal [[[1 # 2; 3 # 2]; [1 # 4; 1]]])
    as (_ & _ & H).
  destruct H as (lo & hi & Hlo & Hhi & E).
  - discriminate.
  - intro H. apply forallb_prob_in_range in H. vm_compute in H. discriminate.
  - rewrite E.
    rewrite (@least_of_eq lo (1 # 4) _ Hlo); [|cbv; tauto|decide_entry].
    rewrite (@greatest_of_eq hi (3 # 2) _ Hhi); [|cbv; tauto|decide_entry].
    reflexivity.
Defined.

(* ------------------------------------------------------------------ *)
(** ** Mask coercion (line 18) *)

Lemma bmap_bmap {A B C : Type} (f : A -> B) (g : B -> C) (b : batch A) :
  bmap g (bmap f b) = bmap (fun x => g (f x)) b.
Proof.
  unfold bmap, imap. rewrite map_map. apply map_ext. intro img.
  rewrite map_map. apply map_ext. intro row. apply map_map.
Qed.

Lemma bmap_ext_in {A B : Type} (f g : A -> B) (b : batch A) :
  (forall x, In x (flatten b) -> f x = g x) -> bmap f b = bmap g b.
Proof.
  unfold bmap, flatten. intro H. apply map_ext_in. intros img Himg.
  apply imap_ext_in. intros x Hx. apply H.
  apply in_concat. exists (iflatten img). split; [|exact Hx].
  now apply in_map.
Qed.

Lemma bmap_id {A : Type} (b : batch A) : bmap (fun x => x) b = b.
Proof.
  unfold bmap, imap. rewrite <- (map_id b) at 2. apply map_ext. intro img.
  rewrite <- (map_id img) at 2. apply map_ext. intro row. apply map_id.
Qed.

(** X3.  The coercion leaves a 0/1 array as it is: an array that holds only
    0 and 1 comes back with the same entries, as [uint8].  In particular
    coercing what the coercion produced changes nothing. *)
Theorem coerce_masks_fixes_binary (a : ndarray) :
  binary (flatten (arr_data a)) ->
  coerce_masks (reload a) = {| arr_dtype := Duint8; arr_data := arr_data a |}.
Proof.
  intro Hb. unfold coerce_masks, reload. f_equal.
  rewrite bmap_bmap. rewrite <- (bmap_id (arr_data a)) at 2.
  apply bmap_ext_in. intros v Hv.
  unfold binary in Hb. rewrite Forall_forall in Hb.
  destruct (Hb v Hv) as [-> | ->]; reflexivity.
Qed.

Lemma coerce_masks_fixes_binary_witness :
  coerce_masks
    (reload (coerce_masks [[[Finite (3 # 10); NaN]; [PosInf; Finite 255]]]))
  = coerce_masks [[[Finite (3 # 10); NaN]; [PosInf; Finite 255]]].
Proof.
  apply (coerce_masks_fixes_binary
           (coerce_masks [[[Finite (3 # 10); NaN]; [PosInf; Finite 255]]])).
  apply coerce_masks_binary.
Defined.

(* ------------------------------------------------------------------ *)
(** ** The selected threshold and the prediction (lines 38-42) *)

Lemma optimal_threshold_in_scores {R : Rounding} (Y_test : batch Z)
  (raw_preds : batch Q) (t : Q) :
  optimal_threshold Y_test raw_preds = Ok t -> In t (flatten raw_preds).
Proof.
  unfold optimal_threshold, precision_recall_curve. cbv zeta beta iota.
  destruct (argmax _) as [idx|e]; [|discriminate]. cbn [bind].
  unfold getitem.
  destruct (nth_error _ idx) as [t'|] eqn:Ht; [|discriminate].
  intro H. injection H as <-.
  apply nth_error_In in Ht. apply in_rev in Ht.
  apply in_map_iff in Ht. destruct Ht as [[[f tp] s] [E Hpt]].
  simpl in E. subst s.
  pose proof (binary_clf_curve_ok (flatten Y_test) (flatten raw_preds)) as Hok.
  rewrite Forall_forall in Hok. apply Hok in Hpt.
  now destruct Hpt as (_ & _ & _ & Hs).
Qed.

Lemma threshold_pixel_bit (t p : Q) : is_bit (threshold_pixel t p).
Proof. unfold threshold_pixel. apply astype_uint8_bit. Qed.

Lemma threshold_pixel_self (t : Q) : threshold_pixel t t = 0%Z.
Proof.
  unfold threshold_pixel.
  assert (H : Qgtb t t = false) by (apply Qgtb_false; apply Qle_refl).
  now rewrite H.
Qed.

(** X4.  The selected threshold is one of the predicted probabilities, and
    the comparison is strict: the pixels that hold the threshold value are
    predicted 0, so the prediction at the selected threshold is never
    positive everywhere. *)
Theorem prediction_at_optimal_threshold {R : Rounding} (Y_test : batch Z)
  (raw_preds : batch Q) (t : Q) :
  optimal_threshold Y_test raw_preds = Ok t ->
  In t (flatten raw_preds)
  /\ (forall n r c, bpixel raw_preds n r c = Some t ->
                    bpixel (preds raw_preds t) n r c = Some 0%Z)
  /\ (count_positive (preds raw_preds t)
      < Z.of_nat (length (flatten raw_preds)))%Z.
Proof.
  intro Ht. apply optimal_threshold_in_scores in Ht.
  split; [exact Ht|]. split.
  - intros n r c Hp. unfold preds. rewrite bpixel_bmap, Hp. simpl.
    now rewrite threshold_pixel_self.
  - unfold count_positive, preds. rewrite flatten_bmap.
    apply in_split in Ht. destruct Ht as [l1 [l2 ->]].
    rewrite map_app, zsum_app, length_app. simpl.
    rewrite threshold_pixel_self.
    assert (B : forall l, (zsum (map (threshold_pixel t) l)
                           <= Z.of_nat (length l))%Z).
    { intro l. rewrite <- (length_map (threshold_pixel t) l).
      apply zsum_binary_bounds. apply Forall_forall. intros v Hv.
      apply in_map_iff in Hv. destruct Hv as [p [<- _]].
      apply threshold_pixel_bit. }
    pose proof (B l1). pose proof (B l2). lia.
Qed.

Lemma prediction_at_optimal_threshold_witness :
  In (4 # 10) (flatten example_probs)
  /\ (forall n r c, bpixel example_probs n r c = Some (4 # 10) ->
                    bpixel (preds example_probs (4 # 10)) n r c = Some 0%Z)
  /\ (count_positive (preds example_probs (4 # 10))
      < Z.of_nat (length (flatten example_probs)))%Z.
Proof.
  apply (@prediction_at_optimal_threshold exact example_masks example_probs).
  reflexivity.
Defined.

(* ------------------------------------------------------------------ *)
(** ** The sweep (lines 34-39) *)

Section SweepFacts.
Context {R : Rounding} (L : RoundingLaws R).

(** The F1 curve: one non-negative value per threshold, then the value 0 of
    the closing point. *)
Lemma sweep_f1_shape (Y_test : batch Z) (raw_preds : batch Q) :
  exists A : list Q,
    sweep_f1 Y_test raw_preds = A ++ [f1_point 1 0]
    /\ length A = length (sweep_thresholds Y_test raw_preds)
    /\ Forall (fun q => 0 <= q) A.
Proof.
  unfold sweep_f1, sweep_thresholds, precision_recall_curve.
  pose proof (binary_clf_curve_ok (flatten Y_test) (flatten raw_preds)) as Hok.
  set (curve := binary_clf_curve (flatten Y_test) (flatten raw_preds)) in *.
  set (total := last (map (fun pt => snd (fst pt)) curve) 0%Z).
  cbv zeta beta iota. cbn [snd].
  set (P := rev (map curve_precision curve)).
  set (Rc := rev (map (curve_recall total) curve)).
  assert (HlP : length P = length curve)
    by (unfold P; now rewrite length_rev, length_map).
  assert (HlR : length Rc = length curve)
    by (unfold Rc; now rewrite length_rev, length_map).
  assert (Htot : (0 <= total)%Z).
  { unfold total. apply last_Forall with (P := fun z => (0 <= z)%Z); [lia|].
    apply Forall_map. eapply Forall_impl; [|exact Hok].
    intros [[f tp] s] (H1 & _). exact H1. }
  exists (zip_with f1_point P Rc). repeat split.
  - unfold f1_curve. rewrite zip_with_app by congruence. reflexivity.
  - rewrite zip_with_length by congruence.
    now rewrite HlP, length_rev, length_map.
  - eapply zip_with_Forall with (P := fun q => 0 <= q) (Q := fun q => 0 <= q).
    + intros x y Hx Hy. now apply (f1_point_nonneg L).
    + unfold P. apply Forall_rev, Forall_map.
      eapply Forall_impl; [|exact Hok]. intro pt.
      apply (curve_precision_nonneg L).
    + unfold Rc. apply Forall_rev, Forall_map.
      eapply Forall_impl; [|exact Hok]. intro pt.
      now apply (curve_recall_nonneg L).
Qed.

Lemma optimal_threshold_unfold (Y_test : batch Z) (raw_preds : batch Q) :
  optimal_threshold Y_test raw_preds
  = (idx <- argmax (sweep_f1 Y_test raw_preds) ;;
     getitem (sweep_thresholds Y_test raw_preds) idx).
Proof. reflexivity. Qed.

(** On a non-empty batch the selection returns. *)
Lemma optimal_threshold_returns (Y_test : batch Z) (raw_preds : batch Q) :
  same_shape Y_test raw_preds ->
  flatten raw_preds <> [] ->
  exists t, optimal_threshold Y_test raw_preds = Ok t.
Proof.
  intros Hshape Hne.
  destruct (flatten_bmap2 (fun (_ : Z) (_ : Q) => tt) Hshape) as [_ Hlen].
  pose proof (@binary_clf_curve_nonempty _ _ Hlen Hne) as Hcne.
  destruct (sweep_f1_shape Y_test raw_preds) as (A & HF & HlA & HA).
  rewrite optimal_threshold_unfold, HF.
  assert (Hpos : (0 < length A)%nat).
  { rewrite HlA. unfold sweep_thresholds, precision_recall_curve. cbn [snd].
    rewrite length_rev, length_map.
    destruct (binary_clf_curve (flatten Y_test) (flatten raw_preds));
      [congruence | simpl; lia]. }
  destruct (@argmax_first_max (A ++ [f1_point 1 0]))
    as (idx & b & Hidx & Hb & Hmax & Hfirst).
  { destruct A; discriminate. }
  rewrite Hidx. cbn [bind]. unfold getitem.
  destruct (nth_error (sweep_thresholds Y_test raw_preds) idx) as [t|] eqn:Ht;
    [now exists t|].
  exfalso. apply nth_error_None in Ht.
  assert (Hbound : (idx < length (A ++ [f1_point 1 0]))%nat)
    by (apply nth_error_Some; congruence).
  rewrite length_app in Hbound. simpl in Hbound.
  assert (E : idx = length A) by lia.
  assert (Hz : b = f1_point 1 0).
  { rewrite nth_error_app2 in Hb by lia.
    rewrite E, Nat.sub_diag in Hb. simpl in Hb. congruence. }
  destruct A as [|a0 A']; [simpl in Hpos; lia|].
  assert (Ha0 : a0 < b) by (apply (Hfirst 0%nat); [simpl in E; lia | reflexivity]).
  inversion HA; subst.
  rewrite (f1_point_last L) in Ha0.
  apply (Qlt_irrefl 0). eapply Qle_lt_trans; eassumption.
Qed.
End SweepFacts.

(** *** A batch without positive ground truth *)

Lemma insert_desc_sorted (x : Q * Z) (l : list (Q * Z)) :
  StronglySorted ge_score l -> StronglySorted ge_score (insert_desc x l).
Proof.
  induction 1 as [|y ys Hs IH Hy]; simpl.
  - constructor; constructor.
  - destruct (Qle_bool (fst y) (fst x)) eqn:E.
    + apply Qle_bool_iff in E. constructor.
      * now constructor.
      * constructor; [exact E|].
        eapply Forall_impl; [|exact Hy]. unfold ge_score. intros z Hz.
        eapply Qle_trans; eassumption.
    + apply Qle_bool_false in E. constructor; [exact IH|].
      apply Forall_forall. intros z Hz. apply in_insert_desc in Hz.
      destruct Hz as [-> | Hz].
      * unfold ge_score. now apply Qlt_le_weak.
      * rewrite Forall_forall in Hy. now apply Hy.
Qed.

Lemma sort_desc_sorted (l : list (Q * Z)) :
  StronglySorted ge_score (sort_desc l).
Proof.
  unfold sort_desc. induction l as [|x l IH]; simpl; [constructor|].
  now apply insert_desc_sorted.
Qed.

Lemma last_in {A : Type} (l : list A) (d : A) : l <> [] -> In (last l d) l.
Proof.
  induction l as [|x l IH]; [congruence|]. intros _.
  destruct l as [|y l']; [now left|].
  right. apply IH. discriminate.
Qed.

Lemma sorted_last_least (l : list (Q * Z)) (d x : Q * Z) :
  StronglySorted ge_score l -> In x l -> fst (last l d) <= fst x.
Proof.
  induction 1 as [|a l' Hs IH Ha]; intro Hx; [contradiction|].
  destruct l' as [|b l''].
  - destruct Hx as [<- | []]. apply Qle_refl.
  - change (last (a :: b :: l'') d) with (last (b :: l'') d).
    destruct Hx as [<- | Hx]; [|now apply IH].
    rewrite Forall_forall in Ha.
    apply (Ha (last (b :: l'') d)). apply last_in. discriminate.
Qed.

(** The sweep ends at the last, that is the lowest, sample. *)
Lemma clf_curve_from_last (l : list (Q * Z)) (tps n : Z) (d : Z * Z * Q)
  (d' : Q * Z) :
  l <> [] -> snd (last (clf_curve_from tps n l) d) = fst (last l d').
Proof.
  revert tps n. induction l as [|[s y] rest IH]; intros tps n Hl;
    [congruence|].
  destruct rest as [|[s' y'] rest'].
  - reflexivity.
  - change (last ((s, y) :: (s', y') :: rest') d')
      with (last ((s', y') :: rest') d').
    set (tps' := (tps + (if (y =? 1)%Z then 1 else 0))%Z).
    change (clf_curve_from tps n ((s, y) :: (s', y') :: rest'))
      with (if Qeq_bool s s'
            then clf_curve_from tps' (n + 1)%Z ((s', y') :: rest')
            else ((n + 1 - tps')%Z, tps', s)
                   :: clf_curve_from tps' (n + 1)%Z ((s', y') :: rest')).
    assert (Hne : clf_curve_from tps' (n + 1)%Z ((s', y') :: rest') <> [])
      by (apply clf_curve_from_nonempty; discriminate).
    destruct (Qeq_bool s s').
    + apply IH. discriminate.
    + destruct (clf_curve_from tps' (n + 1)%Z ((s', y') :: rest'))
        as [|pt pts] eqn:E; [congruence|].
      change (last (((n + 1 - tps')%Z, tps', s) :: pt :: pts) d)
        with (last (pt :: pts) d).
      rewrite <- E. apply IH. discriminate.
Qed.

Lemma clf_curve_from_no_positive (l : list (Q * Z)) (tps n : Z) :
  Forall (fun sy => snd sy <> 1%Z) l ->
  Forall (fun pt => snd (fst pt) = tps) (clf_curve_from tps n l).
Proof.
  revert tps n. induction l as [|[s y] rest IH]; intros tps n Hl;
    [constructor|].
  inversion Hl as [|? ? Hy Hrest]; subst. simpl in Hy.
  assert (Ey : (y =? 1)%Z = false) by now apply Z.eqb_neq.
  assert (Htail : Forall (fun pt => snd (fst pt) = tps)
                         (clf_curve_from tps (n + 1) rest)) by now apply IH.
  destruct rest as [|[s' y'] rest'].
  - simpl. rewrite Ey. constructor; [simpl; lia | constructor].
  - change (clf_curve_from tps n ((s, y) :: (s', y') :: rest'))
      with (if Qeq_bool s s'
            then clf_curve_from (tps + (if (y =? 1)%Z then 1 else 0))%Z
                                (n + 1)%Z ((s', y') :: rest')
            else ((n + 1 - (tps + (if (y =? 1)%Z then 1 else 0)))%Z,
                  (tps + (if (y =? 1)%Z then 1 else 0))%Z, s)
                   :: clf_curve_from (tps + (if (y =? 1)%Z then 1 else 0))%Z
                                (n + 1)%Z ((s', y') :: rest')).
    rewrite Ey, Z.add_0_r.
    destruct (Qeq_bool s s'); [exact Htail|].
    constructor; [reflexivity | exact Htail].
Qed.

Lemma argmax_from_no_better (l : list Q) (best : Q) (bi i : nat) :
  Forall (fun x => x <= best) l -> argmax_from best bi i l = bi.
Proof.
  intro H. revert i. induction H as [|x xs Hx _ IH]; intro i; [reflexivity|].
  simpl. apply Qgtb_false in Hx. rewrite Hx. apply IH.
Qed.

Lemma hd_rev_last {A : Type} (l : list A) (d : A) :
  l <> [] -> nth_error (rev l) 0 = Some (last l d).
Proof.
  intro Hl. rewrite (app_removelast_last d Hl) at 1.
  rewrite rev_app_distr. reflexivity.
Qed.

Lemma last_map {A B : Type} (f : A -> B) (l : list A) (d : A) :
  last (map f l) (f d) = f (last l d).
Proof.
  induction l as [|x l IH]; [reflexivity|].
  destruct l as [|y l']; [reflexivity|]. exact IH.
Qed.

Lemma in_combine_left {A B : Type} (xs : list A) (ys : list B) (x : A) :
  length ys = length xs -> In x xs -> exists y, In (x, y) (combine xs ys).
Proof.
  revert ys. induction xs as [|a xs IH]; intros [|b ys] Hlen Hx;
    simpl in *; try discriminate; try contradiction.
  destruct Hx as [-> | Hx].
  - exists b. now left.
  - injection Hlen as Hlen. destruct (IH ys Hlen Hx) as [y Hy].
    exists y. now right.
Qed.

Section NoPositive.
Context {R : Rounding} (L : RoundingLaws R).

Lemma f1_point_zero_precision (p r : Q) : p == 0 -> f1_point p r == 0.
Proof.
  intro Hp. unfold f1_point, fdiv, fmul.
  apply (fl_eq_0 L).
  assert (E1 : fl (p * r) == 0)
    by (apply (fl_eq_0 L); rewrite Hp; apply Qmult_0_l).
  assert (E2 : fl (2 * fl (p * r)) == 0)
    by (apply (fl_eq_0 L); rewrite E1; reflexivity).
  rewrite E2. unfold Qdiv. apply Qmult_0_l.
Qed.

Lemma curve_precision_no_positive (pt : Z * Z * Q) :
  snd (fst pt) = 0%Z -> curve_precision pt == 0.
Proof.
  destruct pt as [[fps tps] s]. simpl. intros ->. unfold curve_precision.
  destruct (0 + fps =? 0)%Z; [reflexivity|].
  unfold fdiv. apply (fl_eq_0 L).
  assert (E : of_int 0 == 0) by (unfold of_int; apply (fl_0 L)).
  rewrite E. unfold Qdiv. apply Qmult_0_l.
Qed.

Lemma sweep_f1_no_positive (Y_test : batch Z) (raw_preds : batch Q) :
  Forall (fun y => y <> 1%Z) (flatten Y_test) ->
  Forall (fun q => q == 0) (sweep_f1 Y_test raw_preds).
Proof.
  intro Hneg.
  unfold sweep_f1, precision_recall_curve.
  assert (Htps : Forall (fun pt : Z * Z * Q => snd (fst pt) = 0%Z)
                        (binary_clf_curve (flatten Y_test) (flatten raw_preds))).
  { unfold binary_clf_curve. apply clf_curve_from_no_positive.
    apply Forall_forall. intros [s y] Hin.
    apply (proj1 (in_sort_desc _ _)) in Hin. apply in_combine_r in Hin.
    rewrite Forall_forall in Hneg. now apply Hneg. }
  set (curve := binary_clf_curve (flatten Y_test) (flatten raw_preds)) in *.
  set (total := last (map (fun pt => snd (fst pt)) curve) 0%Z).
  cbv zeta beta iota.
  set (P := rev (map curve_precision curve)).
  set (Rc := rev (map (curve_recall total) curve)).
  assert (HlP : length P = length Rc)
    by (unfold P, Rc; now rewrite !length_rev, !length_map).
  unfold f1_curve. rewrite zip_with_app by exact HlP.
  apply Forall_app. split.
  - eapply zip_with_Forall with (P := fun q => q == 0) (Q := fun _ => True).
    + intros x y Hx _. now apply f1_point_zero_precision.
    + unfold P. apply Forall_rev, Forall_map.
      eapply Forall_impl; [|exact Htps]. intro pt.
      apply curve_precision_no_positive.
    + apply Forall_forall. trivial.
  - constructor; [apply (f1_point_last L) | constructor].
Qed.

(** X5.  When the ground truth has no positive pixel, every point of the
    sweep has F1 0, where the F1 of a point is
    2 * (P * R) / (P + R + 1e-6) of its precision and recall as the script
    computes it; [np.argmax] then returns index 0, and the selected
    threshold is the first of the sweep, the smallest predicted
    probability. *)
Theorem optimal_threshold_without_positives (Y_test : batch Z)
  (raw_preds : batch Q) :
  same_shape Y_test raw_preds ->
  flatten raw_preds <> [] ->
  Forall (fun y => y <> 1%Z) (flatten Y_test) ->
  let F1 := fun p r : Q =>
              fl (fl (2 * fl (p * r)) / fl (fl (p + r) + fl (1 # 1000000))) in
  exists (precisions recalls thresholds : list Q) (t : Q),
    precision_recall_curve (flatten Y_test) (flatten raw_preds)
    = (precisions, recalls, thresholds)
    /\ sweep_f1 Y_test raw_preds = zip_with F1 precisions recalls
    /\ (forall j p r,
           nth_error precisions j = Some p ->
           nth_error recalls j = Some r ->
           F1 p r == 0)
    /\ optimal_idx Y_test raw_preds = Ok 0%nat
    /\ nth_error thresholds 0 = Some t
    /\ optimal_threshold Y_test raw_preds = Ok t
    /\ In t (flatten raw_preds)
    /\ Forall (fun p => t <= p) (flatten raw_preds).
Proof.
  intros Hshape Hne Hneg F1.
  destruct (flatten_bmap2 (fun (_ : Z) (_ : Q) => tt) Hshape) as [_ Hlen].
  pose proof (@sweep_f1_no_positive Y_test raw_preds Hneg) as Hzero.
  assert (Hidx : argmax (sweep_f1 Y_test raw_preds) = Ok 0%nat).
  { destruct (sweep_f1 Y_test raw_preds) as [|x xs] eqn:E.
    - destruct (sweep_f1_shape L Y_test raw_preds) as (A & HF & _).
      rewrite E in HF. destruct A; discriminate.
    - simpl. f_equal. apply argmax_from_no_better.
      inversion Hzero as [|? ? Hx Hxs]; subst.
      eapply Forall_impl; [|exact Hxs]. intros q Hq. simpl in Hq.
      rewrite Hq, Hx. apply Qle_refl. }
  pose proof (@binary_clf_curve_nonempty _ _ Hlen Hne) as Hcne.
  assert (Hsorted : sort_desc (combine (flatten raw_preds) (flatten Y_test))
                    <> []).
  { intro E. apply Hcne. unfold binary_clf_curve. now rewrite E. }
  set (sorted := sort_desc (combine (flatten raw_preds) (flatten Y_test))) in *.
  set (t := fst (last sorted (0, 0%Z))).
  assert (Ht : nth_error (sweep_thresholds Y_test raw_preds) 0 = Some t).
  { unfold sweep_thresholds, precision_recall_curve. cbn [snd].
    assert (Hm : map snd (binary_clf_curve (flatten Y_test) (flatten raw_preds))
                 <> []).
    { intro E. apply Hcne. now apply map_eq_nil in E. }
    rewrite (@hd_rev_last _ _ (snd (0%Z, 0%Z, 0)) Hm).
    rewrite last_map. f_equal. unfold binary_clf_curve.
    now apply clf_curve_from_last. }
  assert (Hopt : optimal_threshold Y_test raw_preds = Ok t).
  { rewrite optimal_threshold_unfold, Hidx. cbn [bind]. unfold getitem.
    now rewrite Ht. }
  destruct (precision_recall_curve (flatten Y_test) (flatten raw_preds))
    as [[precisions recalls] thresholds] eqn:Ecurve.
  assert (Hsweep : sweep_f1 Y_test raw_preds = zip_with F1 precisions recalls).
  { unfold sweep_f1. now rewrite Ecurve. }
  exists precisions, recalls, thresholds, t.
  split; [reflexivity|]. split; [exact Hsweep|].
  split.
  { intros j p r Hp Hr. rewrite Hsweep in Hzero.
    rewrite Forall_forall in Hzero. apply Hzero.
    apply nth_error_In with j. now rewrite nth_error_zip_with, Hp, Hr. }
  split; [unfold optimal_idx; rewrite Ecurve; unfold sweep_f1 in Hidx;
          now rewrite Ecurve in Hidx|].
  split; [unfold sweep_thresholds in Ht; now rewrite Ecurve in Ht|].
  split; [exact Hopt|].
  split; [now apply optimal_threshold_in_scores in Hopt|].
  apply Forall_forall. intros p Hp.
  destruct (in_combine_left (flatten raw_preds) (flatten Y_test) p Hlen Hp)
    as [y Hy].
  change p with (fst (p, y)). unfold t.
  apply sorted_last_least; [apply sort_desc_sorted|].
  now apply in_sort_desc.
Qed.
End NoPositive.

Lemma optimal_threshold_without_positives_witness :
  let F1 := fun p r : Q => 2 * (p * r) / (p + r + (1 # 1000000)) in
  exists (precisions recalls thresholds : list Q) (t : Q),
    @precision_recall_curve exact (flatten [[[0; 0]; [0; 0]]]%Z)
       (flatten example_probs)
    = (precisions, recalls, thresholds)
    /\ @sweep_f1 exact [[[0; 0]; [0; 0]]]%Z example_probs
       = zip_with F1 precisions recalls
    /\ (forall j p r,
           nth_error precisions j = Some p ->
           nth_error recalls j = Some r ->
           F1 p r == 0)
    /\ @optimal_idx exact [[[0; 0]; [0; 0]]]%Z example_probs = Ok 0%nat
    /\ nth_error thresholds 0 = Some t
    /\ @optimal_threshold exact [[[0; 0]; [0; 0]]]%Z example_probs = Ok t
    /\ In t (flatten example_probs)
    /\ Forall (fun p => t <= p) (flatten example_probs).
Proof.
  apply (@optimal_threshold_without_positives exact exact_laws
           [[[0; 0]; [0; 0]]]%Z example_probs).
  - repeat constructor.
  - discriminate.
  - repeat constructor; discriminate.
Defined.

(* ------------------------------------------------------------------ *)
(** ** The post-processed masks (lines 46-66) *)

Lemma retained_bit (labels : image Z) (lab : Z) : is_bit (retained labels lab).
Proof.
  unfold retained.
  destruct ((1 <=? lab) && (100 <=? count_label lab labels))%Z;
    [now right | now left].
Qed.

Lemma imap_binary (f : Z -> Z) (m : image Z) :
  (forall x, is_bit (f x)) -> binary_img (imap f m).
Proof.
  intro Hf. unfold binary_img, binary, iflatten, imap.
  apply Forall_concat. apply Forall_map. apply Forall_forall. intros row _.
  apply Forall_map. apply Forall_forall. intros x _. apply Hf.
Qed.

Section PostprocessOutput.
Context {cv : Cv2}.

(** X6.  Under OpenCV's labelling contract the post-processing of a mask
    returns a mask of the shape of the closed mask whose entries are 0 or
    1, and it only removes: a pixel that is 1 in the result is foreground
    in the closed mask. *)
Theorem postprocess_output_mask (mask : image Z) :
  cc_contract (closed_mask mask) (labelling mask) = true ->
  exists out : image Z,
    postprocess mask = Ok out
    /\ binary_img out
    /\ Forall2 (Forall2 (fun v o => o = 0%Z \/ (o = 1%Z /\ v <> 0%Z)))
               (closed_mask mask) out.
Proof.
  intro Hc. exists (imap (retained (labels_of mask)) (labels_of mask)).
  split; [now apply postprocess_spec|].
  split; [apply imap_binary; apply retained_bit|].
  unfold labels_of. destruct (labelling mask) as [[n labels] stats].
  apply cc_contract_view in Hc. destruct Hc as (_ & Hlab & _ & _).
  cbn [fst snd].
  eapply imap_Forall2; [exact Hlab|].
  intros v lab _ [Hz Hr]. unfold retained.
  destruct (1 <=? lab)%Z eqn:E1; [|now left].
  destruct (100 <=? count_label lab labels)%Z; [|now left].
  right. split; [reflexivity|]. apply Z.leb_le in E1.
  intro Hv. apply Hz in Hv. lia.
Qed.

Lemma postprocessed_preds_spec (binarised : batch Z) :
  Forall (fun mask => cc_contract (closed_mask mask) (labelling mask) = true)
         binarised ->
  postprocessed_preds binarised = Ok (map postprocessed_image binarised).
Proof.
  induction 1 as [|mask rest Hc _ IH]; [reflexivity|].
  simpl. rewrite (postprocess_spec mask Hc), IH. reflexivity.
Qed.

Lemma postprocessed_images_binary (binarised : batch Z) :
  binary (flatten (map postprocessed_image binarised)).
Proof.
  unfold flatten. rewrite map_map. apply Forall_concat, Forall_map.
  apply Forall_forall. intros mask _.
  apply (imap_binary (retained (labels_of mask))). apply retained_bit.
Qed.

(** X7.  The loop over the batch treats every image on its own and keeps
    the order: when every image meets the labelling contract, the batch is
    returned with as many images as it had, each a 0/1 mask, and image [i]
    of the result is the post-processing of image [i] of the input. *)
Theorem postprocessed_preds_imagewise (binarised : batch Z) :
  Forall (fun mask => cc_contract (closed_mask mask) (labelling mask) = true)
         binarised ->
  exists out : batch Z,
    postprocessed_preds binarised = Ok out
    /\ length out = length binarised
    /\ binary (flatten out)
    /\ (forall i mask, nth_error binarised i = Some mask ->
          exists o, nth_error out i = Some o /\ postprocess mask = Ok o).
Proof.
  intro Hc. exists (map postprocessed_image binarised).
  split; [now apply postprocessed_preds_spec|].
  split; [apply length_map|].
  split; [apply postprocessed_images_binary|].
  intros i mask Hi. exists (postprocessed_image mask).
  split; [now rewrite nth_error_map, Hi|].
  apply postprocess_spec.
  rewrite Forall_forall in Hc. apply Hc. eapply nth_error_In; eassumption.
Qed.
End PostprocessOutput.

Lemma postprocess_output_mask_witness :
  exists out : image Z,
    @postprocess ref_cv2 holed99 = Ok out
    /\ binary_img out
    /\ Forall2 (Forall2 (fun v o => o = 0%Z \/ (o = 1%Z /\ v <> 0%Z)))
               (@closed_mask ref_cv2 holed99) out.
Proof.
  apply (@postprocess_output_mask ref_cv2 holed99).
  vm_compute. reflexivity.
Defined.

Lemma postprocessed_preds_imagewise_witness :
  exists out : batch Z,
    @postprocessed_preds ref_cv2 [square100; strip99] = Ok out
    /\ length out = 2%nat
    /\ binary (flatten out)
    /\ (forall i mask, nth_error [square100; strip99] i = Some mask ->
          exists o, nth_error out i = Some o
                    /\ @postprocess ref_cv2 mask = Ok o).
Proof.
  apply (@postprocessed_preds_imagewise ref_cv2 [square100; strip99]).
  repeat constructor; vm_compute; reflexivity.
Defined.

(* ------------------------------------------------------------------ *)
(** ** Overlap metrics (lines 69-77) *)

Lemma zip_with_comm {A B : Type} (f : A -> A -> B) (xs ys : list A) :
  (forall x y, f x y = f y x) -> zip_with f xs ys = zip_with f ys xs.
Proof.
  intro Hf. revert ys. induction xs as [|x xs IH]; intros [|y ys];
    simpl; try reflexivity.
  now rewrite Hf, IH.
Qed.

Lemma bmap2_comm {A B : Type} (f : A -> A -> B) (a b : batch A) :
  (forall x y, f x y = f y x) -> bmap2 f a b = bmap2 f b a.
Proof.
  intro Hf. unfold bmap2, imap2.
  apply zip_with_comm. intros m1 m2.
  apply zip_with_comm. intros r1 r2.
  now apply zip_with_comm.
Qed.

(** X8.  For arrays of one shape the Dice score does not depend on which
    is called the truth and which the prediction. *)
Theorem dice_score_symmetric {R : Rounding} (y_true y_pred : batch Z) :
  same_shape y_true y_pred ->
  dice_score y_true y_pred = dice_score y_pred y_true.
Proof.
  intros _. unfold dice_score, uint64_add.
  rewrite (bmap2_comm uint8_mul y_true y_pred).
  - now rewrite (Z.add_comm (np_sum (flatten y_true))).
  - intros x y. unfold uint8_mul. now rewrite Z.mul_comm.
Qed.

Lemma dice_score_symmetric_witness :
  @dice_score exact example_masks [[[1; 1]; [1; 0]]]%Z
  = @dice_score exact [[[1; 1]; [1; 0]]]%Z example_masks.
Proof.
  apply (@dice_score_symmetric exact example_masks [[[1; 1]; [1; 0]]]%Z).
  repeat constructor.
Defined.

Section OverlapFacts.
Context {R : Rounding} (L : RoundingLaws R).

(** X9.  On 0/1 arrays of one shape that do not overlap the Dice score is
    0: the epsilon keeps the denominator positive, also when both arrays
    are all zero. *)
Theorem dice_score_no_overlap (y_true y_pred : batch Z) :
  same_shape y_true y_pred ->
  binary (flatten y_true) -> binary (flatten y_pred) ->
  (Z.of_nat (length (flatten y_true)) <= 2 ^ 52)%Z ->
  zsum (zip_with Z.mul (flatten y_true) (flatten y_pred)) = 0%Z ->
  dice_score y_true y_pred == 0
  /\ 0 < fadd (of_int (zsum (flatten y_true) + zsum (flatten y_pred))) eps.
Proof.
  intros Hshape Ht Hp Hlen Hzero.
  rewrite (dice_score_counts Hshape Ht Hp Hlen), Hzero.
  destruct (flatten_bmap2 uint8_mul Hshape) as [_ Elen].
  pose proof (zsum_binary_bounds Ht) as Bt.
  pose proof (zsum_binary_bounds Hp) as Bp.
  rewrite <- Elen in Bp.
  assert (P52 : (2 ^ 52 = 4503599627370496)%Z) by reflexivity.
  assert (P53 : (2 ^ 53 = 9007199254740992)%Z) by reflexivity.
  split.
  - unfold fdiv, fmul. apply (fl_eq_0 L).
    assert (E0 : of_int 0 == 0) by apply (fl_0 L).
    assert (E1 : fl (2 * of_int 0) == 0)
      by (apply (fl_eq_0 L); rewrite E0; reflexivity).
    rewrite E1. unfold Qdiv. apply Qmult_0_l.
  - apply (fadd_eps_pos L). apply (of_int_nonneg L). lia.
Qed.

Lemma count_pairs_nonneg_sum (yt yp : list Z) :
  (0 <= count_pairs 1 1 yt yp
   /\ 0 <= count_pairs 0 1 yt yp
   /\ 0 <= count_pairs 1 0 yt yp
   /\ count_pairs 1 1 yt yp + count_pairs 0 1 yt yp + count_pairs 1 0 yt yp
      <= Z.of_nat (length yt))%Z.
Proof.
  revert yp. induction yt as [|a yt IH]; intros [|b yp];
    try (unfold count_pairs; simpl; lia).
  rewrite !count_pairs_cons. specialize (IH yp).
  change (length (a :: yt)) with (S (length yt)). rewrite Nat2Z.inj_succ.
  destruct (a =? 1)%Z eqn:Ea1, (a =? 0)%Z eqn:Ea0,
    (b =? 1)%Z eqn:Eb1, (b =? 0)%Z eqn:Eb0; cbn [andb];
    rewrite ?Z.eqb_eq in *; try lia.
Qed.

(** X10.  On 0/1 arrays of one shape the IoU that [calculate_metrics]
    reports lies in [0, 1]. *)
Theorem calculate_metrics_iou (y_true y_pred : batch Z) :
  same_shape y_true y_pred ->
  binary (flatten y_true) -> binary (flatten y_pred) ->
  (Z.of_nat (length (flatten y_true)) <= 2 ^ 52)%Z ->
  0 <= snd (calculate_metrics y_true y_pred) <= 1.
Proof.
  intros _ _ _ Hlen. unfold calculate_metrics. cbn [snd].
  unfold jaccard_score.
  destruct (count_pairs_nonneg_sum (flatten y_true) (flatten y_pred))
    as (Htp & Hfp & Hfn & Hsum).
  set (tp := count_pairs 1 1 (flatten y_true) (flatten y_pred)) in *.
  set (fp := count_pairs 0 1 (flatten y_true) (flatten y_pred)) in *.
  set (fn := count_pairs 1 0 (flatten y_true) (flatten y_pred)) in *.
  assert (P52 : (2 ^ 52 = 4503599627370496)%Z) by reflexivity.
  assert (P53 : (2 ^ 53 = 9007199254740992)%Z) by reflexivity.
  assert (Hu : forall n, (0 <= n <= 2 ^ 52)%Z -> of_int n == inject_Z n)
    by (intros n Hn; apply (of_int_exact L); lia).
  destruct (tp + fp + fn =? 0)%Z eqn:E; [split; discriminate|].
  apply Z.eqb_neq in E.
  apply (fdiv_unit L).
  - apply (of_int_nonneg L). lia.
  - rewrite !Hu by lia. rewrite <- Zle_Qle. lia.
  - rewrite Hu by lia. change 0 with (inject_Z 0). rewrite <- Zlt_Qlt. lia.
Qed.

Lemma count_pairs_self (l : list Z) :
  binary l ->
  count_pairs 1 1 l l = zsum l
  /\ count_pairs 0 1 l l = 0%Z /\ count_pairs 1 0 l l = 0%Z.
Proof.
  induction 1 as [|x l Hx _ (I1 & I2 & I3)]; [now repeat split|].
  rewrite !count_pairs_cons, I1, I2, I3, zsum_cons.
  destruct Hx as [-> | ->]; cbn; repeat split; lia.
Qed.

(** X11.  A prediction that equals a ground truth with at least one
    positive pixel has IoU 1. *)
Theorem calculate_metrics_iou_perfect (y_true : batch Z) :
  binary (flatten y_true) ->
  (0 < zsum (flatten y_true))%Z ->
  (Z.of_nat (length (flatten y_true)) <= 2 ^ 52)%Z ->
  snd (calculate_metrics y_true y_true) == 1.
Proof.
  intros Hb Hpos Hlen. unfold calculate_metrics. cbn [snd].
  unfold jaccard_score.
  destruct (count_pairs_self Hb) as (E1 & E2 & E3).
  rewrite E1, E2, E3, !Z.add_0_r.
  pose proof (zsum_binary_bounds Hb) as B.
  assert (P52 : (2 ^ 52 = 4503599627370496)%Z) by reflexivity.
  assert (P53 : (2 ^ 53 = 9007199254740992)%Z) by reflexivity.
  assert (Hnz : (zsum (flatten y_true) =? 0)%Z = false)
    by (apply Z.eqb_neq; lia).
  rewrite Hnz. unfold fdiv.
  apply Qeq_trans with (fl 1); [|apply (fl_1 L)].
  apply (fl_eq L).
  rewrite (of_int_exact L) by lia.
  unfold Qdiv. apply Qmult_inv_r.
  intro H0. unfold Qeq in H0. simpl in H0. lia.
Qed.
End OverlapFacts.

Lemma dice_score_no_overlap_witness :
  @dice_score exact [[[0; 1]; [0; 0]]]%Z [[[1; 0]; [0; 0]]]%Z == 0.
Proof.
  destruct (@dice_score_no_overlap exact exact_laws
              [[[0; 1]; [0; 0]]]%Z [[[1; 0]; [0; 0]]]%Z) as [H _].
  - repeat constructor.
  - repeat constructor; (now left) || (now right).
  - repeat constructor; (now left) || (now right).
  - vm_compute. discriminate.
  - reflexivity.
  - exact H.
Defined.

Lemma calculate_metrics_iou_witness :
  0 <= snd (@calculate_metrics exact example_masks [[[1; 1]; [1; 0]]]%Z) <= 1.
Proof.
  apply (@calculate_metrics_iou exact exact_laws
           example_masks [[[1; 1]; [1; 0]]]%Z).
  - repeat constructor.
  - repeat constructor; (now left) || (now right).
  - repeat constructor; (now left) || (now right).
  - vm_compute. discriminate.
Defined.

Lemma calculate_metrics_iou_perfect_witness :
  snd (@calculate_metrics exact example_masks example_masks) == 1.
Proof.
  apply (@calculate_metrics_iou_perfect exact exact_laws example_masks).
  - repeat constructor; (now left) || (now right).
  - reflexivity.
  - vm_compute. discriminate.
Defined.

(* ------------------------------------------------------------------ *)
(** ** The four counts and the clinical metrics (lines 86-94) *)

Lemma confusion_counts_binary (Y_test postprocessed : batch Z) :
  binary (flatten Y_test) -> binary (flatten postprocessed) ->
  confusion_counts Y_test postprocessed
  = if both_labels (flatten Y_test) (flatten postprocessed)
    then Ok (count_pairs 0 0 (flatten Y_test) (flatten postprocessed),
             count_pairs 0 1 (flatten Y_test) (flatten postprocessed),
             count_pairs 1 0 (flatten Y_test) (flatten postprocessed),
             count_pairs 1 1 (flatten Y_test) (flatten postprocessed))
    else Raise ValueError.
Proof.
  intros Ht Hp. unfold confusion_counts, confusion_matrix, both_labels.
  rewrite (unique_labels_binary Ht Hp).
  destruct (has_label 0 (flatten Y_test ++ flatten postprocessed)),
    (has_label 1 (flatten Y_test ++ flatten postprocessed)); reflexivity.
Qed.

Lemma count_pairs_marginals (yt yp : list Z) :
  binary yt -> binary yp -> length yt = length yp ->
  count_pairs 1 1 yt yp = zsum (zip_with Z.mul yt yp)
  /\ (count_pairs 1 1 yt yp + count_pairs 1 0 yt yp = zsum yt)%Z
  /\ (count_pairs 1 1 yt yp + count_pairs 0 1 yt yp = zsum yp)%Z.
Proof.
  intro Ht. revert yp.
  induction Ht as [|a yt Ha _ IH]; intros yp Hp Hlen.
  - destruct yp; [now repeat split | discriminate].
  - destruct Hp as [|b yp Hb Hp]; [discriminate|].
    injection Hlen as Hlen. destruct (IH yp Hp Hlen) as (I1 & I2 & I3).
    rewrite !count_pairs_cons. cbn [zip_with]. rewrite !zsum_cons.
    destruct Ha as [-> | ->], Hb as [-> | ->];
      cbn -[Z.add count_pairs zsum]; repeat split; lia.
Qed.

(** X12.  On 0/1 arrays of one shape the unpacking into [tn, fp, fn, tp]
    succeeds exactly when both labels occur among ground truth and
    prediction.  The counts it then yields are what their names say: TP is
    the intersection, TP + FN the positives of the ground truth, TP + FP
    the predicted positives, and the four add up to the number of
    pixels. *)
Theorem confusion_counts_meaning (Y_test postprocessed : batch Z) :
  same_shape Y_test postprocessed ->
  binary (flatten Y_test) -> binary (flatten postprocessed) ->
  (raises (confusion_counts Y_test postprocessed)
   = negb (both_labels (flatten Y_test) (flatten postprocessed)))
  /\ (forall tn fp fn tp : Z,
         confusion_counts Y_test postprocessed = Ok (tn, fp, fn, tp) ->
         tp = zsum (zip_with Z.mul (flatten Y_test) (flatten postprocessed))
         /\ (tp + fn = zsum (flatten Y_test))%Z
         /\ (tp + fp = zsum (flatten postprocessed))%Z
         /\ (tn + fp + fn + tp = Z.of_nat (length (flatten Y_test)))%Z).
Proof.
  intros Hs Ht Hp.
  destruct (flatten_bmap2 Z.mul Hs) as [_ Hlen].
  rewrite (confusion_counts_binary Y_test postprocessed Ht Hp).
  split.
  - now destruct (both_labels (flatten Y_test) (flatten postprocessed)).
  - intros tn fp fn tp H.
    destruct (both_labels (flatten Y_test) (flatten postprocessed));
      [|discriminate].
    injection H as <- <- <- <-.
    destruct (count_pairs_marginals Ht Hp Hlen) as (M1 & M2 & M3).
    pose proof (count_pairs_total Ht Hp Hlen).
    repeat split; assumption || lia.
Qed.

Lemma confusion_counts_meaning_witness :
  raises (confusion_counts example_masks [[[1; 1]; [1; 0]]]%Z)
  = negb (both_labels (flatten example_masks) (flatten [[[1; 1]; [1; 0]]]%Z)).
Proof.
  destruct (@confusion_counts_meaning example_masks [[[1; 1]; [1; 0]]]%Z)
    as [H _].
  - repeat constructor.
  - repeat constructor; (now left) || (now right).
  - repeat constructor; (now left) || (now right).
  - exact H.
Defined.

Section ClinicalRange.
Context {R : Rounding} (L : RoundingLaws R).

Lemma true_divide_proportion (a b : Z) :
  (0 <= a)%Z -> (0 <= b)%Z -> (a + b <= 2 ^ 53)%Z ->
  unit_or_nan (true_divide a (a + b))
  /\ (true_divide a (a + b) = NaN <-> (a + b = 0)%Z).
Proof.
  intros Ha Hb Hab. unfold true_divide, unit_or_nan.
  destruct (a + b =? 0)%Z eqn:E.
  - apply Z.eqb_eq in E. assert (a = 0%Z) by lia. subst a. simpl.
    split; [now left | tauto].
  - apply Z.eqb_neq in E. split.
    + right. eexists. split; [reflexivity|].
      apply (fdiv_unit L).
      * apply (of_int_nonneg L). lia.
      * rewrite !(of_int_exact L) by lia. rewrite <- Zle_Qle. lia.
      * rewrite (of_int_exact L) by lia.
        change 0 with (inject_Z 0). rewrite <- Zlt_Qlt. lia.
    + split; [discriminate | contradiction].
Qed.

(** X13.  On 0/1 arrays of one shape, once the four counts are unpacked the
    three clinical metrics are computed and none is infinite: each is NaN
    or a value in [0, 1].  The sensitivity is NaN exactly when the ground
    truth has no positive pixel, the specificity exactly when it has no
    negative pixel, and the precision exactly when nothing is predicted
    positive. *)
Theorem clinical_metrics_range (Y_test postprocessed : batch Z)
  (tn fp fn tp : Z) :
  same_shape Y_test postprocessed ->
  binary (flatten Y_test) -> binary (flatten postprocessed) ->
  (Z.of_nat (length (flatten Y_test)) <= 2 ^ 52)%Z ->
  confusion_counts Y_test postprocessed = Ok (tn, fp, fn, tp) ->
  exists sensitivity specificity precision : float64,
    clinical_metrics Y_test postprocessed
    = Ok (sensitivity, specificity, precision)
    /\ unit_or_nan sensitivity /\ unit_or_nan specificity
    /\ unit_or_nan precision
    /\ (sensitivity = NaN <-> zsum (flatten Y_test) = 0%Z)
    /\ (specificity = NaN
        <-> zsum (flatten Y_test) = Z.of_nat (length (flatten Y_test)))
    /\ (precision = NaN <-> zsum (flatten postprocessed) = 0%Z).
Proof.
  intros Hs Ht Hp Hlen Hc.
  destruct (flatten_bmap2 Z.mul Hs) as [_ Elen].
  pose proof Hc as Hc'.
  rewrite (confusion_counts_binary Y_test postprocessed Ht Hp) in Hc'.
  destruct (both_labels (flatten Y_test) (flatten postprocessed));
    [|discriminate].
  injection Hc' as Etn Efp Efn Etp.
  destruct (count_pairs_marginals Ht Hp Elen) as (_ & M2 & M3).
  pose proof (count_pairs_total Ht Hp Elen) as Mtot.
  rewrite Etn, Efp, Efn, Etp in *.
  assert (Hin : forall x, In x [tn; fp; fn; tp] ->
                          (0 <= x <= Z.of_nat (length (flatten Y_test)))%Z).
  { intros x Hx. unfold confusion_counts in Hc.
    apply unpack4_in in Hc. rewrite <- Hc in Hx.
    now apply confusion_matrix_entries in Hx. }
  assert (Htn := Hin tn (or_introl eq_refl)).
  assert (Hfp := Hin fp (or_intror (or_introl eq_refl))).
  assert (Hfn := Hin fn (or_intror (or_intror (or_introl eq_refl)))).
  assert (Htp := Hin tp (or_intror (or_intror (or_intror (or_introl eq_refl))))).
  assert (P52 : (2 ^ 52 = 4503599627370496)%Z) by reflexivity.
  assert (P53 : (2 ^ 53 = 9007199254740992)%Z) by reflexivity.
  destruct (@true_divide_proportion tp fn) as [U1 N1]; try lia.
  destruct (@true_divide_proportion tn fp) as [U2 N2]; try lia.
  destruct (@true_divide_proportion tp fp) as [U3 N3]; try lia.
  exists (true_divide tp (tp + fn)), (true_divide tn (tn + fp)),
    (true_divide tp (tp + fp)).
  split.
  { unfold clinical_metrics. rewrite Hc. cbn [bind].
    now rewrite !int64_add_small by lia. }
  repeat split; try assumption.
  - intro H. apply N1 in H. lia.
  - intro H. apply N1. lia.
  - intro H. apply N2 in H. lia.
  - intro H. apply N2. lia.
  - intro H. apply N3 in H. lia.
  - intro H. apply N3. lia.
Qed.
End ClinicalRange.

Lemma clinical_metrics_range_witness :
  exists sensitivity specificity precision : float64,
    @clinical_metrics exact example_masks [[[1; 1]; [1; 0]]]%Z
    = Ok (sensitivity, specificity, precision)
    /\ unit_or_nan sensitivity /\ unit_or_nan specificity
    /\ unit_or_nan precision
    /\ (sensitivity = NaN <-> zsum (flatten example_masks) = 0%Z)
    /\ (specificity = NaN
        <-> zsum (flatten example_masks)
            = Z.of_nat (length (flatten example_masks)))
    /\ (precision = NaN <-> zsum (flatten [[[1; 1]; [1; 0]]]%Z) = 0%Z).
Proof.
  apply (@clinical_metrics_range exact exact_laws
           example_masks [[[1; 1]; [1; 0]]]%Z 1%Z 1%Z 0%Z 2%Z).
  - repeat constructor.
  - repeat constructor; (now left) || (now right).
  - repeat constructor; (now left) || (now right).
  - vm_compute. discriminate.
  - reflexivity.
Defined.

(* ------------------------------------------------------------------ *)
(** ** The whole run *)

Lemma same_shape_bmap_l {A B C : Type} (f : A -> B) (a : batch A)
  (b : batch C) :
  same_shape a b -> same_shape (bmap f a) b.
Proof.
  unfold same_shape, same_shape_img, bmap, imap.
  induction 1 as [|x y a' b' Hxy _ IH]; simpl; constructor; [|exact IH].
  clear IH. induction Hxy as [|r s x' y' Hrs _ IHr]; simpl; constructor;
    [|exact IHr].
  now rewrite length_map.
Qed.

(** On images of at least 2 x 2 pixels [squeeze] removes the channel axis
    only. *)
Lemma squeeze_each_at_least_2x2 {A : Type} (b : batch A) :
  at_least_2x2 b -> squeeze_each b = Some b.
Proof.
  induction 1 as [|img b [Hrows Hcols] _ IH]; [reflexivity|].
  simpl. rewrite IH. unfold squeeze.
  assert (E1 : (2 <=? length img)%nat = true) by now apply Nat.leb_le.
  assert (E2 : forallb (fun row => (2 <=? length row)%nat) img = true).
  { apply forallb_forall. intros row Hrow. apply Nat.leb_le.
    rewrite Forall_forall in Hcols. now apply Hcols. }
  now rewrite E1, E2.
Qed.

Lemma at_least_2x2_bmap {A B : Type} (f : A -> B) (b : batch A) :
  at_least_2x2 b -> at_least_2x2 (bmap f b).
Proof.
  unfold at_least_2x2, bmap, imap. intro H. apply Forall_map.
  eapply Forall_impl; [|exact H]. intros img [Hrows Hcols].
  split; [now rewrite length_map|].
  apply Forall_map. eapply Forall_impl; [|exact Hcols].
  intros row Hrow. now rewrite length_map.
Qed.

Lemma same_shape_img_of_Forall2 {A B : Type} (P : A -> B -> Prop)
  (a : image A) (b : image B) :
  Forall2 (Forall2 P) a b -> same_shape_img a b.
Proof.
  unfold same_shape_img. intro H. eapply Forall2_impl; [|exact H].
  intros r s Hrs. now apply Forall2_length in Hrs.
Qed.

Lemma same_shape_img_trans {A B C : Type} (a : image A) (b : image B)
  (c : image C) :
  same_shape_img a b -> same_shape_img b c -> same_shape_img a c.
Proof.
  unfold same_shape_img. intro H. revert c.
  induction H as [|r s a' b' Hrs _ IH]; intros c Hc; inversion Hc; subst;
    constructor; [congruence | now apply IH].
Qed.

Lemma same_shape_img_imap_r {A B C : Type} (f : B -> C) (a : image A)
  (b : image B) :
  same_shape_img a b -> same_shape_img a (imap f b).
Proof.
  unfold same_shape_img, imap. induction 1 as [|r s a' b' Hrs _ IH]; simpl;
    constructor; [now rewrite length_map | exact IH].
Qed.

Lemma same_shape_img_refl {A : Type} (a : image A) : same_shape_img a a.
Proof. unfold same_shape_img. induction a; constructor; auto. Qed.

(** The reference OpenCV keeps the shape. *)
Lemma ref_cv2_keeps_shape : keeps_shape ref_cv2.
Proof.
  assert (Himapi : forall (f : Z -> Z -> Z -> Z) (a b : image Z),
             Forall2 (Forall2 (fun _ _ => True)) a b ->
             Forall2 (Forall2 (fun _ _ => True)) a (RefCv2.imapi f b)).
  { intros f a b H.
    apply (@imapi_Forall2 _ _ _ (fun _ _ => True) (fun _ _ => True) f a b H).
    trivial. }
  assert (Hrefl : forall a : image Z, Forall2 (Forall2 (fun _ _ => True)) a a).
  { intro a. induction a as [|row a IH]; constructor; [|exact IH].
    induction row; constructor; auto. }
  intros img op k. apply same_shape_img_of_Forall2 with (P := fun _ _ => True).
  simpl. unfold RefCv2.morphologyEx, RefCv2.erode, RefCv2.dilate.
  destruct op; repeat apply Himapi; apply Hrefl.
Qed.

Section RunFacts.
Context {R : Rounding} (L : RoundingLaws R) {cv : Cv2} {F : FloatFormat}.

(** The post-processed image has the shape of the mask. *)
Lemma postprocessed_image_shape (mask : image Z) :
  keeps_shape cv ->
  cc_contract (closed_mask mask) (labelling mask) = true ->
  same_shape_img mask (postprocessed_image mask).
Proof.
  intros Hk Hc. unfold postprocessed_image, labels_of.
  destruct (labelling mask) as [[n labels] stats]. simpl.
  apply cc_contract_view in Hc. destruct Hc as (_ & Hlab & _ & _).
  apply same_shape_img_trans with (closed_mask mask); [apply Hk|].
  apply same_shape_img_imap_r.
  now apply same_shape_img_of_Forall2 with (P := label_ok n).
Qed.

(** Up to the binarised prediction a valid run does not fail. *)
Lemma binarise_valid (loaded_masks : batch float64) (raw_preds : batch Q) :
  same_shape loaded_masks raw_preds ->
  flatten raw_preds <> [] ->
  Forall in_unit (flatten raw_preds) ->
  exists t : Q,
    optimal_threshold (arr_data (coerce_masks loaded_masks)) raw_preds = Ok t
    /\ binarise loaded_masks raw_preds
       = Ok (arr_data (coerce_masks loaded_masks), t, preds raw_preds t).
Proof.
  intros Hshape Hne Hunit.
  set (Y := coerce_masks loaded_masks).
  assert (HsY : same_shape (arr_data Y) raw_preds)
    by (unfold Y, coerce_masks; simpl; now apply same_shape_bmap_l).
  destruct (flatten_bmap2 (fun (_ : Z) (_ : Q) => tt) HsY) as [_ HlY].
  assert (HbY : binary (flatten (arr_data Y))) by apply coerce_masks_binary.
  assert (Hval : validate_masks Y = Ok tt).
  { rewrite (validate_binary_uint8 Y HbY eq_refl).
    destruct (flatten (arr_data Y)) as [|y ys]; [|reflexivity].
    destruct (flatten raw_preds); [congruence | discriminate]. }
  destruct (optimal_threshold_returns L HsY Hne) as [t Ht].
  exists t. split; [exact Ht|].
  unfold binarise. fold Y. rewrite Hval. cbn [bind].
  rewrite (@validate_outputs_in_unit F raw_preds Hne Hunit). cbn [bind].
  now rewrite Ht.
Qed.

(** X14.  A run on a non-empty batch of images of at least 2 x 2 pixels
    whose probabilities lie in [0, 1], with an OpenCV that keeps the shape
    of an image and the labelling contract, passes the assertions, selects
    a threshold, squeezes every mask to itself and post-processes every
    image into a mask of the same shape.  It then ends in one of two ways:
    when both labels occur among ground truth and post-processed
    prediction it returns its report; when a single label occurs it raises
    [ValueError] in the unpacking of the confusion matrix.  No other
    failure is possible. *)
Theorem evaluate_outcome (loaded_masks : batch float64) (raw_preds : batch Q) :
  keeps_shape cv ->
  (forall img, cc_contract img (connectedComponentsWithStats img) = true) ->
  same_shape loaded_masks raw_preds ->
  at_least_2x2 raw_preds ->
  flatten raw_preds <> [] ->
  Forall in_unit (flatten raw_preds) ->
  exists (t : Q) (postprocessed : batch Z),
    optimal_threshold (arr_data (coerce_masks loaded_masks)) raw_preds = Ok t
    /\ squeeze_each (preds raw_preds t) = Some (preds raw_preds t)
    /\ postprocessed_preds (preds raw_preds t) = Ok postprocessed
    /\ same_shape raw_preds postprocessed
    /\ (both_labels (flatten (arr_data (coerce_masks loaded_masks)))
                    (flatten postprocessed) = true ->
        exists rep : report,
          evaluate loaded_masks raw_preds = Some (Ok rep)
          /\ rep_threshold rep = t
          /\ rep_original rep
             = calculate_metrics (arr_data (coerce_masks loaded_masks))
                                 (preds raw_preds t)
          /\ rep_processed rep
             = calculate_metrics (arr_data (coerce_masks loaded_masks))
                                 postprocessed)
    /\ (both_labels (flatten (arr_data (coerce_masks loaded_masks)))
                    (flatten postprocessed) = false ->
        evaluate loaded_masks raw_preds = Some (Raise ValueError)).
Proof.
  intros Hk Hcv Hshape H2x2 Hne Hunit.
  destruct (binarise_valid Hshape Hne Hunit) as (t & Ht & Hbin).
  set (Y := coerce_masks loaded_masks) in *.
  assert (HbY : binary (flatten (arr_data Y))) by apply coerce_masks_binary.
  assert (Hsq : squeeze_each (preds raw_preds t) = Some (preds raw_preds t)).
  { apply squeeze_each_at_least_2x2. unfold preds. now apply at_least_2x2_bmap. }
  assert (Hpp : postprocessed_preds (preds raw_preds t)
                = Ok (map postprocessed_image (preds raw_preds t))).
  { apply postprocessed_preds_spec. apply Forall_forall. intros mask _.
    apply Hcv. }
  exists t, (map postprocessed_image (preds raw_preds t)).
  split; [exact Ht|]. split; [exact Hsq|]. split; [exact Hpp|].
  split.
  { unfold same_shape, preds, bmap. clear -Hk Hcv.
    induction raw_preds as [|img rest IH]; simpl; constructor; [|exact IH].
    apply same_shape_img_trans with (imap (threshold_pixel t) img).
    - apply same_shape_img_imap_r, same_shape_img_refl.
    - apply postprocessed_image_shape; [exact Hk | apply Hcv]. }
  pose proof (postprocessed_images_binary (preds raw_preds t)) as Hbpp.
  pose proof (confusion_counts_binary (arr_data Y)
                (map postprocessed_image (preds raw_preds t)) HbY Hbpp) as Hcc.
  assert (Hev : evaluate loaded_masks raw_preds
                = Some (clinical <- clinical_metrics (arr_data Y)
                          (map postprocessed_image (preds raw_preds t)) ;;
                        Ok {| rep_threshold := t;
                              rep_original :=
                                calculate_metrics (arr_data Y)
                                  (preds raw_preds t);
                              rep_processed :=
                                calculate_metrics (arr_data Y)
                                  (map postprocessed_image (preds raw_preds t));
                              rep_clinical := clinical |})).
  { unfold evaluate. rewrite Hbin, Hsq. unfold score. now rewrite Hpp. }
  split.
  - intro Hboth. rewrite Hboth in Hcc.
    rewrite Hev. unfold clinical_metrics. rewrite Hcc. cbn [bind].
    eexists. split; [reflexivity|]. now repeat split.
  - intro Hsingle. rewrite Hsingle in Hcc.
    rewrite Hev. unfold clinical_metrics. now rewrite Hcc.
Qed.

(** X15.  The run fails fast on a model output outside [0, 1]: on a
    non-empty batch the mask assertions pass and the assertion on the
    output fails; its message is the fixed text followed by the least and
    the greatest value of the output.  Nothing after it is computed,
    whatever the shape of the images and whatever OpenCV would do. *)
Theorem evaluate_rejects_out_of_range
  (loaded_masks : batch float64) (raw_preds : batch Q) :
  same_shape loaded_masks raw_preds ->
  flatten raw_preds <> [] ->
  ~ Forall in_unit (flatten raw_preds) ->
  exists lo hi : Q,
    least_of lo (flatten raw_preds)
    /\ greatest_of hi (flatten raw_preds)
    /\ evaluate loaded_masks raw_preds
       = Some (Raise (AssertionError
                        ("Model outputs out of [0,1] range: "
                         ++ str_float lo ++ "-" ++ str_float hi)%string)).
Proof.
  intros Hshape Hne Hout.
  set (Y := coerce_masks loaded_masks).
  assert (HsY : same_shape (arr_data Y) raw_preds)
    by (unfold Y, coerce_masks; simpl; now apply same_shape_bmap_l).
  destruct (flatten_bmap2 (fun (_ : Z) (_ : Q) => tt) HsY) as [_ HlY].
  assert (HbY : binary (flatten (arr_data Y))) by apply coerce_masks_binary.
  assert (Hval : validate_masks Y = Ok tt).
  { rewrite (validate_binary_uint8 Y HbY eq_refl).
    destruct (flatten (arr_data Y)) as [|y ys]; [|reflexivity].
    destruct (flatten raw_preds); [congruence | discriminate]. }
  destruct (@validate_outputs_out_of_range F raw_preds Hne Hout)
    as (lo & hi & Hlo & Hhi & E).
  exists lo, hi. split; [exact Hlo|]. split; [exact Hhi|].
  unfold evaluate, binarise. fold Y. rewrite Hval. cbn [bind].
  now rewrite E.
Qed.
End RunFacts.

Lemma evaluate_outcome_witness :
  exists (t : Q) (postprocessed : batch Z),
    @optimal_threshold exact (arr_data (coerce_masks background_masks))
       square_probs = Ok t
    /\ squeeze_each (preds square_probs t) = Some (preds square_probs t)
    /\ @postprocessed_preds ref_cv2 (preds square_probs t) = Ok postprocessed
    /\ same_shape square_probs postprocessed
    /\ (both_labels (flatten (arr_data (coerce_masks background_masks)))
                    (flatten postprocessed) = true ->
        exists rep : report,
          @evaluate exact ref_cv2 decimal background_masks square_probs
          = Some (Ok rep)
          /\ rep_threshold rep = t
          /\ rep_original rep
             = @calculate_metrics exact
                 (arr_data (coerce_masks background_masks))
                 (preds square_probs t)
          /\ rep_processed rep
             = @calculate_metrics exact
                 (arr_data (coerce_masks background_masks)) postprocessed)
    /\ (both_labels (flatten (arr_data (coerce_masks background_masks)))
                    (flatten postprocessed) = false ->
        @evaluate exact ref_cv2 decimal background_masks square_probs
        = Some (Raise ValueError)).
Proof.
  apply (@evaluate_outcome exact exact_laws ref_cv2 decimal
           background_masks square_probs).
  - exact ref_cv2_keeps_shape.
  - exact ref_cv2_contract.
  - repeat constructor.
  - repeat constructor.
  - discriminate.
  - apply forallb_prob_in_range. vm_compute. reflexivity.
Defined.

Lemma evaluate_rejects_out_of_range_witness :
  @evaluate exact ref_cv2 decimal
    [[[Finite 0; Finite 1]; [Finite 1; Finite 0]]]
    [[[1 # 2; 3 # 2]; [1 # 4; 1]]]
  = Some (Raise (AssertionError
                   "Model outputs out of [0,1] range: 0.25-1.5")).
Proof.
  destruct (@evaluate_rejects_out_of_range exact ref_cv2 decimal
              [[[Finite 0; Finite 1]; [Finite 1; Finite 0]]]
              [[[1 # 2; 3 # 2]; [1 # 4; 1]]])
    as (lo & hi & Hlo & Hhi & E).
  - repeat constructor.
  - discriminate.
  - intro H. apply forallb_prob_in_range in H. vm_compute in H. discriminate.
  - rewrite E.
    rewrite (@least_of_eq lo (1 # 4) _ Hlo); [|cbv; tauto|decide_entry].
    rewrite (@greatest_of_eq hi (3 # 2) _ Hhi); [|cbv; tauto|decide_entry].
    reflexivity.
Defined.

(* ------------------------------------------------------------------ *)
(** ** The operating point of the prediction (lines 34-42) *)

Lemma count_where_cons {A : Type} (f : A -> bool) (x : A) (l : list A) :
  count_where f (x :: l) = ((if f x then 1 else 0) + count_where f l)%Z.
Proof. reflexivity. Qed.

Lemma count_where_app {A : Type} (f : A -> bool) (l1 l2 : list A) :
  count_where f (l1 ++ l2) = (count_where f l1 + count_where f l2)%Z.
Proof. unfold count_where. now rewrite map_app, zsum_app. Qed.

Lemma count_where_all {A : Type} (f : A -> bool) (l : list A) :
  Forall (fun x => f x = true) l -> count_where f l = Z.of_nat (length l).
Proof.
  induction 1 as [|x l Hx _ IH]; [reflexivity|].
  rewrite count_where_cons, Hx, IH.
  change (length (x :: l)) with (S (length l)). lia.
Qed.

Lemma count_where_none {A : Type} (f : A -> bool) (l : list A) :
  Forall (fun x => f x = false) l -> count_where f l = 0%Z.
Proof.
  induction 1 as [|x l Hx _ IH]; [reflexivity|].
  now rewrite count_where_cons, Hx, IH.
Qed.

Lemma count_where_insert_desc (f : Q -> bool) (x : Q * Z) (l : list (Q * Z)) :
  count_where f (map fst (insert_desc x l))
  = count_where f (map fst (x :: l)).
Proof.
  induction l as [|y ys IH]; [reflexivity|].
  simpl insert_desc. destruct (Qle_bool (fst y) (fst x)); [reflexivity|].
  cbn [map] in *. rewrite !count_where_cons in *. rewrite IH. lia.
Qed.

Lemma count_where_sort_desc (f : Q -> bool) (l : list (Q * Z)) :
  count_where f (map fst (sort_desc l)) = count_where f (map fst l).
Proof.
  unfold sort_desc. induction l as [|x l IH]; [reflexivity|].
  simpl fold_right. rewrite count_where_insert_desc.
  cbn [map]. now rewrite !count_where_cons, IH.
Qed.

Lemma map_fst_combine {A B : Type} (xs : list A) (ys : list B) :
  length ys = length xs -> map fst (combine xs ys) = xs.
Proof.
  revert ys. induction xs as [|x xs IH]; intros [|y ys] H;
    simpl in *; try discriminate; [reflexivity|].
  f_equal. apply IH. congruence.
Qed.

Lemma sorted_app_inv {A : Type} (Rel : A -> A -> Prop) (pre l : list A) :
  StronglySorted Rel (pre ++ l) ->
  StronglySorted Rel l
  /\ (forall p x, In p pre -> In x l -> Rel p x).
Proof.
  induction pre as [|a pre IH]; simpl; intro H.
  - split; [exact H | contradiction].
  - apply StronglySorted_inv in H. destruct H as [Hs Ha].
    destruct (IH Hs) as [Hl Hpre]. split; [exact Hl|].
    intros p x [<- | Hp] Hx.
    + rewrite Forall_forall in Ha. apply Ha. apply in_or_app. now right.
    + now apply Hpre.
Qed.

(** At each point of the sweep [tps + fps] is the number of samples whose
    score is at least the threshold. *)
Lemma clf_curve_from_counts (l pre : list (Q * Z)) (tps : Z) :
  StronglySorted ge_score (pre ++ l) ->
  forall (fps tps' : Z) (s : Q),
    In (fps, tps', s) (clf_curve_from tps (Z.of_nat (length pre)) l) ->
    (tps' + fps
     = count_where (fun p => Qle_bool s p) (map fst (pre ++ l)))%Z.
Proof.
  revert pre tps. induction l as [|[s0 y] rest IH]; intros pre tps Hs fps tps' s Hin;
    [contradiction|].
  set (tps1 := (tps + (if (y =? 1)%Z then 1 else 0))%Z) in *.
  set (n1 := (Z.of_nat (length pre) + 1)%Z) in *.
  assert (Hn1 : n1 = Z.of_nat (length (pre ++ [(s0, y)])))
    by (unfold n1; rewrite length_app; simpl; lia).
  assert (Happ : (pre ++ [(s0, y)]) ++ rest = pre ++ (s0, y) :: rest)
    by (rewrite <- app_assoc; reflexivity).
  assert (Htail : In (fps, tps', s) (clf_curve_from tps1 n1 rest) ->
                  (tps' + fps
                   = count_where (fun p => Qle_bool s p)
                       (map fst (pre ++ (s0, y) :: rest)))%Z).
  { intro H. rewrite Hn1 in H. rewrite <- Happ.
    apply (IH (pre ++ [(s0, y)]) tps1); [now rewrite Happ | exact H]. }
  assert (Hhere : (forall x, In x rest -> fst x < s0) ->
                  (fps, tps', s) = ((n1 - tps1)%Z, tps1, s0) ->
                  (tps' + fps
                   = count_where (fun p => Qle_bool s p)
                       (map fst (pre ++ (s0, y) :: rest)))%Z).
  { intros Hlow E. injection E as -> -> ->.
    destruct (sorted_app_inv _ _ Hs) as [_ Hpre].
    rewrite map_app, count_where_app. cbn [map].
    rewrite count_where_cons.
    rewrite (@count_where_all _ (fun p => Qle_bool s0 p) (map fst pre)).
    - rewrite (@count_where_none _ (fun p => Qle_bool s0 p) (map fst rest)).
      + rewrite length_map.
        assert (E : Qle_bool s0 (fst (s0, y)) = true)
          by (apply Qle_bool_iff; apply Qle_refl).
        rewrite E. unfold n1. lia.
      + apply Forall_map, Forall_forall. intros x Hx.
        destruct (Qle_bool s0 (fst x)) eqn:E; [|reflexivity].
        apply Qle_bool_iff in E. specialize (Hlow x Hx).
        exfalso. apply (Qlt_irrefl s0). eapply Qle_lt_trans; eassumption.
    - apply Forall_map, Forall_forall. intros p Hp.
      apply Qle_bool_iff. apply (Hpre p (s0, y) Hp). now left. }
  destruct rest as [|[s' y'] rest'].
  - simpl in Hin. destruct Hin as [E | []].
    apply Hhere; [intros x [] | now symmetry].
  - change (clf_curve_from tps (Z.of_nat (length pre))
              ((s0, y) :: (s', y') :: rest'))
      with (if Qeq_bool s0 s'
            then clf_curve_from tps1 n1 ((s', y') :: rest')
            else ((n1 - tps1)%Z, tps1, s0)
                   :: clf_curve_from tps1 n1 ((s', y') :: rest')) in Hin.
    destruct (Qeq_bool s0 s') eqn:Eq; [now apply Htail|].
    destruct Hin as [E | Hin]; [|now apply Htail].
    apply Hhere; [|now symmetry].
    destruct (sorted_app_inv _ _ Hs) as [Hl _].
    apply StronglySorted_inv in Hl. destruct Hl as [Hrest Hs0].
    apply StronglySorted_inv in Hrest. destruct Hrest as [_ Hs'].
    rewrite Forall_forall in Hs0, Hs'.
    assert (Hlt : s' < s0).
    { assert (Hle : s' <= s0) by (apply (Hs0 (s', y')); now left).
      apply Qle_lt_or_eq in Hle. destruct Hle as [Hlt | Heq]; [exact Hlt|].
      exfalso. symmetry in Heq. apply Qeq_bool_iff in Heq. congruence. }
    intros x [<- | Hx]; [exact Hlt|].
    apply Qle_lt_trans with s'; [|exact Hlt]. now apply (Hs' x).
Qed.

Lemma threshold_pixel_counts (t : Q) (l : list Q) :
  zsum (map (threshold_pixel t) l)
  = (count_where (fun p => Qle_bool t p) l - count_where (Qeq_bool t) l)%Z.
Proof.
  induction l as [|p l IH]; [reflexivity|].
  cbn [map]. rewrite zsum_cons, !count_where_cons, IH.
  rewrite threshold_pixel_spec.
  destruct (Qlt_le_dec t p) as [Hlt | Hle].
  - assert (E1 : Qle_bool t p = true)
      by (apply Qle_bool_iff; now apply Qlt_le_weak).
    assert (E2 : Qeq_bool t p = false).
    { destruct (Qeq_bool t p) eqn:E; [|reflexivity].
      apply Qeq_bool_iff in E. rewrite E in Hlt.
      exfalso. now apply (Qlt_irrefl p). }
    rewrite E1, E2. lia.
  - destruct (Qle_bool t p) eqn:E1.
    + apply Qle_bool_iff in E1.
      assert (E2 : Qeq_bool t p = true)
        by (apply Qeq_bool_iff; now apply Qle_antisym).
      rewrite E2. lia.
    + assert (E2 : Qeq_bool t p = false).
      { destruct (Qeq_bool t p) eqn:E; [|reflexivity].
        apply Qeq_bool_iff in E. apply Qle_bool_false in E1.
        rewrite E in E1. exfalso. now apply (Qlt_irrefl p). }
      rewrite E2. lia.
Qed.

Lemma count_where_in {A : Type} (f : A -> bool) (l : list A) (x : A) :
  In x l -> f x = true -> (1 <= count_where f l)%Z.
Proof.
  intros Hin Hf. apply in_split in Hin. destruct Hin as [l1 [l2 ->]].
  rewrite count_where_app, count_where_cons, Hf.
  assert (N : forall l', (0 <= count_where f l')%Z).
  { induction l' as [|a l' IH]; [unfold count_where; simpl; lia|].
    rewrite count_where_cons. destruct (f a); lia. }
  pose proof (N l1). pose proof (N l2). lia.
Qed.

(** X16.  The sweep scores the threshold [t] with the samples whose
    probability is at least [t] counted as positive: that many are
    [tps + fps] at the point of [t].  The script binarises with a strict
    comparison, so its prediction at the selected threshold has that
    number less the pixels whose probability equals the threshold, which
    is strictly fewer positives than the operating point whose F1 was
    selected. *)
Theorem prediction_below_operating_point {R : Rounding} (Y_test : batch Z)
  (raw_preds : batch Q) (t : Q) :
  same_shape Y_test raw_preds ->
  optimal_threshold Y_test raw_preds = Ok t ->
  exists fps tps : Z,
    In (fps, tps, t) (binary_clf_curve (flatten Y_test) (flatten raw_preds))
    /\ (tps + fps
        = count_where (fun p => Qle_bool t p) (flatten raw_preds))%Z
    /\ (count_positive (preds raw_preds t)
        = tps + fps - count_where (Qeq_bool t) (flatten raw_preds))%Z
    /\ (count_positive (preds raw_preds t) < tps + fps)%Z.
Proof.
  intros Hshape Hopt.
  destruct (flatten_bmap2 (fun (_ : Z) (_ : Q) => tt) Hshape) as [_ Hlen].
  pose proof (optimal_threshold_in_scores _ _ Hopt) as Hin.
  assert (Hpt : exists fps tps,
             In (fps, tps, t)
                (binary_clf_curve (flatten Y_test) (flatten raw_preds))).
  { revert Hopt.
    unfold optimal_threshold, precision_recall_curve. cbv zeta beta iota.
    destruct (argmax _) as [idx|e]; [|discriminate]. cbn [bind].
    unfold getitem.
    destruct (nth_error _ idx) as [t'|] eqn:Ht; [|discriminate].
    intro H. injection H as <-.
    apply nth_error_In in Ht. apply in_rev in Ht.
    apply in_map_iff in Ht. destruct Ht as [[[f tp] s] [E Hpt]].
    simpl in E. subst s. now exists f, tp. }
  destruct Hpt as (fps & tps & Hpt).
  assert (Hcount : (tps + fps
                    = count_where (fun p => Qle_bool t p)
                        (flatten raw_preds))%Z).
  { unfold binary_clf_curve in Hpt.
    pose proof (@clf_curve_from_counts
                  (sort_desc (combine (flatten raw_preds) (flatten Y_test)))
                  [] 0%Z
                  (sort_desc_sorted _) fps tps t Hpt) as H.
    cbn [app] in H. rewrite count_where_sort_desc in H.
    now rewrite map_fst_combine in H. }
  assert (Hpred : (count_positive (preds raw_preds t)
                   = tps + fps
                     - count_where (Qeq_bool t) (flatten raw_preds))%Z).
  { unfold count_positive, preds. rewrite flatten_bmap.
    rewrite threshold_pixel_counts. lia. }
  exists fps, tps. repeat split; try assumption.
  assert (Hone : (1 <= count_where (Qeq_bool t) (flatten raw_preds))%Z).
  { apply count_where_in with (x := t); [exact Hin|].
    apply Qeq_bool_iff. reflexivity. }
  lia.
Qed.

Lemma prediction_below_operating_point_witness :
  exists fps tps : Z,
    In (fps, tps, 4 # 10)
       (binary_clf_curve (flatten example_masks) (flatten example_probs))
    /\ (tps + fps
        = count_where (fun p => Qle_bool (4 # 10) p) (flatten example_probs))%Z
    /\ (count_positive (preds example_probs (4 # 10))
        = tps + fps - count_where (Qeq_bool (4 # 10)) (flatten example_probs))%Z
    /\ (count_positive (preds example_probs (4 # 10)) < tps + fps)%Z.
Proof.
  apply (@prediction_below_operating_point exact
           example_masks example_probs (4 # 10)).
  - repeat constructor.
  - reflexivity.
Defined.
